(** * OnnxModel: the graph IR toolkit of
      onnxruntime/python/tools/transformers/onnx_model.py

    A shallow embedding of the [OnnxModel] class: the protobuf messages it
    works on, the object store behind [self.model] and [self.all_graphs],
    and its methods, followed by the properties established for them. *)

From Stdlib Require Import ZArith QArith String Ascii List Lia.
From Stdlib Require Import SpecFloat.
From Stdlib Require Import DecimalString DecimalPos DecimalZ.
From stdpp Require Import base decidable option list gmap strings.

Set Warnings "-register-all".
Local Open Scope nat_scope.

(** ** Outcomes of a Python call *)

Inductive exn : Type :=
  | AssertionError
  | AttributeError
  | KeyError
  | IndexError
  | TypeError
  | ValueError.

(** [OutOfFuel] is not a Python outcome: it is what a [while] loop of the
    model answers when its step budget is used up. *)
Inductive Res (A : Type) : Type :=
  | Ok (a : A)
  | Raise (e : exn)
  | OutOfFuel.
Arguments Ok {A} a.
Arguments Raise {A} e.
Arguments OutOfFuel {A}.

Definition res_bind {A B} (r : Res A) (k : A -> Res B) : Res B :=
  match r with
  | Ok a => k a
  | Raise e => Raise e
  | OutOfFuel => OutOfFuel
  end.

Definition py_assert (b : bool) : Res unit :=
  if b then Ok tt else Raise AssertionError.

(** ** Protobuf messages *)

(** [t_data]: the numbers that the tensor holds, one for each element,
    whichever field of the message stores them. *)
Record TensorProto : Type := mkTensor {
  t_name : string;
  t_data_type : Z;
  t_dims : list Z;
  t_data : list Q
}.

Record ValueInfoProto : Type := mkValueInfo {
  vi_name : string;
  vi_elem_type : Z
}.

Inductive Attr (G : Type) : Type :=
  | AttrGraph (a_name : string) (g : G)
  | AttrGraphs (a_name : string) (gs : list G)
  | AttrTensor (a_name : string) (t : TensorProto)
  | AttrInt (a_name : string) (i : Z).
Arguments AttrGraph {G} a_name g.
Arguments AttrGraphs {G} a_name gs.
Arguments AttrTensor {G} a_name t.
Arguments AttrInt {G} a_name i.

Record Node (G : Type) : Type := mkNode {
  name : string;
  op_type : string;
  input : list string;
  output : list string;
  attribute : list (Attr G)
}.
Arguments mkNode {G} name op_type input output attribute.
Arguments name {G} n.
Arguments op_type {G} n.
Arguments input {G} n.
Arguments output {G} n.
Arguments attribute {G} n.

(** A graph message.  [oid] is not a protobuf field: it is the identity of
    the Python object, which [self.all_graphs] refers to; protobuf [==]
    does not see it (see [erase_graph]). *)
Inductive GraphProto : Type :=
  mkGraph (oid : nat) (g_name : string) (g_node : list (Node GraphProto))
          (g_input g_output : list ValueInfoProto)
          (g_initializer : list TensorProto).

Abbreviation NodeProto := (Node GraphProto).
Abbreviation AttributeProto := (Attr GraphProto).

Definition oid (g : GraphProto) : nat :=
  match g with mkGraph u _ _ _ _ _ => u end.
Definition g_name (g : GraphProto) : string :=
  match g with mkGraph _ s _ _ _ _ => s end.
Definition g_node (g : GraphProto) : list NodeProto :=
  match g with mkGraph _ _ ns _ _ _ => ns end.
Definition g_input (g : GraphProto) : list ValueInfoProto :=
  match g with mkGraph _ _ _ i _ _ => i end.
Definition g_output (g : GraphProto) : list ValueInfoProto :=
  match g with mkGraph _ _ _ _ o _ => o end.
Definition g_initializer (g : GraphProto) : list TensorProto :=
  match g with mkGraph _ _ _ _ _ w => w end.

Definition set_node (ns : list NodeProto) (g : GraphProto) : GraphProto :=
  mkGraph (oid g) (g_name g) ns (g_input g) (g_output g) (g_initializer g).
Definition set_input (i : list ValueInfoProto) (g : GraphProto) : GraphProto :=
  mkGraph (oid g) (g_name g) (g_node g) i (g_output g) (g_initializer g).
Definition set_output (o : list ValueInfoProto) (g : GraphProto) : GraphProto :=
  mkGraph (oid g) (g_name g) (g_node g) (g_input g) o (g_initializer g).
Definition set_initializer (w : list TensorProto) (g : GraphProto) : GraphProto :=
  mkGraph (oid g) (g_name g) (g_node g) (g_input g) (g_output g) w.

(** Graphs held by one attribute, and by the attributes of one node, in the
    order the discovery loop of [graphs] meets them. *)
Definition attr_graphs (a : AttributeProto) : list GraphProto :=
  match a with
  | AttrGraph _ g => [g]
  | AttrGraphs _ gs => gs
  | _ => []
  end.

Definition node_graphs (n : NodeProto) : list GraphProto :=
  flat_map attr_graphs (attribute n).

Definition children (g : GraphProto) : list GraphProto :=
  flat_map node_graphs (g_node g).

(** *** Decidable equality of messages *)

#[global] Instance Q_eq_dec : EqDecision Q.
Proof. solve_decision. Defined.
#[global] Instance TensorProto_eq_dec : EqDecision TensorProto.
Proof. solve_decision. Defined.
#[global] Instance ValueInfoProto_eq_dec : EqDecision ValueInfoProto.
Proof. solve_decision. Defined.
#[global] Instance exn_eq_dec : EqDecision exn.
Proof. solve_decision. Defined.

Fixpoint GraphProto_eq_dec (g1 g2 : GraphProto) {struct g1} :
  {g1 = g2} + {g1 <> g2}.
Proof.
  assert (HA : forall a1 a2 : list GraphProto, {a1 = a2} + {a1 <> a2})
    by (apply List.list_eq_dec, GraphProto_eq_dec).
  decide equality; try solve [apply (@decide_rel _ _ eq _)].
  apply List.list_eq_dec.
  decide equality; try solve [apply (@decide_rel _ _ eq _)].
  apply List.list_eq_dec.
  decide equality; try solve [apply (@decide_rel _ _ eq _)].
Defined.
#[global] Instance GraphProto_EqDecision : EqDecision GraphProto :=
  GraphProto_eq_dec.
#[global] Instance Attr_eq_dec : EqDecision AttributeProto.
Proof. solve_decision. Defined.
#[global] Instance Node_eq_dec : EqDecision NodeProto.
Proof. solve_decision. Defined.

(** *** Protobuf equality

    [==] on messages compares field by field and follows nested messages; the
    identity of the Python objects plays no part.  [erase_node] forgets the
    identities, so [a == b] is [erase_node a = erase_node b]. *)

Definition attr_map {G H} (f : G -> H) (a : Attr G) : Attr H :=
  match a with
  | AttrGraph s g => AttrGraph s (f g)
  | AttrGraphs s gs => AttrGraphs s (List.map f gs)
  | AttrTensor s t => AttrTensor s t
  | AttrInt s i => AttrInt s i
  end.

Definition node_map {G H} (f : G -> H) (n : Node G) : Node H :=
  mkNode (name n) (op_type n) (input n) (output n)
         (List.map (attr_map f) (attribute n)).

Fixpoint erase_graph (g : GraphProto) : GraphProto :=
  match g with
  | mkGraph _ s ns i o w =>
      mkGraph 0 s (List.map (node_map erase_graph) ns) i o w
  end.

Definition erase_node (n : NodeProto) : NodeProto := node_map erase_graph n.

Definition node_eqb (a b : NodeProto) : bool :=
  bool_decide (erase_node a = erase_node b).

(** [node in nodes] *)
Definition node_in (n : NodeProto) (l : list NodeProto) : bool :=
  existsb (node_eqb n) l.

(** [nodes.remove(node)], for a [node] that is in [nodes]: the first equal
    element goes. *)
Fixpoint list_remove_first {A} (p : A -> bool) (l : list A) : list A :=
  match l with
  | [] => []
  | x :: l' => if p x then l' else x :: list_remove_first p l'
  end.

(** A node with no nested graph. *)
Definition plain (n : NodeProto) : Prop := node_graphs n = [].

#[global] Instance plain_dec n : Decision (plain n).
Proof. unfold plain. apply _. Defined.

(** ** The object store

    [self.model.graph] owns the nodes of the primary graph, whose attributes
    own the nested graphs, and so on: a tree, [model_graph].
    [self.all_graphs] holds references to graph objects of that tree; a
    reference is the [oid] of the object.  A graph that was nested in a node
    taken out of the model is not in the tree any longer, but a reference of
    [self.all_graphs] keeps it alive: such graphs are the [detached] ones. *)

Record OnnxModel : Type := mkOnnxModel {
  model_graph : GraphProto;
  detached : list GraphProto;
  all_graphs : option (list nat);
  _node_name_suffix : gmap string Z
}.

(** Every graph object of a tree, the root first. *)
Fixpoint subgraphs (g : GraphProto) : list GraphProto :=
  match g with
  | mkGraph _ _ ns _ _ _ =>
      g :: flat_map (fun n =>
             flat_map (fun a =>
               match a with
               | AttrGraph _ h => subgraphs h
               | AttrGraphs _ hs => flat_map subgraphs hs
               | _ => []
               end) (attribute n)) ns
  end.

Definition store (st : OnnxModel) : list GraphProto :=
  flat_map subgraphs (model_graph st :: detached st).

(** The object a reference stands for. *)
Definition deref (st : OnnxModel) (u : nat) : option GraphProto :=
  List.find (fun g => Nat.eqb (oid g) u) (store st).

(** In place update of the object [u] inside a tree. *)
Fixpoint update_at (u : nat) (f : GraphProto -> GraphProto)
    (g : GraphProto) : GraphProto :=
  match g with
  | mkGraph v s ns i o w =>
      if Nat.eqb v u then f g
      else mkGraph v s (List.map (node_map (update_at u f)) ns) i o w
  end.

Definition store_update (u : nat) (f : GraphProto -> GraphProto)
    (st : OnnxModel) : OnnxModel :=
  mkOnnxModel (update_at u f (model_graph st))
              (List.map (update_at u f) (detached st))
              (all_graphs st) (_node_name_suffix st).

Definition set_model_graph (g : GraphProto) (st : OnnxModel) : OnnxModel :=
  mkOnnxModel g (detached st) (all_graphs st) (_node_name_suffix st).
Definition set_detached (d : list GraphProto) (st : OnnxModel) : OnnxModel :=
  mkOnnxModel (model_graph st) d (all_graphs st) (_node_name_suffix st).
Definition set_all_graphs (c : option (list nat)) (st : OnnxModel) : OnnxModel :=
  mkOnnxModel (model_graph st) (detached st) c (_node_name_suffix st).
Definition set_node_name_suffix (m : gmap string Z) (st : OnnxModel) : OnnxModel :=
  mkOnnxModel (model_graph st) (detached st) (all_graphs st) m.

(** Identities are pairwise distinct and [self.all_graphs] refers to stored
    objects only: what holds of every state Python can be in. *)
Definition wf_store (st : OnnxModel) : Prop :=
  NoDup (List.map oid (store st)) /\
  match all_graphs st with
  | Some gs => Forall (fun u => u ∈ List.map oid (store st)) gs
  | None => True
  end.

#[global] Instance wf_store_dec st : Decision (wf_store st).
Proof. unfold wf_store. destruct (all_graphs st); apply _. Defined.

(** ** The state and error monad of the methods *)

Definition M (A : Type) : Type := OnnxModel -> Res (A * OnnxModel).

Definition ret {A} (a : A) : M A := fun st => Ok (a, st).
Definition bind {A B} (m : M A) (k : A -> M B) : M B :=
  fun st =>
    match m st with
    | Ok (a, st') => k a st'
    | Raise e => Raise e
    | OutOfFuel => OutOfFuel
    end.
Definition raise {A} (e : exn) : M A := fun _ => Raise e.
Definition get : M OnnxModel := fun st => Ok (st, st).
Definition modify (f : OnnxModel -> OnnxModel) : M unit :=
  fun st => Ok (tt, f st).
Definition lift {A} (r : Res A) : M A :=
  fun st => res_bind r (fun a => Ok (a, st)).

Notation "'let!' x := m 'in' k" := (bind m (fun x => k))
  (at level 10, x name, m at level 100, k at level 200).
Notation "'do!' m 'in' k" := (bind m (fun _ => k))
  (at level 10, m at level 100, k at level 200).

(** [for x in l: body x] *)
Fixpoint for_each {A} (l : list A) (body : A -> M unit) : M unit :=
  match l with
  | [] => ret tt
  | x :: l' => do! body x in for_each l' body
  end.

(** ** Python sequences and dictionaries *)

(** [l[i]] for a Python integer [i]: negative indices count from the end. *)
Definition py_getitem {A} (l : list A) (i : Z) : Res A :=
  let n := Z.of_nat (length l) in
  let j := if (i <? 0)%Z then (n + i)%Z else i in
  if ((j <? 0)%Z || (n <=? j)%Z)%bool then Raise IndexError
  else match l !! Z.to_nat j with
       | Some x => Ok x
       | None => Raise IndexError
       end.

(** [l.insert(i, x)] for [0 <= i]. *)
Definition py_insert {A} (i : nat) (x : A) (l : list A) : list A :=
  firstn i l ++ x :: skipn i l.

(** [d[k]] *)
Definition py_dict_get {V} (d : gmap string V) (k : string) : Res V :=
  match d !! k with
  | Some v => Ok v
  | None => Raise KeyError
  end.

(** [k in d] *)
Definition py_dict_in {V} (k : string) (d : gmap string V) : bool :=
  bool_decide (is_Some (d !! k)).

(** [s in l] for strings *)
Definition str_in (s : string) (l : list string) : bool :=
  bool_decide (s ∈ l).

(** ** Graph collection *)

Fixpoint graphs_loop (fuel : nat) (graph_queue : list GraphProto)
    (acc : list nat) : list nat :=
  match fuel with
  | 0 => acc
  | S fuel' =>
      match graph_queue with
      | [] => acc
      | graph :: graph_queue' =>
          graphs_loop fuel' (graph_queue' ++ children graph) (acc ++ [oid graph])
      end
  end.

(** One turn of the loop per graph object of the tree: the length of
    [subgraphs] is all the fuel the loop can use (see [graphs_loop_fuel]). *)
Definition discover (g : GraphProto) : list nat :=
  graphs_loop (length (subgraphs g)) [g] [].

Definition graphs : M (list nat) :=
  fun st =>
    match all_graphs st with
    | Some gs => Ok (gs, st)
    | None =>
        let gs := discover (model_graph st) in
        Ok (gs, set_all_graphs (Some gs) st)
    end.

(** [graph.node] through a reference. *)
Definition graph_node (st : OnnxModel) (u : nat) : list NodeProto :=
  match deref st u with
  | Some g => g_node g
  | None => []
  end.

Definition nodes : M (list NodeProto) :=
  let! gs := graphs in
  let! st := get in
  ret (flat_map (graph_node st) gs).

Definition graph : M GraphProto :=
  let! st := get in ret (model_graph st).

(** ** Value-flow index *)

Definition index_inputs (all_nodes : list NodeProto) :
    gmap string (list NodeProto) :=
  fold_left (fun d node =>
    fold_left (fun d input_name =>
      match d !! input_name with
      | None => <[input_name := [node]]> d
      | Some l => <[input_name := l ++ [node]]> d
      end) (input node) d) all_nodes ∅.

Definition index_outputs (all_nodes : list NodeProto) :
    gmap string NodeProto :=
  fold_left (fun d node =>
    fold_left (fun d output_name => <[output_name := node]> d)
              (output node) d) all_nodes ∅.

Definition input_name_to_nodes : M (gmap string (list NodeProto)) :=
  let! ns := nodes in ret (index_inputs ns).

Definition output_name_to_node : M (gmap string NodeProto) :=
  let! ns := nodes in ret (index_outputs ns).

(** A dictionary argument that defaults to [None] and is then computed. *)
Definition default_to {A} (o : option A) (m : M A) : M A :=
  match o with
  | Some a => ret a
  | None => m
  end.

Definition get_graphs_input_names : M (list string) :=
  let! gs := graphs in
  let! st := get in
  ret (flat_map (fun u => match deref st u with
                          | Some g => List.map vi_name (g_input g)
                          | None => []
                          end) gs).

Definition get_graphs_output_names : M (list string) :=
  let! gs := graphs in
  let! st := get in
  ret (flat_map (fun u => match deref st u with
                          | Some g => List.map vi_name (g_output g)
                          | None => []
                          end) gs).

(** The result is a reference to the graph, or [None]. *)
Definition get_graph_by_node (node : NodeProto) : M (option nat) :=
  let! gs := graphs in
  let! st := get in
  ret (List.find (fun u => node_in node (graph_node st u)) gs).

Definition get_graph_by_name (graph_name : string) : M (option nat) :=
  let! gs := graphs in
  let! st := get in
  ret (List.find (fun u => match deref st u with
                           | Some g => bool_decide (graph_name = g_name g)
                           | None => false
                           end) gs).

(** Position of the first element that satisfies [p]; the length of the list
    when there is none. *)
Fixpoint first_index {A} (p : A -> bool) (l : list A) : nat :=
  match l with
  | [] => 0
  | x :: l' => if p x then 0 else S (first_index p l')
  end.

(** A node one of whose inputs is in [outputs]. *)
Definition consumes (outputs : list string) (node : NodeProto) : bool :=
  existsb (fun input => str_in input outputs) (input node).

(** [graph] is what [get_graph_by_name] answered; reading [graph.node] of
    [None] raises. *)
Definition get_topological_insert_id (graph : option nat)
    (outputs : list string) : M nat :=
  match graph with
  | None => raise AttributeError
  | Some u =>
      let! st := get in
      ret (first_index (consumes outputs) (graph_node st u))
  end.

(** ** Mutation interface *)

(** [graph.node.remove(node)] on the object [u]: the first node equal to
    [node] leaves the graph; the graphs nested in it leave the model with
    it. *)
Definition drop_node (node : NodeProto) (g : GraphProto) : GraphProto :=
  set_node (list_remove_first (node_eqb node) (g_node g)) g.

Definition remove_from (u : nat) (node : NodeProto) (st : OnnxModel) :
    OnnxModel :=
  let gone := match List.find (node_eqb node) (graph_node st u) with
              | Some m => node_graphs m
              | None => []
              end in
  let st' := store_update u (drop_node node) st in
  set_detached (detached st' ++ gone) st'.

Definition remove_node (node : NodeProto) : M unit :=
  let! gs := graphs in
  for_each gs (fun u =>
    let! st := get in
    if node_in node (graph_node st u) then modify (remove_from u node)
    else ret tt).

Definition remove_nodes (nodes_to_remove : list NodeProto) : M unit :=
  for_each nodes_to_remove remove_node.

(** The graph name when the [else] branch is taken, that is unless
    [graph_name is None or graph_name == self.model.graph.name]. *)
Definition named_elsewhere (graph_name : option string) (st : OnnxModel) :
    option string :=
  match graph_name with
  | None => None
  | Some s => if bool_decide (s = g_name (model_graph st)) then None else Some s
  end.

Definition add_node (node : NodeProto) (graph_name : option string) : M unit :=
  let! st := get in
  match named_elsewhere graph_name st with
  | None =>
      modify (fun st =>
        set_model_graph
          (set_node (g_node (model_graph st) ++ [node]) (model_graph st)) st)
  | Some s =>
      let! graph := get_graph_by_name s in
      let! insert_idx := get_topological_insert_id graph (output node) in
      match graph with
      | None => raise AttributeError
      | Some u =>
          modify (store_update u (fun g =>
            set_node (py_insert insert_idx node (g_node g)) g))
      end
  end.

Definition add_initializer (tensor : TensorProto)
    (graph_name : option string) : M unit :=
  let! st := get in
  match named_elsewhere graph_name st with
  | None =>
      modify (fun st =>
        set_model_graph
          (set_initializer (g_initializer (model_graph st) ++ [tensor])
                           (model_graph st)) st)
  | Some s =>
      let! graph := get_graph_by_name s in
      match graph with
      | None => raise AttributeError
      | Some u =>
          modify (store_update u (fun g =>
            set_initializer (g_initializer g ++ [tensor]) g))
      end
  end.

Definition add_input (input : ValueInfoProto)
    (graph_name : option string) : M unit :=
  let! st := get in
  match named_elsewhere graph_name st with
  | None =>
      modify (fun st =>
        set_model_graph
          (set_input (g_input (model_graph st) ++ [input]) (model_graph st)) st)
  | Some s =>
      let! graph := get_graph_by_name s in
      match graph with
      | None => raise AttributeError
      | Some u =>
          modify (store_update u (fun g => set_input (g_input g ++ [input]) g))
      end
  end.

(** What a caller may pass where a name is expected. *)
Inductive pyval : Type :=
  | PyStr (s : string)
  | PyInt (z : Z)
  | PyNone.

Definition isinstance_str (v : pyval) : bool :=
  match v with PyStr _ => true | _ => false end.

Definition rename (old new : pyval) (x : string) : string :=
  match old, new with
  | PyStr o, PyStr n => if bool_decide (x = o) then n else x
  | _, _ => x
  end.

(** Static methods: the result is the node after the call. *)
Definition replace_node_input (node : NodeProto)
    (old_input_name new_input_name : pyval) : Res NodeProto :=
  res_bind (py_assert (isinstance_str old_input_name &&
                       isinstance_str new_input_name)) (fun _ =>
  Ok (mkNode (name node) (op_type node)
             (List.map (rename old_input_name new_input_name) (input node))
             (output node) (attribute node))).

Definition replace_node_output (node : NodeProto)
    (old_output_name new_output_name : pyval) : Res NodeProto :=
  res_bind (py_assert (isinstance_str old_output_name &&
                       isinstance_str new_output_name)) (fun _ =>
  Ok (mkNode (name node) (op_type node) (input node)
             (List.map (rename old_output_name new_output_name) (output node))
             (attribute node))).

(** [for x in l], each [x] replaced by what [f] makes of it. *)
Fixpoint map_res {A B} (f : A -> Res B) (l : list A) : Res (list B) :=
  match l with
  | [] => Ok []
  | x :: l' =>
      res_bind (f x) (fun y => res_bind (map_res f l') (fun l'' => Ok (y :: l'')))
  end.

Definition replace_input_of_all_nodes (old_input_name new_input_name : pyval) :
    M unit :=
  let! st := get in
  let! ns := lift (map_res (fun node =>
               replace_node_input node old_input_name new_input_name)
               (g_node (model_graph st))) in
  modify (set_model_graph (set_node ns (model_graph st))).

Definition replace_output_of_all_nodes
    (old_output_name new_output_name : pyval) : M unit :=
  let! st := get in
  let! ns := lift (map_res (fun node =>
               replace_node_output node old_output_name new_output_name)
               (g_node (model_graph st))) in
  modify (set_model_graph (set_node ns (model_graph st))).

Definition get_initializer (tensor_name : string) : M (option TensorProto) :=
  let! gs := graphs in
  let! st := get in
  ret (List.find (fun tensor => bool_decide (t_name tensor = tensor_name))
         (flat_map (fun u => match deref st u with
                             | Some g => g_initializer g
                             | None => []
                             end) gs)).

Definition get_nodes_by_op_type (op : string) : M (list NodeProto) :=
  let! ns := nodes in
  ret (List.filter (fun node => bool_decide (op_type node = op)) ns).

(** ** Pattern-matching engine *)

Definition children_of (input_name_to_nodes : gmap string (list NodeProto))
    (node : NodeProto) : list NodeProto :=
  flat_map (fun output => default [] (input_name_to_nodes !! output))
           (output node).

Definition parents_of (output_name_to_node : gmap string NodeProto)
    (node : NodeProto) : list NodeProto :=
  flat_map (fun input => option_list (output_name_to_node !! input))
           (input node).

Definition get_children (node : NodeProto)
    (input_name_to_nodes_arg : option (gmap string (list NodeProto))) :
    M (list NodeProto) :=
  let! d := default_to input_name_to_nodes_arg input_name_to_nodes in
  ret (children_of d node).

Definition get_parents (node : NodeProto)
    (output_name_to_node_arg : option (gmap string NodeProto)) :
    M (list NodeProto) :=
  let! d := default_to output_name_to_node_arg output_name_to_node in
  ret (parents_of d node).

Definition get_parent_in (d : gmap string NodeProto) (node : NodeProto)
    (i : Z) : Res (option NodeProto) :=
  if (Z.of_nat (length (input node)) <=? i)%Z then Ok None
  else res_bind (py_getitem (input node) i) (fun input => Ok (d !! input)).

Definition get_parent (node : NodeProto) (i : Z)
    (output_name_to_node_arg : option (gmap string NodeProto)) :
    M (option NodeProto) :=
  let! d := default_to output_name_to_node_arg output_name_to_node in
  lift (get_parent_in d node i).

(** [enumerate(node.input)] from position [i] on. *)
Fixpoint match_first_parent_from (i : nat) (inputs : list string)
    (parent_op_type : string) (d : gmap string NodeProto)
    (exclude : list NodeProto) : option NodeProto * option nat :=
  match inputs with
  | [] => (None, None)
  | input :: inputs' =>
      match d !! input with
      | Some parent =>
          if bool_decide (op_type parent = parent_op_type)
             && negb (node_in parent exclude)
          then (Some parent, Some i)
          else match_first_parent_from (S i) inputs' parent_op_type d exclude
      | None => match_first_parent_from (S i) inputs' parent_op_type d exclude
      end
  end.

Definition match_first_parent (node : NodeProto) (parent_op_type : string)
    (d : gmap string NodeProto) (exclude : list NodeProto) :
    option NodeProto * option nat :=
  match_first_parent_from 0 (input node) parent_op_type d exclude.

(** The list [return_indice] when one is passed, after the call. *)
Definition indice : Type := option (list (option nat)).

Definition indice_append (r : indice) (i : option nat) : indice :=
  match r with
  | Some l => Some (l ++ [i])
  | None => None
  end.

(** The body of [match_parent], once the dictionary is there.  The two
    [assert]s read no state, so that they come before the default of the
    dictionary in the source makes no difference; [node] is a node, never
    [None]. *)
Definition match_parent_in (d : gmap string NodeProto) (node : NodeProto)
    (parent_op_type : string) (input_index : option Z)
    (exclude : list NodeProto) (return_indice : indice) :
    Res (option NodeProto * indice) :=
  res_bind (py_assert (match input_index with
                       | None => true
                       | Some i => (0 <=? i)%Z
                       end)) (fun _ =>
  match input_index with
  | None =>
      let '(parent, index) :=
        match_first_parent node parent_op_type d exclude in
      Ok (parent, indice_append return_indice index)
  | Some i =>
      if (Z.of_nat (length (input node)) <=? i)%Z then Ok (None, return_indice)
      else
        res_bind (get_parent_in d node i) (fun parent =>
        match parent with
        | Some p =>
            if bool_decide (op_type p = parent_op_type)
               && negb (node_in p exclude)
            then Ok (Some p, return_indice)
            else Ok (None, return_indice)
        | None => Ok (None, return_indice)
        end)
  end).

Definition match_parent (node : NodeProto) (parent_op_type : string)
    (input_index : option Z)
    (output_name_to_node_arg : option (gmap string NodeProto))
    (exclude : list NodeProto) (return_indice : indice) :
    M (option NodeProto * indice) :=
  let! d := default_to output_name_to_node_arg output_name_to_node in
  lift (match_parent_in d node parent_op_type input_index exclude
                        return_indice).

(** The loop of [match_parent_path]; [matched_parents] is the list built so
    far.  [parent_input_index[i]] past the end of the list raises. *)
Fixpoint match_parent_path_loop (d : gmap string NodeProto)
    (current_node : NodeProto) (parent_op_types : list string)
    (parent_input_index : list (option Z)) (matched_parents : list NodeProto)
    (return_indice : indice) : Res (option (list NodeProto) * indice) :=
  match parent_op_types with
  | [] => Ok (Some matched_parents, return_indice)
  | op :: parent_op_types' =>
      match parent_input_index with
      | [] => Raise IndexError
      | i :: parent_input_index' =>
          res_bind (match_parent_in d current_node op i [] return_indice)
            (fun '(matched_parent, return_indice') =>
               match matched_parent with
               | None => Ok (None, return_indice')
               | Some p =>
                   match_parent_path_loop d p parent_op_types'
                     parent_input_index' (matched_parents ++ [p])
                     return_indice'
               end)
      end
  end.

Definition match_parent_path_in (d : gmap string NodeProto)
    (node : NodeProto) (parent_op_types : list string)
    (parent_input_index : list (option Z)) (return_indice : indice) :
    Res (option (list NodeProto) * indice) :=
  res_bind (py_assert (bool_decide (length parent_input_index =
                                    length parent_op_types))) (fun _ =>
  match_parent_path_loop d node parent_op_types parent_input_index []
                         return_indice).

Definition match_parent_path (node : NodeProto) (parent_op_types : list string)
    (parent_input_index : list (option Z))
    (output_name_to_node_arg : option (gmap string NodeProto))
    (return_indice : indice) : M (option (list NodeProto) * indice) :=
  let! d := default_to output_name_to_node_arg output_name_to_node in
  lift (match_parent_path_in d node parent_op_types parent_input_index
                             return_indice).

(** [matched] is truthy when it is a list that is not empty. *)
Fixpoint match_parent_paths_from (i : Z) (d : gmap string NodeProto)
    (node : NodeProto) (paths : list (list string * list (option Z))) :
    Res (Z * option (list NodeProto) * indice) :=
  match paths with
  | [] => Ok ((-1)%Z, None, None)
  | path :: paths' =>
      res_bind (match_parent_path_in d node (fst path) (snd path) (Some []))
        (fun '(matched, return_indice) =>
           match matched with
           | Some (p :: l) => Ok (i, Some (p :: l), return_indice)
           | _ => match_parent_paths_from (i + 1)%Z d node paths'
           end)
  end.

Definition match_parent_paths (node : NodeProto)
    (paths : list (list string * list (option Z)))
    (d : gmap string NodeProto) : Res (Z * option (list NodeProto) * indice) :=
  match_parent_paths_from 0%Z d node paths.

(** *** Traversals

    A [deque] is kept as the list of its elements from the right end to the
    left end: [dq.pop()] takes the head, [dq.appendleft(x)] adds at the
    back, and [deque(l)] is [rev l]. *)

Definition deque {A} (l : list A) : list A := rev l.

(** The loop of [find_first_child_by_type] and of
    [find_first_parent_by_type]; [next] gives the children, or the parents,
    of a node; one unit of fuel per turn of the [while]. *)
Fixpoint find_first_loop (next : NodeProto -> list NodeProto)
    (wanted : string) (recursive : bool) (fuel : nat) (dq : list NodeProto) :
    Res (option NodeProto) :=
  match dq with
  | [] => Ok None
  | current_node :: dq' =>
      match fuel with
      | 0 => OutOfFuel
      | S fuel' =>
          if bool_decide (op_type current_node = wanted)
          then Ok (Some current_node)
          else find_first_loop next wanted recursive fuel'
                 (if recursive then dq' ++ next current_node else dq')
      end
  end.

Definition find_first_child_by_type (fuel : nat) (node : NodeProto)
    (child_type : string)
    (input_name_to_nodes_arg : option (gmap string (list NodeProto)))
    (recursive : bool) : M (option NodeProto) :=
  let! d := default_to input_name_to_nodes_arg input_name_to_nodes in
  lift (find_first_loop (children_of d) child_type recursive fuel
          (deque (children_of d node))).

Definition find_first_parent_by_type (fuel : nat) (node : NodeProto)
    (parent_type : string)
    (output_name_to_node_arg : option (gmap string NodeProto))
    (recursive : bool) : M (option NodeProto) :=
  let! d := default_to output_name_to_node_arg output_name_to_node in
  lift (find_first_loop (parents_of d) parent_type recursive fuel
          (deque (parents_of d node))).

(** The loop of [get_children_subgraph_nodes] and of
    [get_parent_subgraph_nodes]. *)
Fixpoint subgraph_loop (next : NodeProto -> list NodeProto)
    (stop_nodes : list NodeProto) (fuel : nat) (dq : list NodeProto)
    (unique_nodes : list NodeProto) : Res (list NodeProto) :=
  match dq with
  | [] => Ok unique_nodes
  | current_node :: dq' =>
      match fuel with
      | 0 => OutOfFuel
      | S fuel' =>
          if node_in current_node stop_nodes
          then subgraph_loop next stop_nodes fuel' dq' unique_nodes
          else if negb (node_in current_node unique_nodes)
          then subgraph_loop next stop_nodes fuel'
                 (dq' ++ next current_node) (unique_nodes ++ [current_node])
          else subgraph_loop next stop_nodes fuel' dq' unique_nodes
      end
  end.

Definition get_children_subgraph_nodes_in (fuel : nat)
    (d : gmap string (list NodeProto)) (root_node : NodeProto)
    (stop_nodes : list NodeProto) : Res (list NodeProto) :=
  res_bind (py_getitem (output root_node) 0%Z) (fun out0 =>
  res_bind (py_dict_get d out0) (fun children =>
  subgraph_loop (children_of d) stop_nodes fuel (deque children) [])).

Definition get_children_subgraph_nodes (fuel : nat) (root_node : NodeProto)
    (stop_nodes : list NodeProto)
    (input_name_to_nodes_arg : option (gmap string (list NodeProto))) :
    M (list NodeProto) :=
  let! d := default_to input_name_to_nodes_arg input_name_to_nodes in
  lift (get_children_subgraph_nodes_in fuel d root_node stop_nodes).

Definition get_parent_subgraph_nodes_in (fuel : nat)
    (d : gmap string NodeProto) (node : NodeProto)
    (stop_nodes : list NodeProto) : Res (list NodeProto) :=
  subgraph_loop (parents_of d) stop_nodes fuel (deque (parents_of d node)) [].

Definition get_parent_subgraph_nodes (fuel : nat) (node : NodeProto)
    (stop_nodes : list NodeProto)
    (output_name_to_node_arg : option (gmap string NodeProto)) :
    M (list NodeProto) :=
  let! d := default_to output_name_to_node_arg output_name_to_node in
  lift (get_parent_subgraph_nodes_in fuel d node stop_nodes).

(** ** Constant resolution *)

(** *** The numbers of numpy

    numpy computes in the binary formats of IEEE 754, rounding to nearest,
    ties to even; the operations are those of [SpecFloat].  The numbers a
    tensor holds are given as rationals, and a Python [float] is a binary64
    number. *)
Inductive float_format : Type := binary16 | binary32 | binary64.

Definition prec (F : float_format) : Z :=
  match F with binary16 => 11 | binary32 => 24 | binary64 => 53 end.

Definition emax (F : float_format) : Z :=
  match F with binary16 => 16 | binary32 => 128 | binary64 => 1024 end.

Definition float : Type := spec_float.

(** The number of the format [F] that is nearest to the rational [q]: the
    quotient is taken with three bits more than the format keeps and a
    sticky bit for the remainder, and rounded once. *)
Definition round_to (F : float_format) (q : Q) : spec_float :=
  let a := Z.abs (Qnum q) in
  let d := Zpos (Qden q) in
  let k := Z.max 0 (prec F + 2 + Z.log2_up d - Z.log2 a) in
  let quotient := (Z.shiftl a k / d)%Z in
  let sticky := if (Z.shiftl a k mod d =? 0)%Z then 0%Z else 1%Z in
  let m := (2 * quotient + sticky)%Z in
  binary_normalize (prec F) (emax F)
                   (if (Qnum q <? 0)%Z then (- m)%Z else m) (- k - 1) false.

(** What a Python literal such as [2.01] stands for. *)
Definition py_float (q : Q) : float := round_to binary64 q.

(** The cast of a number to the format [F]. *)
Definition cast_to (F : float_format) (x : spec_float) : spec_float :=
  match x with
  | S754_finite s m e =>
      binary_normalize (prec F) (emax F) (cond_Zopp s (Zpos m)) e s
  | _ => x
  end.

Definition promote_types (F G : float_format) : float_format :=
  match F, G with
  | binary64, _ | _, binary64 => binary64
  | binary32, _ | _, binary32 => binary32
  | binary16, binary16 => binary16
  end.

(** The element types of numpy that onnx uses for tensors. *)
Inductive np_dtype : Type :=
  | np_bool
  | np_int (signed : bool) (bits : Z)
  | np_float (F : float_format)
  | np_complex (F : float_format)
  | np_object.

(** [onnx.mapping.TENSOR_TYPE_TO_NP_TYPE], a dictionary with the keys
    [FLOAT = 1] to [COMPLEX128 = 15]. *)
Definition TENSOR_TYPE_TO_NP_TYPE (data_type : Z) : option np_dtype :=
  match data_type with
  | 1 => Some (np_float binary32)
  | 2 => Some (np_int false 8)
  | 3 => Some (np_int true 8)
  | 4 => Some (np_int false 16)
  | 5 => Some (np_int true 16)
  | 6 => Some (np_int true 32)
  | 7 => Some (np_int true 64)
  | 8 => Some np_object
  | 9 => Some np_bool
  | 10 => Some (np_float binary16)
  | 11 => Some (np_float binary64)
  | 12 => Some (np_int false 32)
  | 13 => Some (np_int false 64)
  | 14 => Some (np_complex binary32)
  | 15 => Some (np_complex binary64)
  | _ => None
  end%Z.

(** A numpy array: its element type, its shape and its elements in
    row-major order.  An element is the number that the tensor holds, kept
    in the element type when it is read (see [element]); the elements of a
    complex array are real, and those of an array of strings are not looked
    at. *)
Record ndarray : Type := mkArray {
  dtype : np_dtype;
  shape : list Z;
  elems : list Q
}.

Definition size (a : ndarray) : Z := fold_right Z.mul 1%Z (shape a).

Definition NPY_MAX_INTP : Z := 2 ^ 63 - 1.

(** The product of the dimensions that are given, [None] when it overflows. *)
Fixpoint known_size (newshape : list Z) (s_known : Z) : option Z :=
  match newshape with
  | [] => Some s_known
  | d :: newshape' =>
      if (d <? 0)%Z then known_size newshape' s_known
      else if (NPY_MAX_INTP <? s_known * d)%Z then None
      else known_size newshape' (s_known * d)%Z
  end.

(** The size in bytes of an element. *)
Definition itemsize (d : np_dtype) : Z :=
  match d with
  | np_bool => 1
  | np_int _ bits => bits / 8
  | np_float F => match F with binary16 => 2 | binary32 => 4 | binary64 => 8 end
  | np_complex F =>
      match F with binary16 => 4 | binary32 => 8 | binary64 => 16 end
  | np_object => 8
  end%Z.

(** numpy makes no array whose dimensions, the zeros passed over, multiply
    with the size of an element to more than [NPY_MAX_INTP]. *)
Fixpoint too_big (dims : list Z) (nbytes : Z) : bool :=
  match dims with
  | [] => false
  | d :: dims' =>
      if (d =? 0)%Z then too_big dims' nbytes
      else if (NPY_MAX_INTP <? nbytes * d)%Z then true
      else too_big dims' (nbytes * d)%Z
  end.

(** [ndarray.reshape] of an array of [s_original] elements of type [d]: one
    dimension may be left to numpy, with a negative number. *)
Definition reshape (d : np_dtype) (s_original : Z) (newshape : list Z) :
    Res (list Z) :=
  let checked dims :=
    if too_big dims (itemsize d) then Raise ValueError else Ok dims in
  match List.filter (fun n => (n <? 0)%Z) newshape, known_size newshape 1 with
  | _ :: _ :: _, _ | _, None => Raise ValueError
  | [_], Some s_known =>
      if (s_known =? 0)%Z || negb (s_original mod s_known =? 0)%Z
      then Raise ValueError
      else checked (List.map (fun n => if (n <? 0)%Z
                                       then (s_original / s_known)%Z
                                       else n) newshape)
  | [], Some s_known =>
      if (s_original =? s_known)%Z then checked newshape
      else Raise ValueError
  end.

(** [numpy_helper.to_array] of the onnx package: a tensor of undefined
    element type is refused, an element type that is no key of the table
    is a [KeyError], and the data are reshaped to [tensor.dims]. *)
Definition to_array (t : TensorProto) : Res ndarray :=
  if (t_data_type t =? 0)%Z then Raise TypeError
  else
    match TENSOR_TYPE_TO_NP_TYPE (t_data_type t) with
    | None => Raise KeyError
    | Some np_dtype =>
        res_bind (reshape np_dtype (Z.of_nat (length (t_data t))) (t_dims t))
                 (fun dims => Ok (mkArray np_dtype dims (t_data t)))
    end.

Definition attr_name {G} (a : Attr G) : string :=
  match a with
  | AttrGraph s _ | AttrGraphs s _ | AttrTensor s _ | AttrInt s _ => s
  end.

(** [att.t]: the default, empty tensor when the attribute holds no tensor. *)
Definition attr_t {G} (a : Attr G) : TensorProto :=
  match a with
  | AttrTensor _ t => t
  | _ => mkTensor EmptyString 0%Z [] []
  end.

Fixpoint constant_scan (constants : list NodeProto) (output_name : string) :
    Res (option ndarray) :=
  match constants with
  | [] => Ok None
  | node :: constants' =>
      res_bind (py_getitem (output node) 0%Z) (fun out0 =>
      if bool_decide (out0 = output_name) then
        match List.find (fun att => bool_decide (attr_name att = "value"%string))
                        (attribute node) with
        | Some att => res_bind (to_array (attr_t att)) (fun v => Ok (Some v))
        | None => constant_scan constants' output_name
        end
      else constant_scan constants' output_name)
  end.

Definition get_constant_value (output_name : string) : M (option ndarray) :=
  let! constants := get_nodes_by_op_type "Constant" in
  let! found := lift (constant_scan constants output_name) in
  match found with
  | Some v => ret (Some v)
  | None =>
      let! initializer := get_initializer output_name in
      match initializer with
      | Some t => let! v := lift (to_array t) in ret (Some v)
      | None => ret None
      end
  end.

Fixpoint get_constant_input_from (i : nat) (inputs : list string) :
    M (option nat * option ndarray) :=
  match inputs with
  | [] => ret (None, None)
  | input :: inputs' =>
      let! value := get_constant_value input in
      match value with
      | Some v => ret (Some i, Some v)
      | None => get_constant_input_from (S i) inputs'
      end
  end.

Definition get_constant_input (node : NodeProto) :
    M (option nat * option ndarray) :=
  get_constant_input_from 0 (input node).

(** How numpy chooses the type of [array - scalar] and [array < scalar] for
    a Python scalar depends on the release: before NumPy 2 by the value of
    the scalar, from NumPy 2 on by the array alone. *)
Inductive promotion : Type := value_based | weak_scalar.

(** [numpy.min_scalar_type] of a Python float. *)
Definition min_scalar_type (value : float) : float_format :=
  let v := cast_to binary64 value in
  if SFltb (py_float (-65000)) v && SFltb v (py_float 65000) then binary16
  else if SFltb (py_float (-(34 * 10 ^ 37))) v &&
          SFltb v (py_float (34 * 10 ^ 37)) then binary32
  else binary64.

(** The format in which numpy computes with an array of [ndim] dimensions,
    whose elements have the format [F], and a Python float.  With the
    value-based rules an array of no dimension counts as a scalar, and the
    Python float brings binary64. *)
Definition result_type (np : promotion) (F : float_format) (ndim : nat)
    (scalar : float) : float_format :=
  match np with
  | weak_scalar => F
  | value_based =>
      match ndim with
      | O => binary64
      | S _ => promote_types F (min_scalar_type scalar)
      end
  end.

(** The format of the elements in arithmetic with a Python float: integers
    and booleans are converted to binary64, and strings have no
    subtraction. *)
Definition float_format_of (d : np_dtype) : option float_format :=
  match d with
  | np_float F | np_complex F => Some F
  | np_int _ _ | np_bool => Some binary64
  | np_object => None
  end.

Definition Qtruncate (q : Q) : Z := Z.quot (Qnum q) (Zpos (Qden q)).

Definition wrap (signed : bool) (bits : Z) (z : Z) : Z :=
  if signed then ((z + 2 ^ (bits - 1)) mod 2 ^ bits - 2 ^ (bits - 1))%Z
  else (z mod 2 ^ bits)%Z.

(** The element [q] of an array of type [d], cast to the format [G]. *)
Definition element (d : np_dtype) (G : float_format) (q : Q) : spec_float :=
  match d with
  | np_float F | np_complex F => cast_to G (round_to F q)
  | np_int signed bits =>
      binary_normalize (prec G) (emax G) (wrap signed bits (Qtruncate q)) 0
                       false
  | np_bool =>
      binary_normalize (prec G) (emax G) (if Qeq_bool q 0 then 0 else 1)%Z 0
                       false
  | np_object => S754_nan
  end.

(** [value.size == 1 and abs(value - expected_value) < delta]: the
    difference is rounded in the format of the subtraction, and compared
    in the format of the comparison. *)
Definition close_to (np : promotion) (value : ndarray)
    (expected_value delta : float) : Res bool :=
  if negb (size value =? 1)%Z then Ok false
  else
    match float_format_of (dtype value), elems value with
    | None, _ => Raise TypeError
    | Some F, [x] =>
        let ndim := length (shape value) in
        let G := result_type np F ndim expected_value in
        let difference :=
          SFsub (prec G) (emax G) (element (dtype value) G x)
                (cast_to G expected_value) in
        let H := result_type np G ndim delta in
        Ok (SFltb (cast_to H (SFabs difference)) (cast_to H delta))
    | Some _, _ => Ok false
    end.

Definition default_delta : float := py_float (1 # 1000000).

Definition find_constant_input (np : promotion) (node : NodeProto)
    (expected_value : float) (delta : float) : M Z :=
  let! found := get_constant_input node in
  match found with
  | (Some i, Some v) =>
      let! near := lift (close_to np v expected_value delta) in
      if near then ret (Z.of_nat i) else ret (-1)%Z
  | _ => ret (-1)%Z
  end.

Definition has_constant_input (np : promotion) (node : NodeProto)
    (expected_value : float) (delta : float) : M bool :=
  let! i := find_constant_input np node expected_value delta in
  ret (0 <=? i)%Z.

(** ** Naming service *)

Local Open Scope string_scope.

Fixpoint startswith (s prefix : string) : bool :=
  match prefix, s with
  | EmptyString, _ => true
  | String a prefix', String b s' => Ascii.eqb a b && startswith s' prefix'
  | String _ _, EmptyString => false
  end.

Fixpoint endswith_char (s : string) (c : ascii) : bool :=
  match s with
  | EmptyString => false
  | String a EmptyString => Ascii.eqb a c
  | String _ s' => endswith_char s' c
  end.

(** [s[n:]] *)
Fixpoint str_drop (n : nat) (s : string) : string :=
  match n, s with
  | 0, _ => s
  | S n', String _ s' => str_drop n' s'
  | S _, EmptyString => EmptyString
  end.

(** [str(z)] for an integer. *)
Definition py_str (z : Z) : string := NilZero.string_of_int (Z.to_int z).

(** [int(s)], [None] standing for [ValueError]: blanks around the number are
    dropped, a sign may come first, and single underscores may separate
    digits.  Names are read as ASCII. *)
Definition is_space (c : ascii) : bool :=
  let n := nat_of_ascii c in
  ((9 <=? n)%nat && (n <=? 13)%nat) || ((28 <=? n)%nat && (n <=? 32)%nat).

Definition is_digit (c : ascii) : bool :=
  let n := nat_of_ascii c in (48 <=? n)%nat && (n <=? 57)%nat.

Fixpoint lstrip (s : string) : string :=
  match s with
  | EmptyString => EmptyString
  | String c s' => if is_space c then lstrip s' else s
  end.

Fixpoint rstrip (s : string) : string :=
  match s with
  | EmptyString => EmptyString
  | String c s' =>
      match rstrip s' with
      | EmptyString => if is_space c then EmptyString else String c EmptyString
      | r => String c r
      end
  end.

Fixpoint drop_underscores (after_digit : bool) (s : string) : option string :=
  match s with
  | EmptyString => if after_digit then Some EmptyString else None
  | String c s' =>
      if Ascii.eqb c "_" then
        if after_digit then drop_underscores false s' else None
      else option_map (String c) (drop_underscores (is_digit c) s')
  end.

Definition py_digits (s : string) : option Decimal.uint :=
  match drop_underscores false s with
  | Some s' => NilZero.uint_of_string s'
  | None => None
  end.

Definition py_int (s : string) : option Z :=
  match rstrip (lstrip s) with
  | EmptyString => None
  | String c r =>
      if Ascii.eqb c "+" then
        option_map (fun d => Z.of_int (Decimal.Pos d)) (py_digits r)
      else if Ascii.eqb c "-" then
        option_map (fun d => Z.of_int (Decimal.Neg d)) (py_digits r)
      else
        option_map (fun d => Z.of_int (Decimal.Pos d)) (py_digits (String c r))
  end.

Definition node_prefix (op : string) (name_prefix : option string) : string :=
  match name_prefix with
  | Some (String c p) =>
      if endswith_char (String c p) "_" then String c p
      else String c p +:+ "_"
  | _ => op +:+ "_"
  end.

(** One turn of the scan of the existing names. *)
Definition next_suffix (prefix : string) (suffix : Z) (node : NodeProto) : Z :=
  match name node with
  | EmptyString => suffix
  | String _ _ =>
      if startswith (name node) prefix then
        match py_int (str_drop (String.length prefix) (name node)) with
        | Some index => Z.max (index + 1) suffix
        | None => suffix
        end
      else suffix
  end.

Definition create_node_name (op : string) (name_prefix : option string) :
    M string :=
  let prefix := node_prefix op name_prefix in
  let! st := get in
  let! suffix :=
    match _node_name_suffix st !! prefix with
    | Some last => ret (last + 1)%Z
    | None =>
        let! ns := nodes in
        ret (fold_left (next_suffix prefix) ns 0%Z)
    end in
  do! modify (fun st =>
        set_node_name_suffix (<[prefix := suffix]> (_node_name_suffix st)) st) in
  ret (prefix +:+ py_str suffix).

Local Close Scope string_scope.

(** ** Graph maintenance *)

Definition find_graph_input (input_name : string) : M (option ValueInfoProto) :=
  let! st := get in
  ret (List.find (fun input => bool_decide (vi_name input = input_name))
                 (g_input (model_graph st))).

Definition find_graph_output (output_name : string) :
    M (option ValueInfoProto) :=
  let! st := get in
  ret (List.find (fun output => bool_decide (vi_name output = output_name))
                 (g_output (model_graph st))).

(** [for x in to_remove: l.remove(x)] *)
Definition remove_each {A} `{EqDecision A} (to_remove l : list A) : list A :=
  fold_left (fun l x => list_remove_first (fun y => bool_decide (y = x)) l)
            to_remove l.

Fixpoint unused_constants (d : gmap string (list NodeProto))
    (ns : list NodeProto) : Res (list NodeProto) :=
  match ns with
  | [] => Ok []
  | node :: ns' =>
      res_bind
        (if bool_decide (op_type node = "Constant"%string) then
           res_bind (py_getitem (output node) 0%Z) (fun out0 =>
             Ok (negb (py_dict_in out0 d)))
         else Ok false) (fun unused =>
      res_bind (unused_constants d ns') (fun rest =>
      Ok (if unused then node :: rest else rest)))
  end.

Definition remove_unused_constant : M unit :=
  let! d := input_name_to_nodes in
  let! ns := nodes in
  let! unused_nodes := lift (unused_constants d ns) in
  remove_nodes unused_nodes.

Definition control_flow_ops : list string :=
  ["Loop"; "Scan"; "If"]%string.

Definition is_control_flow (node : NodeProto) : bool :=
  str_in (op_type node) control_flow_ops.

(** The scan of [update_graph]: [None] when a control-flow node makes the
    method return, the names collected otherwise. *)
Fixpoint remaining_inputs (ns : list NodeProto)
    (remaining_input_names : list string) : option (list string) :=
  match ns with
  | [] => Some remaining_input_names
  | node :: ns' =>
      if is_control_flow node then None
      else if negb (bool_decide (op_type node = "Constant"%string)) then
        remaining_inputs ns'
          (fold_left (fun acc input_name =>
                        if str_in input_name acc then acc
                        else acc ++ [input_name])
                     (input node) remaining_input_names)
      else remaining_inputs ns' remaining_input_names
  end.

Definition update_graph : M unit :=
  let! st := get in
  match remaining_inputs (g_node (model_graph st)) [] with
  | None => ret tt
  | Some remaining_input_names =>
      let inputs_to_remove :=
        List.filter (fun input => negb (str_in (vi_name input)
                                               remaining_input_names))
                    (g_input (model_graph st)) in
      do! modify (fun st =>
            set_model_graph
              (set_input (remove_each inputs_to_remove
                            (g_input (model_graph st))) (model_graph st)) st) in
      let! st := get in
      let weights_to_remove :=
        List.filter (fun initializer =>
            negb (str_in (t_name initializer) remaining_input_names)
            && negb (existsb (fun output =>
                   bool_decide (vi_name output = t_name initializer))
                   (g_output (model_graph st))))
          (g_initializer (model_graph st)) in
      do! modify (fun st =>
            set_model_graph
              (set_initializer (remove_each weights_to_remove
                                  (g_initializer (model_graph st)))
                               (model_graph st)) st) in
      remove_unused_constant
  end.

(** The loop over the [outputs] to keep, in [prune_graph]. *)
Fixpoint collect_kept (fuel : nat) (d : gmap string NodeProto)
    (outputs : list string) (all_nodes : list NodeProto) :
    M (list NodeProto) :=
  match outputs with
  | [] => ret all_nodes
  | output :: outputs' =>
      match d !! output with
      | Some last_node =>
          if node_in last_node all_nodes then
            collect_kept fuel d outputs' all_nodes
          else
            let! ns := get_parent_subgraph_nodes fuel last_node [] None in
            collect_kept fuel d outputs' (all_nodes ++ [last_node] ++ ns)
      | None => collect_kept fuel d outputs' all_nodes
      end
  end.

Definition prune_graph (fuel : nat) (outputs_arg : option (list string)) :
    M unit :=
  let! st := get in
  if existsb is_control_flow (g_node (model_graph st)) then ret tt
  else
    let outputs :=
      match outputs_arg with
      | Some l => l
      | None => List.map vi_name (g_output (model_graph st))
      end in
    let! d := output_name_to_node in
    let! all_nodes := collect_kept fuel d outputs [] in
    let! st := get in
    let nodes_to_remove :=
      List.filter (fun node => negb (node_in node all_nodes))
                  (g_node (model_graph st)) in
    do! remove_nodes nodes_to_remove in
    let! st := get in
    let output_to_remove :=
      List.filter (fun output => negb (str_in (vi_name output) outputs))
                  (g_output (model_graph st)) in
    do! modify (fun st =>
          set_model_graph
            (set_output (remove_each output_to_remove
                           (g_output (model_graph st))) (model_graph st)) st) in
    let! d_in := input_name_to_nodes in
    let! st := get in
    let input_to_remove :=
      List.filter (fun input => negb (py_dict_in (vi_name input) d_in))
                  (g_input (model_graph st)) in
    do! modify (fun st =>
          set_model_graph
            (set_input (remove_each input_to_remove
                          (g_input (model_graph st))) (model_graph st)) st) in
    update_graph.

Definition is_safe_to_fuse_nodes (nodes_to_remove : list NodeProto)
    (keep_outputs : list string) (d_in : gmap string (list NodeProto)) : bool :=
  forallb (fun node_to_remove =>
    forallb (fun output_to_remove =>
      str_in output_to_remove keep_outputs
      || forallb (fun impacted_node => node_in impacted_node nodes_to_remove)
                 (default [] (d_in !! output_to_remove)))
      (output node_to_remove)) nodes_to_remove.

(** *** Topological order *)

(** The state of [graph_topological_sort]: [deps_count], [deps_to_nodes]
    and [sorted_nodes]. *)
Record sort_state : Type := mkSort {
  deps_count : list Z;
  deps_to_nodes : gmap string (list nat);
  sorted_nodes : list NodeProto
}.

(** [sum(1 for _ in node.input if _)] *)
Definition count_inputs (node : NodeProto) : Z :=
  Z.of_nat (length (List.filter (fun s => negb (bool_decide (s = EmptyString)))
                                (input node))).

Definition register (node_idx : nat) (d : gmap string (list nat))
    (input_name : string) : gmap string (list nat) :=
  match d !! input_name with
  | None => <[input_name := [node_idx]]> d
  | Some l => <[input_name := l ++ [node_idx]]> d
  end.

(** The first loop, from the node of index [node_idx] on. *)
Fixpoint sort_init (node_idx : nat) (ns : list NodeProto) (s : sort_state) :
    sort_state :=
  match ns with
  | [] => s
  | node :: ns' =>
      let c := count_inputs node in
      let counts := <[node_idx := c]> (deps_count s) in
      if (c =? 0)%Z then
        sort_init (S node_idx) ns'
          (mkSort counts (deps_to_nodes s) (sorted_nodes s ++ [node]))
      else
        sort_init (S node_idx) ns'
          (mkSort counts
                  (fold_left (register node_idx) (input node) (deps_to_nodes s))
                  (sorted_nodes s))
  end.

(** [for node_idx in deps_to_nodes[name]]: one dependency less, and the node
    is sorted when none is left. *)
Definition release (graph_node : list NodeProto) (name : string)
    (s : sort_state) : sort_state :=
  fold_left (fun s node_idx =>
    let c := (default 0%Z (deps_count s !! node_idx) - 1)%Z in
    mkSort (<[node_idx := c]> (deps_count s)) (deps_to_nodes s)
           (if (c =? 0)%Z then sorted_nodes s ++ option_list (graph_node !! node_idx)
            else sorted_nodes s))
    (default [] (deps_to_nodes s !! name)) s.

(** [input_names.sort()] *)
Fixpoint insert_sorted (x : string) (l : list string) : list string :=
  match l with
  | [] => [x]
  | y :: l' => if String.leb x y then x :: l else y :: insert_sorted x l'
  end.

Definition sort_names (l : list string) : list string :=
  fold_right insert_sorted [] l.

(** The second loop; [prev_input_name] starts as [None]. *)
Fixpoint sort_inputs (graph_node : list NodeProto) (input_names : list string)
    (prev_input_name : option string) (s : sort_state) : sort_state :=
  match input_names with
  | [] => s
  | input_name :: input_names' =>
      if bool_decide (prev_input_name = Some input_name) then
        sort_inputs graph_node input_names' prev_input_name s
      else
        sort_inputs graph_node input_names' (Some input_name)
                    (release graph_node input_name s)
  end.

(** The [while start < end] loop; [end] is the length of [sorted_nodes]
    throughout. *)
Fixpoint sort_drain (fuel : nat) (graph_node : list NodeProto) (start : nat)
    (s : sort_state) : Res sort_state :=
  match sorted_nodes s !! start with
  | None => Ok s
  | Some node =>
      match fuel with
      | 0 => OutOfFuel
      | S fuel' =>
          sort_drain fuel' graph_node (S start)
            (fold_left (fun s output => release graph_node output s)
                       (output node) s)
      end
  end.

(** The result is the graph after the call. *)
Definition graph_topological_sort (g : GraphProto) : Res GraphProto :=
  let n := length (g_node g) in
  let s0 := sort_init 0 (g_node g) (mkSort (replicate n 0%Z) ∅ []) in
  let input_names :=
    sort_names (List.map t_name (g_initializer g) ++
                List.map vi_name (g_input g)) in
  let s1 := sort_inputs (g_node g) input_names None s0 in
  res_bind (sort_drain (S n) (g_node g) 0 s1) (fun s2 =>
  res_bind (py_assert (bool_decide (length (sorted_nodes s2) = n))) (fun _ =>
  Ok (set_node (sorted_nodes s2) g))).

Definition topological_sort : M unit :=
  let! st := get in
  let! g := lift (graph_topological_sort (model_graph st)) in
  modify (set_model_graph g).

(** Every node comes after the nodes that produce its inputs. *)
Definition producers_first (ns : list NodeProto) : Prop :=
  forall (i j : nat) (consumer producer : NodeProto) (x : string),
    ns !! i = Some consumer -> ns !! j = Some producer ->
    x ∈ input consumer -> x ∈ output producer -> j < i.

(** ** What the methods read

    The only thing a query changes is [self.all_graphs], filled by the first
    call of [graphs]. *)

Definition graphs_of (st : OnnxModel) : list nat :=
  match all_graphs st with
  | Some gs => gs
  | None => discover (model_graph st)
  end.

Definition cached (st : OnnxModel) : OnnxModel :=
  set_all_graphs (Some (graphs_of st)) st.

Definition nodes_of (st : OnnxModel) : list NodeProto :=
  flat_map (graph_node st) (graphs_of st).

(** [get_constant_value(name)] returns [r] in the state [st]. *)
Definition resolves_to (st : OnnxModel) (name : string)
    (r : option ndarray) : Prop :=
  exists st', get_constant_value name st = Ok (r, st').

(** Input [i] of [node] is a constant that is a single scalar within
    [delta] of [expected_value], by the test of [find_constant_input]. *)
Definition matching_input (np : promotion) (st : OnnxModel) (node : NodeProto)
    (expected_value delta : float) (i : nat) : Prop :=
  exists input_name v,
    input node !! i = Some input_name /\
    resolves_to st input_name (Some v) /\
    close_to np v expected_value delta = Ok true.

(** [find_constant_input] as a search among all the inputs: an index of a
    matching input whenever there is one, [-1] otherwise. *)
Definition finds_any_matching_input (np : promotion) (st : OnnxModel)
    (node : NodeProto) (expected_value delta : float) : Prop :=
  exists r st',
    find_constant_input np node expected_value delta st = Ok (r, st') /\
    ((exists i, matching_input np st node expected_value delta i) ->
     exists i, r = Z.of_nat i /\
               matching_input np st node expected_value delta i) /\
    ((forall i, ~ matching_input np st node expected_value delta i) ->
     r = (-1)%Z).

(** ** Stated properties of the mutation interface *)

(** [u] is the first discovered graph whose name is [s]: the graph a name
    stands for. *)
Definition first_named (st : OnnxModel) (s : string) (u : nat) : Prop :=
  exists before after,
    graphs_of st = before ++ u :: after /\
    (exists g, deref st u = Some g /\ g_name g = s) /\
    (forall v h, In v before -> deref st v = Some h -> g_name h <> s).

(** No discovered graph has the name [s]. *)
Definition not_named (st : OnnxModel) (s : string) : Prop :=
  forall v h, In v (graphs_of st) -> deref st v = Some h -> g_name h <> s.

(** [idx] is the position of the first node of [ns] one of whose inputs is
    among [outputs], and the length of [ns] when there is no such node. *)
Definition first_consumer_index (outputs : list string) (ns : list NodeProto)
    (idx : nat) : Prop :=
  idx <= length ns /\
  (forall j m x, j < idx -> ns !! j = Some m -> x ∈ input m -> x ∉ outputs) /\
  (idx < length ns ->
   exists m x, ns !! idx = Some m /\ x ∈ input m /\ x ∈ outputs).

(** No discovered graph holds a node equal to [n]. *)
Definition absent (st : OnnxModel) (n : NodeProto) : Prop :=
  forall u, In u (graphs_of st) -> node_in n (graph_node st u) = false.

(** ** Stated properties of path matching *)

(** One hop from [cur]: [p] is the parent that the hop is to match.  With an
    index, [p] produces the input of [cur] at that position and has the
    operator type asked for; without one, [p] is the first such producer
    among the inputs of [cur], from left to right. *)
Definition hop (d : gmap string NodeProto) (cur : NodeProto) (ty : string)
    (idx : option Z) (p : NodeProto) : Prop :=
  match idx with
  | Some i =>
      exists k x, i = Z.of_nat k /\ input cur !! k = Some x /\
                  d !! x = Some p /\ op_type p = ty
  | None =>
      exists k x, input cur !! k = Some x /\ d !! x = Some p /\
                  op_type p = ty /\
                  forall j y q, j < k -> input cur !! j = Some y ->
                                d !! y = Some q -> op_type q <> ty
  end.

(** A matched path: every hop matches, the subject of a hop being the
    parent matched by the hop before. *)
Inductive chain (d : gmap string NodeProto) :
    NodeProto -> list string -> list (option Z) -> list NodeProto -> Prop :=
  | chain_nil cur : chain d cur [] [] []
  | chain_cons cur ty tys i idxs p ps :
      hop d cur ty i p -> chain d p tys idxs ps ->
      chain d cur (ty :: tys) (i :: idxs) (p :: ps).

(** The path fails at some hop: the hops before it match, and from the node
    they lead to no parent matches the next one. *)
Inductive fails (d : gmap string NodeProto) :
    NodeProto -> list string -> list (option Z) -> Prop :=
  | fails_here cur ty tys i idxs :
      (forall p, ~ hop d cur ty i p) -> fails d cur (ty :: tys) (i :: idxs)
  | fails_later cur ty tys i idxs p :
      hop d cur ty i p -> fails d p tys idxs ->
      fails d cur (ty :: tys) (i :: idxs).

(** An index is a position, or [None]. *)
Definition is_position (i : option Z) : Prop :=
  match i with
  | Some z => (0 <= z)%Z
  | None => True
  end.

(** ** Stated properties of the naming service *)

Fixpoint digits_only (s : string) : bool :=
  match s with
  | EmptyString => true
  | String c s' => is_digit c && digits_only s'
  end.

(** The names of the nodes of the discovered graphs. *)
Definition node_names (st : OnnxModel) : list string :=
  List.map name (nodes_of st).

(** Two calls in a row return two names, distinct and both new to the
    graphs. *)
Definition mints_fresh_names (st : OnnxModel) (op : string)
    (name_prefix : option string) : Prop :=
  exists n1 st1 n2 st2,
    create_node_name op name_prefix st = Ok (n1, st1) /\
    create_node_name op name_prefix st1 = Ok (n2, st2) /\
    n1 <> n2 /\ ~ In n1 (node_names st) /\ ~ In n2 (node_names st).

(** The ledger is ahead of the graphs: when the prefix has an entry, no
    node is named by the prefix and a number above the entry. *)
Definition ledger_ahead (st : OnnxModel) (prefix : string) : Prop :=
  match _node_name_suffix st !! prefix with
  | None => True
  | Some last =>
      forall k, In (prefix +:+ py_str k) (node_names st) -> (k <= last)%Z
  end.

(** ** Stated properties of the traversals *)

(** The nodes a traversal is to collect: the seeds and what [next] leads to
    from them, stop nodes left out and not gone through. *)
Inductive reaches (next : NodeProto -> list NodeProto)
    (stop_nodes seeds : list NodeProto) : NodeProto -> Prop :=
  | reaches_seed x :
      In x seeds -> node_in x stop_nodes = false ->
      reaches next stop_nodes seeds x
  | reaches_step x y :
      reaches next stop_nodes seeds x -> In y (next x) ->
      node_in y stop_nodes = false ->
      reaches next stop_nodes seeds y.

(** The edges of [next] between the nodes of [universe] go down along
    [rank]: they form no cycle. *)
Definition descends (next : NodeProto -> list NodeProto)
    (universe : list NodeProto) (rank : NodeProto -> nat) : Prop :=
  forall x y, In x universe -> In y (next x) -> rank y < rank x.

(** The edges from a node to its consumers, and from a node to its
    producers, in the dictionaries computed from the model. *)
Definition acyclic_forward (st : OnnxModel) : Prop :=
  exists rank,
    descends (children_of (index_inputs (nodes_of st))) (nodes_of st) rank.

Definition acyclic_backward (st : OnnxModel) : Prop :=
  exists rank,
    descends (parents_of (index_outputs (nodes_of st))) (nodes_of st) rank.

(** A call returns: from some budget of fuel on, its loop comes to an end,
    with a result or with an exception. *)
Definition returns {A} (call : nat -> M A) (st : OnnxModel) : Prop :=
  exists fuel0, forall fuel, fuel0 <= fuel -> call fuel st <> OutOfFuel.

(** Measures for the loops. *)
Definition unvisited_weight (next : NodeProto -> list NodeProto)
    (universe unique_nodes : list NodeProto) : nat :=
  list_sum (List.map (fun y => if node_in y unique_nodes then 0
                               else S (length (next y))) universe).

Fixpoint walk_cost (next : NodeProto -> list NodeProto) (k : nat)
    (x : NodeProto) : nat :=
  match k with
  | 0 => 1
  | S k' => S (list_sum (List.map (walk_cost next k') (next x)))
  end.

(** The nodes held by a dictionary. *)
Definition dict_values (d : gmap string (list NodeProto)) : list NodeProto :=
  flat_map snd (map_to_list d).

Definition dict_nodes (d : gmap string NodeProto) : list NodeProto :=
  List.map snd (map_to_list d).

(** The model after a query with a dictionary argument: the dictionary is
    computed, and the cache filled, only when [None] is passed. *)
Definition after_query {A} (arg : option A) (st : OnnxModel) : OnnxModel :=
  match arg with
  | Some _ => st
  | None => cached st
  end.

(** ** Stated properties of removal *)

(** How many nodes of the graph [u] are equal to [n]. *)
Definition occurrences (n : NodeProto) (st : OnnxModel) (u : nat) : nat :=
  length (List.filter (node_eqb n) (graph_node st u)).

(** No discovered graph holds [n] more than once. *)
Definition held_once (st : OnnxModel) (n : NodeProto) : Prop :=
  forall u, In u (graphs_of st) -> occurrences n st u <= 1.

(** [remove_node(n)] followed by [get_graph_by_node(n)] returns [None]. *)
Definition removal_clears (st : OnnxModel) (n : NodeProto) : Prop :=
  exists st1 st2,
    remove_node n st = Ok (tt, st1) /\
    get_graph_by_node n st1 = Ok (None, st2).

(** The graphs that leave the model when the first node equal to [n] leaves
    the object [u], [l] being the stored objects. *)
Definition leaving (u : nat) (n : NodeProto) (l : list GraphProto) :
    list GraphProto :=
  flat_map (fun g =>
    if Nat.eqb (oid g) u then
      match List.find (node_eqb n) (g_node g) with
      | Some m => node_graphs m
      | None => []
      end
    else []) l.

(** ** Stated properties of the value-flow index *)

(** The nodes that read [k], in the order of the nodes, a node once for
    each of its inputs that is [k]. *)
Definition consumers_of (all_nodes : list NodeProto) (k : string) :
    list NodeProto :=
  flat_map (fun node =>
    flat_map (fun i => if bool_decide (i = k) then [node] else [])
             (input node)) all_nodes.

(** The last node that has [k] among its outputs. *)
Definition last_producer (all_nodes : list NodeProto) (k : string) :
    option NodeProto :=
  List.find (fun node => str_in k (output node)) (rev all_nodes).

(** A key is there for the lists that are not empty. *)
Definition nonempty_opt {A} (l : list A) : option (list A) :=
  match l with
  | [] => None
  | _ => Some l
  end.

(** Every value name is an output of one node, once. *)
Definition single_producer (all_nodes : list NodeProto) : Prop :=
  NoDup (flat_map output all_nodes).

(** A path that [match_parent_paths] can take: as many indices as types,
    each a position or [None]. *)
Definition path_ok (path : list string * list (option Z)) : Prop :=
  length (snd path) = length (fst path) /\ Forall is_position (snd path).

(** The path has no hop, or fails from [node]. *)
Definition no_match (d : gmap string NodeProto) (node : NodeProto)
    (path : list string * list (option Z)) : Prop :=
  fst path = [] \/ fails d node (fst path) (snd path).

(** The test of the searches by operator type. *)
Definition has_type (ty : string) (node : NodeProto) : bool :=
  bool_decide (op_type node = ty).

(** ** Further methods *)

(** [node_name_to_graph_name[node.name]] of a name that is no key raises;
    a value is a graph name, or [None]. *)
Definition add_nodes (nodes_to_add : list NodeProto)
    (node_name_to_graph_name : option (gmap string (option string))) :
    M unit :=
  match node_name_to_graph_name with
  | None =>
      modify (fun st =>
        set_model_graph
          (set_node (g_node (model_graph st) ++ nodes_to_add) (model_graph st))
          st)
  | Some d =>
      for_each nodes_to_add (fun node =>
        let! graph_name := lift (py_dict_get d (name node)) in
        add_node node graph_name)
  end.

(** The static method [input_index]; [index] counts the inputs passed. *)
Fixpoint input_index_from (index : Z) (node_output : string)
    (inputs : list string) : Z :=
  match inputs with
  | [] => (-1)%Z
  | input :: inputs' =>
      if bool_decide (input = node_output) then index
      else input_index_from (index + 1)%Z node_output inputs'
  end.

Definition input_index (node_output : string) (child_node : NodeProto) : Z :=
  input_index_from 0%Z node_output (input child_node).

(** The loop [for input in node.input] of [get_graph_inputs]; a message
    that is found is truthy. *)
Fixpoint graph_inputs_of (inputs : list string) (graph_inputs : list string) :
    M (list string) :=
  match inputs with
  | [] => ret graph_inputs
  | input :: inputs' =>
      let! found := find_graph_input input in
      match found with
      | Some _ =>
          if negb (str_in input graph_inputs)
          then graph_inputs_of inputs' (graph_inputs ++ [input])
          else graph_inputs_of inputs' graph_inputs
      | None => graph_inputs_of inputs' graph_inputs
      end
  end.

Fixpoint graph_inputs_of_nodes (parent_nodes : list NodeProto)
    (graph_inputs : list string) : M (list string) :=
  match parent_nodes with
  | [] => ret graph_inputs
  | node :: parent_nodes' =>
      let! graph_inputs' := graph_inputs_of (input node) graph_inputs in
      graph_inputs_of_nodes parent_nodes' graph_inputs'
  end.

Definition get_graph_inputs (fuel : nat) (current_node : NodeProto)
    (recursive : bool) : M (list string) :=
  let! graph_inputs := graph_inputs_of (input current_node) [] in
  if recursive then
    let! parent_nodes := get_parent_subgraph_nodes fuel current_node [] None in
    graph_inputs_of_nodes parent_nodes graph_inputs
  else ret graph_inputs.

Fixpoint excluding_initializers (inputs : list ValueInfoProto)
    (graph_inputs : list ValueInfoProto) : M (list ValueInfoProto) :=
  match inputs with
  | [] => ret graph_inputs
  | input :: inputs' =>
      let! initializer := get_initializer (vi_name input) in
      match initializer with
      | None => excluding_initializers inputs' (graph_inputs ++ [input])
      | Some _ => excluding_initializers inputs' graph_inputs
      end
  end.

Definition get_graph_inputs_excluding_initializers :
    M (list ValueInfoProto) :=
  let! st := get in
  excluding_initializers (g_input (model_graph st)) [].

(** ** Stated properties of constant resolution *)

(** The tensor of the attribute [value] of a node, the first one of that
    name, when there is one. *)
Definition value_of (node : NodeProto) : option TensorProto :=
  option_map attr_t
    (List.find (fun att => bool_decide (attr_name att = "value"%string))
               (attribute node)).

(** The [Constant] nodes, and the initializers, of the discovered graphs. *)
Definition constants_of (st : OnnxModel) : list NodeProto :=
  List.filter (fun node => bool_decide (op_type node = "Constant"%string))
              (nodes_of st).

Definition initializers_of (st : OnnxModel) : list TensorProto :=
  flat_map (fun u => match deref st u with
                     | Some g => g_initializer g
                     | None => []
                     end) (graphs_of st).

(** A [Constant] node that the scan for [output_name] passes: it has a
    first output, which is another name, or it has no [value]. *)
Definition passed_over (output_name : string) (node : NodeProto) : Prop :=
  exists o, output node !! 0 = Some o /\
            (o <> output_name \/ value_of node = None).

(** ** Stated properties of a naming session *)

(** A session from the state [st]: calls of [create_node_name], which
    return the [names], with any change of the graphs in between; nothing
    but [create_node_name] writes the ledger. *)
Inductive session (st : OnnxModel) : list string -> OnnxModel -> Prop :=
  | session_start : session st [] st
  | session_mint names st1 op name_prefix new_name st2 :
      session st names st1 ->
      create_node_name op name_prefix st1 = Ok (new_name, st2) ->
      session st (names ++ [new_name]) st2
  | session_edit names st1 st2 :
      session st names st1 ->
      _node_name_suffix st2 = _node_name_suffix st1 ->
      session st names st2.

Fixpoint underscore_free (s : string) : bool :=
  match s with
  | EmptyString => true
  | String c s' => negb (Ascii.eqb c "_"%char) && underscore_free s'
  end.

(** ** Stated properties of graph maintenance *)

(** A name that a node of the graph other than a [Constant] reads. *)
Definition read_in (g : GraphProto) (x : string) : bool :=
  existsb (fun node =>
             negb (bool_decide (op_type node = "Constant"%string))
             && str_in x (input node)) (g_node g).

(** An initializer that is also an output of the graph. *)
Definition is_graph_output (g : GraphProto) (w : TensorProto) : bool :=
  existsb (fun output => bool_decide (vi_name output = t_name w)) (g_output g).

(** What the removal of nodes leaves alone in a graph. *)
Definition frame (g : GraphProto) :
    list ValueInfoProto * list ValueInfoProto * list TensorProto :=
  (g_input g, g_output g, g_initializer g).

(** [x] is the name of an input of the primary graph. *)
Definition is_graph_input (st : OnnxModel) (x : string) : Prop :=
  exists vi, In vi (g_input (model_graph st)) /\ vi_name vi = x.

(** ** Stated properties of the topological sort *)

(** [idxs] are the positions in [graph.node] of the nodes sorted so far. *)
Definition sorted_at (graph_node : list NodeProto) (idxs : list nat)
    (s : sort_state) : Prop :=
  Forall2 (fun i x => graph_node !! i = Some x) idxs (sorted_nodes s).

(** What the loops of the sort keep, [k] being the number of nodes that the
    first loop has gone through: a node is sorted once, and it is when its
    count has come down to zero, or below. *)
Definition sort_inv (graph_node : list NodeProto) (k : nat)
    (s : sort_state) : Prop :=
  length (deps_count s) = length graph_node /\
  exists idxs,
    sorted_at graph_node idxs s /\ NoDup idxs /\
    (forall i, i ∈ idxs -> i < k) /\
    forall i c, i < k -> deps_count s !! i = Some c ->
                ((c <= 0)%Z <-> i ∈ idxs).

(** *** The order of the sorted nodes

    One turn of the loop [for node_idx in deps_to_nodes[name]]. *)
Definition release_one (graph_node : list NodeProto) (s : sort_state)
    (node_idx : nat) : sort_state :=
  let c := (default 0%Z (deps_count s !! node_idx) - 1)%Z in
  mkSort (<[node_idx := c]> (deps_count s)) (deps_to_nodes s)
         (if (c =? 0)%Z then sorted_nodes s ++ option_list (graph_node !! node_idx)
          else sorted_nodes s).

(** The names that the second loop releases: a name equal to the one
    before it is passed. *)
Fixpoint skip_repeats (prev_input_name : option string)
    (input_names : list string) : list string :=
  match input_names with
  | [] => []
  | input_name :: input_names' =>
      if bool_decide (prev_input_name = Some input_name)
      then skip_repeats prev_input_name input_names'
      else input_name :: skip_repeats (Some input_name) input_names'
  end.

(** How many inputs of a node are the name [x]; how many are none of the
    names of [released]; how often [i] is in a list of positions. *)
Definition reads (x : string) (node : NodeProto) : nat :=
  length (List.filter (fun y => bool_decide (y = x)) (input node)).

Definition unreleased (released : list string) (node : NodeProto) : nat :=
  length (List.filter (fun y => negb (str_in y released)) (input node)).

Definition occurs (i : nat) (l : list nat) : nat :=
  length (List.filter (Nat.eqb i) l).

(** The name [y] is there for a node sorted at position [a]: it is one of
    the names [ext] of the initializers and inputs of the graph, or an
    output of a node sorted before. *)
Definition available (graph_node : list NodeProto) (ext : list string)
    (idxs : list nat) (a : nat) (y : string) : Prop :=
  y ∈ ext \/
  exists p j m, p < a /\ idxs !! p = Some j /\ graph_node !! j = Some m /\
                y ∈ output m.

(** What the loops keep once the names [released] have been released, the
    positions [pending] being those the loop over the nodes that wait for a
    name has gone through: a count is the number of inputs still waited
    for, and every input of a sorted node was there for it. *)
Record order_inv (graph_node : list NodeProto) (ext : list string)
    (idxs : list nat) (released : list string) (pending : list nat)
    (s : sort_state) : Prop := {
  oi_length : length (deps_count s) = length graph_node;
  oi_sorted : sorted_at graph_node idxs s;
  oi_nodup : NoDup idxs;
  oi_deps : forall x i node,
    graph_node !! i = Some node ->
    occurs i (default [] (deps_to_nodes s !! x)) = reads x node;
  oi_count : forall i node c,
    graph_node !! i = Some node -> deps_count s !! i = Some c ->
    c = (Z.of_nat (unreleased released node) - Z.of_nat (occurs i pending))%Z;
  oi_zero : forall i c,
    i < length graph_node -> deps_count s !! i = Some c ->
    ((c <= 0)%Z <-> i ∈ idxs);
  oi_order : forall a i node y,
    idxs !! a = Some i -> graph_node !! i = Some node -> y ∈ input node ->
    available graph_node ext idxs a y
}.

(** Conditions on a graph: no node has an empty input name (an optional
    input left out), and no output of a node is the name of an initializer
    or of an input of the graph. *)
Definition no_empty_input (graph_node : list NodeProto) : Prop :=
  forall node, In node graph_node -> EmptyString ∉ input node.

Definition graph_names (g : GraphProto) : list string :=
  List.map t_name (g_initializer g) ++ List.map vi_name (g_input g).

Definition outputs_fresh (g : GraphProto) : Prop :=
  forall x, x ∈ flat_map output (g_node g) -> x ∉ graph_names g.

(** A list of names in ascending order. *)
Fixpoint ascending (l : list string) : Prop :=
  match l with
  | [] => True
  | x :: l' => Forall (fun y => String.leb x y = true) l' /\ ascending l'
  end.

(** Every input of a node is the name of an initializer or of an input of
    the graph, or an output of a node of the graph. *)
Definition inputs_resolve (g : GraphProto) : Prop :=
  forall node y, In node (g_node g) -> y ∈ input node ->
    y ∈ graph_names g \/ exists m, In m (g_node g) /\ y ∈ output m.

(** The nodes go up along [rank] from producer to consumer: no cycle. *)
Definition ranked (graph_node : list NodeProto) (rank : NodeProto -> nat) :
    Prop :=
  forall consumer producer y,
    In consumer graph_node -> In producer graph_node ->
    y ∈ input consumer -> y ∈ output producer ->
    rank producer < rank consumer.

(** The ledger is ahead of the graphs for every prefix, and its keys are
    prefixes: what a session keeps when every node it adds bears a name
    that [create_node_name] has just returned. *)
Definition tidy (st : OnnxModel) : Prop :=
  forall prefix last,
    _node_name_suffix st !! prefix = Some last ->
    endswith_char prefix "_"%char = true /\
    forall k, In (prefix +:+ py_str k) (node_names st) -> (k <= last)%Z.

(** * Sample models *)

Local Open Scope string_scope.

(** A model whose primary graph holds an [If] node with a [then_branch]. *)
Definition then_branch : GraphProto :=
  mkGraph 1 "then_branch" [mkNode "relu_1" "Relu" ["x"] ["t"] []] []
          [mkValueInfo "t" 1%Z] [].

Definition if_node : NodeProto :=
  mkNode "if_0" "If" ["cond"] ["y"] [AttrGraph "then_branch" then_branch].

Definition branching_graph : GraphProto :=
  mkGraph 0 "main"
    [mkNode "neg_0" "Neg" ["x"] ["unused"] []; if_node]
    [mkValueInfo "x" 1%Z; mkValueInfo "cond" 9%Z; mkValueInfo "spare" 1%Z]
    [mkValueInfo "y" 1%Z] [].

Definition branching_model : OnnxModel :=
  mkOnnxModel branching_graph [] None ∅.

(** A node to add: [relu_1] of [then_branch] reads its output. *)
Definition abs_node : NodeProto :=
  mkNode "abs_0" "Abs" ["x0"] ["x"] [].

(** A recurrent model: the [LSTM] node leaves out its first output, the
    [Clip] node leaves out its [min] input. *)
Definition lstm_node : NodeProto :=
  mkNode "lstm_0" "LSTM" ["X"; "W"; "R"] [""; "h"] [].
Definition relu_node : NodeProto :=
  mkNode "relu_0" "Relu" ["h"] ["r"] [].
Definition clip_node : NodeProto :=
  mkNode "clip_0" "Clip" ["r"; ""; "mx"] ["y"] [].

Definition recurrent_graph : GraphProto :=
  mkGraph 0 "main" [lstm_node; relu_node; clip_node]
    [mkValueInfo "X" 1%Z] [mkValueInfo "y" 1%Z]
    [mkTensor "W" 1%Z [1%Z] [1%Q]; mkTensor "R" 1%Z [1%Z] [1%Q];
     mkTensor "mx" 1%Z [] [6%Q]].

Definition recurrent_model : OnnxModel :=
  mkOnnxModel recurrent_graph [] None ∅.

(** Constants: [lo] is 0.0, [hi] is 2.0; [Clip] reads both, [Mul] reads
    [hi] only. *)
Definition scalar (x : Q) : TensorProto := mkTensor "" 1%Z [] [x].

Definition constant_node (out : string) (x : Q) : NodeProto :=
  mkNode ("const_" +:+ out) "Constant" [] [out] [AttrTensor "value" (scalar x)].

Definition clip_lo_hi : NodeProto :=
  mkNode "clip_1" "Clip" ["x"; "lo"; "hi"] ["y"] [].

Definition mul_hi : NodeProto :=
  mkNode "mul_1" "Mul" ["x"; "hi"] ["z"] [].

Definition constants_graph : GraphProto :=
  mkGraph 0 "main"
    [constant_node "lo" 0; constant_node "hi" 2; clip_lo_hi; mul_hi]
    [mkValueInfo "x" 1%Z] [mkValueInfo "y" 1%Z; mkValueInfo "z" 1%Z] [].

Definition constants_model : OnnxModel :=
  mkOnnxModel constants_graph [] None ∅.

(** A session in which ["Add_0"] was minted, and a node named ["Add_1"]
    was then added under a name of the caller's own. *)
Definition add_graph : GraphProto :=
  mkGraph 0 "main"
    [mkNode "Add_0" "Add" ["a"; "b"] ["c"] [];
     mkNode "Add_1" "Add" ["c"; "b"] ["d"] []]
    [mkValueInfo "a" 1%Z; mkValueInfo "b" 1%Z] [mkValueInfo "d" 1%Z] [].

Definition fresh_session : OnnxModel :=
  mkOnnxModel add_graph [] None ∅.

Definition stale_session : OnnxModel :=
  mkOnnxModel add_graph [] (Some [0]) {["Add_" := 0%Z]}.

(** Two nodes that feed each other. *)
Definition ping_node : NodeProto := mkNode "ping" "Add" ["x"] ["y"] [].
Definition pong_node : NodeProto := mkNode "pong" "Mul" ["y"] ["x"] [].

Definition cyclic_model : OnnxModel :=
  mkOnnxModel (mkGraph 0 "main" [ping_node; pong_node] [] [] []) [] None ∅.

(** Ranks for the recurrent model, along its edges and against them. *)
Definition rank_down (n : NodeProto) : nat :=
  if bool_decide (name n = "lstm_0") then 2
  else if bool_decide (name n = "relu_0") then 1 else 0.

Definition rank_up (n : NodeProto) : nat := 2 - rank_down n.

(** A graph that holds the same node twice. *)
Definition twin_node : NodeProto := mkNode "" "Identity" ["x"] ["y"] [].

Definition twins_model : OnnxModel :=
  mkOnnxModel (mkGraph 0 "main" [twin_node; twin_node] [mkValueInfo "x" 1%Z]
                       [mkValueInfo "y" 1%Z] []) [] None ∅.

(** An [If] node whose branch holds an [If] node of the same name with an
    empty branch: once the inner node is removed, the outer one is equal
    to it. *)
Definition inner_if : NodeProto :=
  mkNode "if" "If" [] [] [AttrGraph "then_branch" (mkGraph 2 "b" [] [] [] [])].

Definition outer_if : NodeProto :=
  mkNode "if" "If" [] []
    [AttrGraph "then_branch" (mkGraph 1 "b" [inner_if] [] [] [])].

Definition nested_if_model : OnnxModel :=
  mkOnnxModel (mkGraph 0 "main" [outer_if] [] [] []) [] None ∅.

(** A value with two readers of the same type, joined again. *)
Definition split_node : NodeProto := mkNode "split_0" "Identity" ["x"] ["s"] [].
Definition relu_a : NodeProto := mkNode "relu_a" "Relu" ["s"] ["a"] [].
Definition relu_b : NodeProto := mkNode "relu_b" "Relu" ["s"] ["b"] [].
Definition join_node : NodeProto := mkNode "add_0" "Add" ["a"; "b"] ["y"] [].

Definition fanout_model : OnnxModel :=
  mkOnnxModel (mkGraph 0 "main" [split_node; relu_a; relu_b; join_node]
                       [mkValueInfo "x" 1%Z] [mkValueInfo "y" 1%Z] [])
              [] None ∅.

(** A name that is both the output of a [Constant] node, with value 2.0,
    and an initializer, with value 5.0. *)
Definition shadow_model : OnnxModel :=
  mkOnnxModel (mkGraph 0 "main"
                 [mkNode "neg_0" "Neg" ["x"] ["nx"] []; constant_node "k" 2;
                  mkNode "mul_0" "Mul" ["nx"; "k"] ["y"] []]
                 [mkValueInfo "x" 1%Z] [mkValueInfo "y" 1%Z]
                 [mkTensor "k" 1%Z [] [5%Q]])
              [] None ∅.

(** A graph with an input and an initializer that no node reads, and an
    initializer that is an output of the graph; and what [update_graph]
    makes of it. *)
Definition spare_model : OnnxModel :=
  mkOnnxModel (mkGraph 0 "main" [mkNode "relu_0" "Relu" ["x"] ["r"] []]
                 [mkValueInfo "x" 1%Z; mkValueInfo "spare" 1%Z]
                 [mkValueInfo "r" 1%Z; mkValueInfo "bias" 1%Z]
                 [mkTensor "unused" 1%Z [] [1%Q]; mkTensor "bias" 1%Z [] [3%Q]])
              [] None ∅.

Definition spare_model_updated : OnnxModel :=
  mkOnnxModel (mkGraph 0 "main" [mkNode "relu_0" "Relu" ["x"] ["r"] []]
                 [mkValueInfo "x" 1%Z]
                 [mkValueInfo "r" 1%Z; mkValueInfo "bias" 1%Z]
                 [mkTensor "bias" 1%Z [] [3%Q]])
              [] (Some [0]) ∅.

(** The nodes of the graph above out of order, with a weight added. *)
Definition scale_node : NodeProto :=
  mkNode "mul_0" "Mul" ["y"; "w"; "w"] ["z"] [].

Definition shuffled_graph : GraphProto :=
  mkGraph 0 "main" [scale_node; join_node; relu_b; split_node; relu_a]
          [mkValueInfo "x" 1%Z; mkValueInfo "w" 1%Z] [mkValueInfo "z" 1%Z]
          [mkTensor "w" 1%Z [] [2%Q]].

Definition ordered_graph : GraphProto :=
  mkGraph 0 "main" [split_node; relu_b; relu_a; join_node; scale_node]
          [mkValueInfo "x" 1%Z; mkValueInfo "w" 1%Z] [mkValueInfo "z" 1%Z]
          [mkTensor "w" 1%Z [] [2%Q]].

Definition rank_shuffled (n : NodeProto) : nat :=
  if bool_decide (name n = "split_0") then 0
  else if bool_decide (op_type n = "Relu") then 1
  else if bool_decide (name n = "add_0") then 2 else 3.

(** What [prune_graph] with [outputs = ["r"]] makes of [spare_model]. *)
Definition spare_model_pruned : OnnxModel :=
  mkOnnxModel (mkGraph 0 "main" [mkNode "relu_0" "Relu" ["x"] ["r"] []]
                 [mkValueInfo "x" 1%Z] [mkValueInfo "r" 1%Z] [])
              [] (Some [0]) ∅.

Local Close Scope string_scope.

(** * Properties *)

(** Induction on the nesting of graphs. *)
Lemma GraphProto_children_ind (P : GraphProto -> Prop) :
  (forall g, Forall P (children g) -> P g) -> forall g, P g.
Proof.
  intros IH. fix go 1. intros [u s ns i o w]. apply IH.
  unfold children; simpl.
  induction ns as [|n ns IHns]; simpl; [constructor|].
  apply Forall_app; split; [|exact IHns].
  destruct n as [? ? ? ? attrs]; unfold node_graphs; simpl.
  induction attrs as [|a attrs IHa]; simpl; [constructor|].
  apply Forall_app; split; [|exact IHa].
  destruct a as [? g|? gs|? ?|? ?]; simpl.
  - constructor; [apply go|constructor].
  - induction gs; constructor; [apply go|assumption].
  - constructor.
  - constructor.
Qed.


(** ** Graph maintenance *)

(** C3. [prune_graph] gives up before it changes anything when a node of the
    primary graph is a control-flow node ([Loop], [Scan] or [If], the
    operators that hold a nested graph): the call returns and the state of
    the model (nodes, graph inputs, graph outputs, initializers, and the
    caches too) is what it was.  Neither the outputs to keep nor the body
    of the control-flow node matter. *)
Theorem prune_graph_bails_out (fuel : nat) (outputs : option (list string))
    (st : OnnxModel) (node : NodeProto) :
  In node (g_node (model_graph st)) ->
  is_control_flow node = true ->
  prune_graph fuel outputs st = Ok (tt, st).
Proof.
  intros Hin Hcf. unfold prune_graph, bind, get.
  assert (H : existsb is_control_flow (g_node (model_graph st)) = true).
  { apply existsb_exists. exists node. split; assumption. }
  rewrite H. reflexivity.
Qed.

Lemma prune_graph_bails_out_witness :
  node_graphs if_node <> [] /\
  prune_graph 10 (Some ["y"%string]) branching_model = Ok (tt, branching_model).
Proof.
  split; [discriminate|].
  apply (prune_graph_bails_out 10 (Some ["y"%string]) branching_model if_node).
  - simpl. right. left. reflexivity.
  - reflexivity.
Defined.

Ltac split_elem_of H :=
  repeat match type of H with
         | _ ∈ _ :: _ => apply elem_of_cons in H; destruct H as [H|H]
         | _ ∈ [] => apply elem_of_nil in H; destruct H
         end.

(** C2. [topological_sort] on the recurrent model, whose nodes come in
    topological order: the call returns, and in the order it leaves behind
    the [Clip] node stands before the [Relu] node that produces its input
    [r].  The empty name of the input that [Clip] leaves out was entered in
    [deps_to_nodes], and the empty name of the output that [LSTM] leaves out
    released it. *)
Theorem topological_sort_breaks_order :
  producers_first (g_node (model_graph recurrent_model)) /\
  exists st',
    topological_sort recurrent_model = Ok (tt, st') /\
    g_node (model_graph st') = [lstm_node; clip_node; relu_node] /\
    ~ producers_first (g_node (model_graph st')).
Proof.
  split.
  - intros i j c p x Hi Hj Hx Hy.
    destruct i as [|[|[|i]]]; simpl in Hi; try discriminate;
      injection Hi as <-;
      destruct j as [|[|[|j]]]; simpl in Hj; try discriminate;
      injection Hj as <-; try lia;
      simpl in Hx, Hy; split_elem_of Hx; subst x;
      split_elem_of Hy; discriminate.
  - eexists. split; [vm_compute; reflexivity|]. split; [reflexivity|].
    intros H.
    specialize (H 1 2 clip_node relu_node "r"%string eq_refl eq_refl).
    assert (2 < 1); [|lia].
    apply H; simpl; set_solver.
Qed.

(** ** Reading the model *)

Lemma graphs_eq st : graphs st = Ok (graphs_of st, cached st).
Proof.
  unfold graphs, graphs_of, cached. destruct st as [g d [gs|] m]; reflexivity.
Qed.

Lemma graphs_of_cached st : graphs_of (cached st) = graphs_of st.
Proof. reflexivity. Qed.

Lemma cached_cached st : cached (cached st) = cached st.
Proof. reflexivity. Qed.

Lemma graph_node_cached st u : graph_node (cached st) u = graph_node st u.
Proof. reflexivity. Qed.

Lemma nodes_of_cached st : nodes_of (cached st) = nodes_of st.
Proof. reflexivity. Qed.

Lemma nodes_eq st : nodes st = Ok (nodes_of st, cached st).
Proof. unfold nodes, bind. rewrite graphs_eq. reflexivity. Qed.

Lemma get_nodes_by_op_type_eq op st :
  get_nodes_by_op_type op st =
  Ok (List.filter (fun node => bool_decide (op_type node = op)) (nodes_of st),
      cached st).
Proof. unfold get_nodes_by_op_type, bind. rewrite nodes_eq. reflexivity. Qed.

Lemma get_initializer_eq tensor_name st :
  exists r, get_initializer tensor_name st = Ok (r, cached st) /\
            get_initializer tensor_name (cached st) = Ok (r, cached st).
Proof.
  unfold get_initializer, bind. rewrite !graphs_eq. eexists; split; reflexivity.
Qed.

(** A call of [get_constant_value] leaves the model with the cache filled,
    and gives the same answer when it is repeated. *)
Lemma get_constant_value_cached output_name st r st' :
  get_constant_value output_name st = Ok (r, st') ->
  st' = cached st /\
  get_constant_value output_name (cached st) = Ok (r, cached st).
Proof.
  unfold get_constant_value, bind.
  rewrite !get_nodes_by_op_type_eq. rewrite nodes_of_cached, cached_cached.
  unfold lift, res_bind.
  destruct (constant_scan _ output_name) as [[v|]| |]; try discriminate.
  - unfold ret. intros [= <- <-]. split; reflexivity.
  - destruct (get_initializer_eq output_name (cached st)) as (r0 & H1 & H2).
    rewrite cached_cached in H1. rewrite H1.
    destruct r0 as [t|].
    + destruct (to_array t); try discriminate.
      unfold ret. intros [= <- <-]. split; reflexivity.
    + unfold ret. intros [= <- <-]. split; reflexivity.
Qed.

Lemma resolves_to_cached st output_name r :
  resolves_to st output_name r -> resolves_to (cached st) output_name r.
Proof.
  intros [st' H]. apply get_constant_value_cached in H as [_ H].
  exists (cached st). exact H.
Qed.

Lemma resolves_to_eq st output_name r :
  resolves_to st output_name r ->
  get_constant_value output_name st = Ok (r, cached st).
Proof.
  intros [st' H]. destruct (get_constant_value_cached _ _ _ _ H) as [-> _].
  exact H.
Qed.

(** ** Constant resolution *)

Lemma get_constant_input_from_found inputs : forall k st i nm v,
  inputs !! i = Some nm ->
  (forall j nmj, j < i -> inputs !! j = Some nmj -> resolves_to st nmj None) ->
  resolves_to st nm (Some v) ->
  get_constant_input_from k inputs st = Ok ((Some (k + i), Some v), cached st).
Proof.
  induction inputs as [|x inputs IH]; intros k st i nm v Hi Hbefore Hres.
  - destruct i; discriminate.
  - destruct i as [|i]; simpl in Hi.
    + injection Hi as ->. simpl. unfold bind.
      rewrite (resolves_to_eq _ _ _ Hres). unfold ret.
      rewrite Nat.add_0_r. reflexivity.
    + simpl. unfold bind.
      assert (H0 : 0 < S i) by lia.
      rewrite (resolves_to_eq _ _ _ (Hbefore 0 x H0 eq_refl)).
      rewrite (IH (S k) (cached st) i nm v Hi).
      * rewrite cached_cached.
        replace (S k + i) with (k + S i) by lia. reflexivity.
      * intros j nmj Hj Hl. apply resolves_to_cached.
        apply (Hbefore (S j) nmj); [lia|exact Hl].
      * apply resolves_to_cached, Hres.
Qed.

Lemma get_constant_input_from_none inputs : forall k st,
  (forall j nmj, inputs !! j = Some nmj -> resolves_to st nmj None) ->
  exists st', get_constant_input_from k inputs st = Ok ((None, None), st').
Proof.
  induction inputs as [|x inputs IH]; intros k st Hall.
  - exists st. reflexivity.
  - simpl. unfold bind.
    rewrite (resolves_to_eq _ _ _ (Hall 0 x eq_refl)).
    apply IH. intros j nmj Hl. apply resolves_to_cached, (Hall (S j) nmj Hl).
Qed.

(** The arithmetic at work.  The literal [2.01] is the binary64 number
    [0x1.0147ae147ae14p+1]. *)
Example py_float_literal :
  py_float (201 # 100) = S754_finite false 4526117625507348 (-51).
Proof. vm_compute. reflexivity. Qed.

(** In binary32 [0.1] is [0x1.99999ap-4], and in binary16 [65520] is
    rounded to infinity. *)
Example round_to_formats :
  round_to binary32 (1 # 10) = S754_finite false 13421773 (-27) /\
  round_to binary16 (inject_Z 65520) = S754_infinity false /\
  round_to binary16 (inject_Z 65519) = S754_finite false 2047 5.
Proof. vm_compute. repeat split. Qed.

(** An [INT64] scalar is converted to binary64 by the subtraction:
    [2^62 + 1] becomes [2^62], and is found when [2^62] is expected. *)
Example close_to_rounds_int64 (np : promotion) :
  close_to np (mkArray (np_int true 64) [] [inject_Z (2 ^ 62 + 1)])
           (py_float (inject_Z (2 ^ 62))) default_delta = Ok true.
Proof. destruct np; vm_compute; reflexivity. Qed.

(** A [FLOAT] tensor that holds [1e-6] holds the binary32 number nearest to
    it, which is below the binary64 number [1e-6].  It is within [1e-6] of
    [0.0] when the comparison is made in binary64, as the value-based rules
    have it for an array of no dimension, and not when it is made in
    binary32, where the tolerance is rounded to the same number. *)
Example close_to_tolerance_rounded :
  let tiny := [1 # 1000000] in
  close_to value_based (mkArray (np_float binary32) [] tiny)
           (py_float 0) default_delta = Ok true /\
  close_to value_based (mkArray (np_float binary32) [1%Z] tiny)
           (py_float 0) default_delta = Ok false /\
  close_to weak_scalar (mkArray (np_float binary32) [] tiny)
           (py_float 0) default_delta = Ok false.
Proof. vm_compute. repeat split. Qed.

(** C5, as [find_constant_input] is written: only the first input that
    resolves to a constant is looked at.  When that is input [i], with value
    [v], the answer is [i] if [v] has a single element and numpy finds
    [abs(v - expected_value) < delta], in the floating-point format that its
    promotion rules give, and [-1] if not, whatever the later inputs are; a
    single string makes the subtraction raise [TypeError].  When no input
    resolves to a constant the answer is [-1]. *)
Theorem find_constant_input_first_constant (np : promotion) (st : OnnxModel)
    (node : NodeProto) (expected_value delta : float) :
  (forall i nm v,
     input node !! i = Some nm ->
     (forall j nmj, j < i -> input node !! j = Some nmj ->
                    resolves_to st nmj None) ->
     resolves_to st nm (Some v) ->
     find_constant_input np node expected_value delta st =
       res_bind (close_to np v expected_value delta)
                (fun near => Ok (if near then Z.of_nat i else (-1)%Z,
                                 cached st))) /\
  ((forall j nmj, input node !! j = Some nmj -> resolves_to st nmj None) ->
   exists st',
     find_constant_input np node expected_value delta st = Ok ((-1)%Z, st')).
Proof.
  split.
  - intros i nm v Hi Hbefore Hres.
    unfold find_constant_input, get_constant_input, bind.
    rewrite (get_constant_input_from_found _ 0 st i nm v Hi Hbefore Hres).
    simpl. unfold lift.
    destruct (close_to np v expected_value delta) as [[|]| |]; reflexivity.
  - intros Hall.
    destruct (get_constant_input_from_none (input node) 0 st Hall) as [st' H].
    exists st'. unfold find_constant_input, get_constant_input, bind.
    rewrite H. reflexivity.
Qed.

(** The constant [hi] is the scalar 2.0: with the default tolerance, [Mul]
    has it at input 1 when 2.0 is expected, and has nothing when 2.01 is,
    under either rule of promotion. *)
Lemma find_constant_input_first_constant_witness :
  (find_constant_input value_based mul_hi (py_float 2) default_delta
     constants_model = Ok (1%Z, cached constants_model) /\
   find_constant_input value_based mul_hi (py_float (201 # 100)) default_delta
     constants_model = Ok ((-1)%Z, cached constants_model)) /\
  (find_constant_input weak_scalar mul_hi (py_float 2) default_delta
     constants_model = Ok (1%Z, cached constants_model) /\
   find_constant_input weak_scalar mul_hi (py_float (201 # 100)) default_delta
     constants_model = Ok ((-1)%Z, cached constants_model)).
Proof.
  assert (Hx : forall j nmj, j < 1 -> input mul_hi !! j = Some nmj ->
                 resolves_to constants_model nmj None).
  { intros j nmj Hj Hl. destruct j as [|j]; [|lia].
    injection Hl as <-. eexists. vm_compute. reflexivity. }
  assert (Hhi : resolves_to constants_model "hi"
                  (Some (mkArray (np_float binary32) [] [2%Q]))).
  { eexists. vm_compute. reflexivity. }
  split; split.
  - exact (proj1 (find_constant_input_first_constant value_based
                    constants_model mul_hi (py_float 2) default_delta)
                 1 "hi"%string _ eq_refl Hx Hhi).
  - exact (proj1 (find_constant_input_first_constant value_based
                    constants_model mul_hi (py_float (201 # 100))
                    default_delta)
                 1 "hi"%string _ eq_refl Hx Hhi).
  - exact (proj1 (find_constant_input_first_constant weak_scalar
                    constants_model mul_hi (py_float 2) default_delta)
                 1 "hi"%string _ eq_refl Hx Hhi).
  - exact (proj1 (find_constant_input_first_constant weak_scalar
                    constants_model mul_hi (py_float (201 # 100))
                    default_delta)
                 1 "hi"%string _ eq_refl Hx Hhi).
Defined.

Lemma find_constant_input_misses (np : promotion) :
  ~ finds_any_matching_input np constants_model clip_lo_hi (py_float 2)
      default_delta.
Proof.
  intros (r & st' & Hf & Hyes & _).
  assert (H : find_constant_input np clip_lo_hi (py_float 2) default_delta
                constants_model = Ok ((-1)%Z, cached constants_model))
    by (destruct np; vm_compute; reflexivity).
  rewrite H in Hf. injection Hf as <- _.
  destruct Hyes as (i & Hi & _); [|lia].
  exists 2, "hi"%string, (mkArray (np_float binary32) [] [2%Q]).
  split; [reflexivity|]. split; [|destruct np; vm_compute; reflexivity].
  eexists. vm_compute. reflexivity.
Qed.

(** C5 as stated fails: input 2 of [Clip] is the scalar 2.0, and the answer
    for 2.0 is [-1], because input 1 is a constant too. *)
Lemma find_constant_input_misses_later_input :
  ~ finds_any_matching_input value_based constants_model clip_lo_hi
      (py_float 2) default_delta /\
  ~ finds_any_matching_input weak_scalar constants_model clip_lo_hi
      (py_float 2) default_delta.
Proof. split; apply find_constant_input_misses. Qed.

(** ** The object store *)

Lemma find_app {A} (p : A -> bool) (l1 l2 : list A) :
  List.find p (l1 ++ l2) =
  match List.find p l1 with
  | Some x => Some x
  | None => List.find p l2
  end.
Proof.
  induction l1 as [|x l1 IH]; simpl; [reflexivity|].
  destruct (p x); [reflexivity|exact IH].
Qed.

Lemma flat_map_flat_map {A B C} (f : B -> list C) (g : A -> list B)
    (l : list A) :
  flat_map f (flat_map g l) = flat_map (fun x => flat_map f (g x)) l.
Proof.
  induction l as [|x l IH]; simpl; [reflexivity|].
  rewrite flat_map_app, IH. reflexivity.
Qed.

Lemma flat_map_map_comm {A B} (h : A -> A) (f : B -> list A) (k : B -> B)
    (l : list B) :
  (forall x, f (k x) = List.map h (f x)) ->
  flat_map f (List.map k l) = List.map h (flat_map f l).
Proof.
  intros Hk. induction l as [|x l IH]; simpl; [reflexivity|].
  rewrite List.map_app, Hk, IH. reflexivity.
Qed.

Lemma subgraphs_eq g : subgraphs g = g :: flat_map subgraphs (children g).
Proof.
  destruct g as [u s ns i o w]. simpl. f_equal.
  unfold children; simpl. rewrite flat_map_flat_map.
  apply flat_map_ext. intros n. unfold node_graphs.
  rewrite flat_map_flat_map. apply flat_map_ext. intros a.
  destruct a; simpl; rewrite ?app_nil_r; reflexivity.
Qed.

Lemma attr_graphs_map (h : GraphProto -> GraphProto) a :
  attr_graphs (attr_map h a) = List.map h (attr_graphs a).
Proof. destruct a; reflexivity. Qed.

Lemma node_graphs_map (h : GraphProto -> GraphProto) n :
  node_graphs (node_map h n) = List.map h (node_graphs n).
Proof.
  unfold node_graphs. simpl.
  apply flat_map_map_comm, attr_graphs_map.
Qed.

Lemma update_at_eq u f g :
  update_at u f g =
  if Nat.eqb (oid g) u then f g
  else set_node (List.map (node_map (update_at u f)) (g_node g)) g.
Proof. destruct g; reflexivity. Qed.

Lemma children_set_node_map (h : GraphProto -> GraphProto) g :
  children (set_node (List.map (node_map h) (g_node g)) g) =
  List.map h (children g).
Proof.
  unfold children. simpl. apply flat_map_map_comm, node_graphs_map.
Qed.

(** The object [u] after an update in place is what the update makes of
    it. *)
Lemma find_update_at u f :
  (forall g, oid (f g) = oid g) ->
  forall g,
    List.find (fun g => Nat.eqb (oid g) u) (subgraphs (update_at u f g)) =
    option_map f (List.find (fun g => Nat.eqb (oid g) u) (subgraphs g)).
Proof.
  intros Hf. induction g as [g IH] using GraphProto_children_ind.
  rewrite update_at_eq. destruct (Nat.eqb (oid g) u) eqn:E.
  - rewrite (subgraphs_eq (f g)), (subgraphs_eq g). simpl.
    rewrite Hf, E. reflexivity.
  - rewrite subgraphs_eq, children_set_node_map, (subgraphs_eq g). simpl.
    rewrite E. induction IH as [|h l Hh _ IHl]; simpl; [reflexivity|].
    rewrite !find_app, Hh, IHl.
    destruct (List.find _ (subgraphs h)); reflexivity.
Qed.

Lemma find_update_roots u f (roots : list GraphProto) :
  (forall g, oid (f g) = oid g) ->
  List.find (fun g => Nat.eqb (oid g) u)
            (flat_map subgraphs (List.map (update_at u f) roots)) =
  option_map f (List.find (fun g => Nat.eqb (oid g) u)
                          (flat_map subgraphs roots)).
Proof.
  intros Hf. induction roots as [|h l IH]; simpl; [reflexivity|].
  rewrite !find_app, find_update_at, IH by exact Hf.
  destruct (List.find _ (subgraphs h)); reflexivity.
Qed.

Lemma deref_store_update u f st :
  (forall g, oid (f g) = oid g) ->
  deref (store_update u f st) u = option_map f (deref st u).
Proof.
  intros Hf. unfold deref, store, store_update. simpl model_graph.
  simpl detached.
  apply (find_update_roots u f (model_graph st :: detached st) Hf).
Qed.

Lemma deref_cached st u : deref (cached st) u = deref st u.
Proof. reflexivity. Qed.

(** ** Mutation interface *)

Lemma get_graph_by_name_eq s st :
  get_graph_by_name s st =
  Ok (List.find (fun u => match deref st u with
                          | Some g => bool_decide (s = g_name g)
                          | None => false
                          end) (graphs_of st), cached st).
Proof. unfold get_graph_by_name, bind. rewrite graphs_eq. reflexivity. Qed.

Lemma get_graph_by_name_first st s u :
  first_named st s u -> get_graph_by_name s st = Ok (Some u, cached st).
Proof.
  intros (before & after & Hgs & (g & Hg & Hname) & Hbefore).
  rewrite get_graph_by_name_eq, Hgs, find_app.
  replace (List.find _ before) with (@None nat).
  - simpl. rewrite Hg, bool_decide_eq_true_2 by (symmetry; exact Hname).
    reflexivity.
  - symmetry. clear Hgs. induction before as [|v l IH]; simpl; [reflexivity|].
    destruct (deref st v) as [h|] eqn:E.
    + rewrite bool_decide_eq_false_2.
      * apply IH. intros w k Hw. apply Hbefore. right. exact Hw.
      * intros ->. apply (Hbefore v h); [left; reflexivity|exact E|reflexivity].
    + apply IH. intros w k Hw. apply Hbefore. right. exact Hw.
Qed.

Lemma get_graph_by_name_none st s :
  not_named st s -> get_graph_by_name s st = Ok (None, cached st).
Proof.
  intros Hnone. rewrite get_graph_by_name_eq. f_equal. f_equal.
  unfold not_named in Hnone.
  induction (graphs_of st) as [|v l IH]; simpl; [reflexivity|].
  destruct (deref st v) as [h|] eqn:E.
  - rewrite bool_decide_eq_false_2.
    + apply IH. intros w k Hw. apply Hnone. right. exact Hw.
    + intros ->. apply (Hnone v h); [left; reflexivity|exact E|reflexivity].
  - apply IH. intros w k Hw. apply Hnone. right. exact Hw.
Qed.

Lemma first_index_spec (outputs : list string) (ns : list NodeProto) :
  first_consumer_index outputs ns (first_index (consumes outputs) ns).
Proof.
  assert (Hc : forall m, consumes outputs m = true <->
                         exists x, x ∈ input m /\ x ∈ outputs).
  { intros m. unfold consumes. rewrite existsb_exists. split.
    - intros (x & Hx & Hb). exists x. split.
      + apply list_elem_of_In, Hx.
      + apply bool_decide_eq_true in Hb. exact Hb.
    - intros (x & Hx & Ho). exists x. split.
      + apply list_elem_of_In, Hx.
      + apply bool_decide_eq_true. exact Ho. }
  unfold first_consumer_index.
  induction ns as [|n ns (Hle & Hbefore & Hat)]; simpl.
  - split; [lia|]. split; [intros; lia|intros; lia].
  - destruct (consumes outputs n) eqn:E.
    + split; [lia|]. split; [intros; lia|]. intros _.
      apply Hc in E as (x & Hx & Ho). exists n, x. auto.
    + split; [lia|]. split.
      * intros j m x Hj Hm Hx Ho. destruct j as [|j]; simpl in Hm.
        -- injection Hm as <-.
           assert (consumes outputs n = true) by (apply Hc; eauto).
           congruence.
        -- apply (Hbefore j m x); [lia|assumption..].
      * intros Hlt. apply Hat. lia.
Qed.

Lemma named_elsewhere_primary st graph_name :
  graph_name = None \/ graph_name = Some (g_name (model_graph st)) ->
  named_elsewhere graph_name st = None.
Proof.
  intros [->| ->]; simpl; [reflexivity|].
  rewrite bool_decide_eq_true_2; reflexivity.
Qed.

Lemma named_elsewhere_other st s :
  s <> g_name (model_graph st) -> named_elsewhere (Some s) st = Some s.
Proof. intros H. simpl. rewrite bool_decide_eq_false_2; [reflexivity|exact H]. Qed.

Lemma oid_set_node ns g : oid (set_node ns g) = oid g.
Proof. reflexivity. Qed.

(** C7. [add_node] with no graph name, or with the name of the primary graph,
    puts the node at the end of the node sequence of the primary graph.
    With another name, which stands for the first discovered graph of that
    name, the node goes into that graph, at the position of the first node
    one of whose inputs is an output of the new node, and at the end when
    there is no such node. *)
Theorem add_node_places_node (st : OnnxModel) (n : NodeProto)
    (graph_name : option string) :
  (graph_name = None \/ graph_name = Some (g_name (model_graph st)) ->
   add_node n graph_name st =
     Ok (tt, set_model_graph
               (set_node (g_node (model_graph st) ++ [n]) (model_graph st))
               st)) /\
  (forall s u g,
     graph_name = Some s -> s <> g_name (model_graph st) ->
     first_named st s u -> deref st u = Some g ->
     exists st' idx,
       add_node n graph_name st = Ok (tt, st') /\
       first_consumer_index (output n) (g_node g) idx /\
       deref st' u =
         Some (set_node (firstn idx (g_node g) ++ n :: skipn idx (g_node g))
                        g)).
Proof.
  split.
  - intros H. unfold add_node, bind, get.
    rewrite (named_elsewhere_primary st graph_name H). reflexivity.
  - intros s u g -> Hs Hu Hg.
    exists (store_update u (fun g =>
              set_node (py_insert (first_index (consumes (output n))
                                     (graph_node (cached st) u)) n (g_node g))
                       g) (cached st)).
    exists (first_index (consumes (output n)) (g_node g)).
    split; [|split].
    + unfold add_node, bind, get.
      rewrite (named_elsewhere_other st s Hs).
      rewrite (get_graph_by_name_first st s u Hu).
      reflexivity.
    + apply first_index_spec.
    + rewrite deref_store_update by (intros; apply oid_set_node).
      rewrite deref_cached, Hg. unfold graph_node.
      rewrite deref_cached, Hg. reflexivity.
Qed.

Lemma branching_first_named : first_named branching_model "then_branch" 1.
Proof.
  exists [0], []. split; [reflexivity|]. split.
  - exists then_branch. split; reflexivity.
  - intros v h [<-|[]] Hh. injection Hh as <-. discriminate.
Defined.

Lemma add_node_places_node_witness :
  exists st' idx,
    add_node abs_node (Some "then_branch"%string) branching_model
      = Ok (tt, st') /\
    first_consumer_index (output abs_node) (g_node then_branch) idx /\
    deref st' 1 =
      Some (set_node (firstn idx (g_node then_branch) ++
                      abs_node :: skipn idx (g_node then_branch))
                     then_branch).
Proof.
  apply (proj2 (add_node_places_node branching_model abs_node
                  (Some "then_branch"%string))
               "then_branch"%string 1 then_branch eq_refl).
  - discriminate.
  - exact branching_first_named.
  - reflexivity.
Defined.

Lemma remove_node_eq n st :
  remove_node n st =
  for_each (graphs_of st) (fun u =>
    let! st := get in
    if node_in n (graph_node st u) then modify (remove_from u n)
    else ret tt) (cached st).
Proof. unfold remove_node, bind. rewrite graphs_eq. reflexivity. Qed.

Lemma remove_loop_total n gs : forall st,
  exists st',
    for_each gs (fun u =>
      let! st := get in
      if node_in n (graph_node st u) then modify (remove_from u n)
      else ret tt) st = Ok (tt, st').
Proof.
  induction gs as [|u gs IH]; intros st; simpl.
  - exists st. reflexivity.
  - unfold bind at 1. unfold bind at 1. unfold get.
    destruct (node_in n (graph_node st u)); simpl; apply IH.
Qed.

Lemma remove_loop_absent n gs st :
  (forall u, In u gs -> node_in n (graph_node st u) = false) ->
  for_each gs (fun u =>
    let! st := get in
    if node_in n (graph_node st u) then modify (remove_from u n)
    else ret tt) st = Ok (tt, st).
Proof.
  induction gs as [|u gs IH]; intros H; simpl; [reflexivity|].
  unfold bind at 1. unfold bind at 1. unfold get.
  rewrite (H u) by (left; reflexivity). simpl.
  apply IH. intros v Hv. apply H. right. exact Hv.
Qed.

Lemma rename_absent (o n : string) (l : list string) :
  o ∉ l -> List.map (rename (PyStr o) (PyStr n)) l = l.
Proof.
  induction l as [|x l IH]; intros H; simpl; [reflexivity|].
  apply not_elem_of_cons in H as [Hx Hl].
  rewrite bool_decide_eq_false_2 by (intros ->; apply Hx; reflexivity).
  rewrite IH by exact Hl. reflexivity.
Qed.

(** C4, as the methods are written.  [remove_node] always returns, and
    leaves the model as it is when no discovered graph holds the node.
    [add_node], [add_initializer] and [add_input] return when no graph name
    is given, or the name of the primary graph, or the name of a discovered
    graph; with a name that no discovered graph has they raise
    [AttributeError], [get_graph_by_name] having answered [None].
    [replace_node_input] and [replace_node_output] return when both names
    are strings, leave the node as it is when the old name is not there,
    and fail their assertion otherwise. *)
Theorem mutation_outcomes (st : OnnxModel) (n : NodeProto)
    (tensor : TensorProto) (vi : ValueInfoProto) :
  (exists st', remove_node n st = Ok (tt, st') /\
               (absent st n -> st' = cached st)) /\
  (forall graph_name,
     graph_name = None \/ graph_name = Some (g_name (model_graph st)) \/
     (exists s u, graph_name = Some s /\ first_named st s u) ->
     (exists st', add_node n graph_name st = Ok (tt, st')) /\
     (exists st', add_initializer tensor graph_name st = Ok (tt, st')) /\
     (exists st', add_input vi graph_name st = Ok (tt, st'))) /\
  (forall s,
     s <> g_name (model_graph st) -> not_named st s ->
     add_node n (Some s) st = Raise AttributeError /\
     add_initializer tensor (Some s) st = Raise AttributeError /\
     add_input vi (Some s) st = Raise AttributeError) /\
  (forall old new,
     (exists n', replace_node_input n (PyStr old) (PyStr new) = Ok n' /\
                 (old ∉ input n -> n' = n)) /\
     (exists n', replace_node_output n (PyStr old) (PyStr new) = Ok n' /\
                 (old ∉ output n -> n' = n))) /\
  (forall old new,
     isinstance_str old && isinstance_str new = false ->
     replace_node_input n old new = Raise AssertionError /\
     replace_node_output n old new = Raise AssertionError).
Proof.
  split; [|split; [|split; [|split]]].
  - rewrite remove_node_eq.
    destruct (remove_loop_total n (graphs_of st) (cached st)) as [st' H].
    exists st'. split; [exact H|]. intros Habs.
    rewrite remove_loop_absent in H by exact Habs. congruence.
  - intros graph_name H.
    destruct (named_elsewhere graph_name st) as [s|] eqn:E.
    + assert (Hu : exists u, first_named st s u).
      { destruct H as [->|[->|(s' & u & -> & Hu)]].
        - discriminate.
        - simpl in E. rewrite bool_decide_eq_true_2 in E by reflexivity.
          discriminate.
        - simpl in E. destruct (bool_decide _); [discriminate|].
          injection E as <-. exists u. exact Hu. }
      destruct Hu as [u Hu].
      unfold add_node, add_initializer, add_input, bind, get.
      rewrite E, (get_graph_by_name_first st s u Hu).
      repeat split; eexists; reflexivity.
    + unfold add_node, add_initializer, add_input, bind, get. rewrite E.
      repeat split; eexists; reflexivity.
  - intros s Hs Hnone.
    unfold add_node, add_initializer, add_input, bind, get.
    rewrite (named_elsewhere_other st s Hs), (get_graph_by_name_none st s Hnone).
    repeat split; reflexivity.
  - intros old new. split.
    + eexists. split; [reflexivity|]. intros Hold.
      rewrite rename_absent by exact Hold. destruct n; reflexivity.
    + eexists. split; [reflexivity|]. intros Hold.
      rewrite rename_absent by exact Hold. destruct n; reflexivity.
  - intros old new H. unfold replace_node_input, replace_node_output.
    rewrite H. split; reflexivity.
Qed.

Lemma branching_not_named : not_named branching_model "missing".
Proof.
  intros v h [<-|[<-|[]]] Hh; injection Hh as <-; discriminate.
Defined.

Lemma branching_absent : absent branching_model abs_node.
Proof. intros u [<-|[<-|[]]]; reflexivity. Defined.

Lemma mutation_outcomes_witness :
  (exists st', add_node abs_node (Some "then_branch"%string) branching_model
               = Ok (tt, st')) /\
  add_input (mkValueInfo "x0" 1%Z) (Some "missing"%string) branching_model
    = Raise AttributeError /\
  remove_node abs_node branching_model = Ok (tt, cached branching_model) /\
  replace_node_input abs_node PyNone (PyStr "x1") = Raise AssertionError.
Proof.
  pose proof (mutation_outcomes branching_model abs_node
                (scalar 0) (mkValueInfo "x0" 1%Z))
    as (Hrm & Hadd & Hraise & _ & Hassert).
  split; [|split; [|split]].
  - apply (Hadd (Some "then_branch"%string)). right. right.
    exists "then_branch"%string, 1. split; [reflexivity|].
    exact branching_first_named.
  - apply (Hraise "missing"%string); [discriminate|exact branching_not_named].
  - destruct Hrm as (st' & Hrun & Hsame).
    rewrite <- (Hsame branching_absent). exact Hrun.
  - apply (Hassert PyNone (PyStr "x1")). reflexivity.
Defined.

(** C4 as stated fails: [add_node] with the name of no graph raises. *)
Lemma add_node_unknown_graph_raises :
  add_node abs_node (Some "missing"%string) branching_model
    = Raise AttributeError.
Proof. vm_compute. reflexivity. Qed.

(** ** Path matching *)

Lemma match_first_parent_from_spec d ty inputs : forall i0,
  match match_first_parent_from i0 inputs ty d [] with
  | (Some p, _) =>
      exists k x, inputs !! k = Some x /\ d !! x = Some p /\ op_type p = ty /\
                  forall j y q, j < k -> inputs !! j = Some y ->
                                d !! y = Some q -> op_type q <> ty
  | (None, _) =>
      forall k x q, inputs !! k = Some x -> d !! x = Some q -> op_type q <> ty
  end.
Proof.
  induction inputs as [|x inputs IH]; intros i0; simpl.
  - intros k x q Hk. destruct k; discriminate.
  - destruct (d !! x) as [parent|] eqn:Ex.
    + destruct (bool_decide (op_type parent = ty)) eqn:Et; simpl.
      * apply bool_decide_eq_true in Et.
        exists 0, x. repeat split; try assumption. intros; lia.
      * apply bool_decide_eq_false in Et.
        specialize (IH (S i0)).
        destruct (match_first_parent_from (S i0) inputs ty d []) as [[p|] ?].
        -- destruct IH as (k & y & Hk & Hy & Hty & Hfirst).
           exists (S k), y. repeat split; try assumption.
           intros j z q Hj Hz Hq. destruct j as [|j]; simpl in Hz.
           ++ injection Hz as <-. congruence.
           ++ apply (Hfirst j z q); [lia|assumption..].
        -- intros k y q Hk Hy. destruct k as [|k]; simpl in Hk.
           ++ injection Hk as <-. congruence.
           ++ apply (IH k y q Hk Hy).
    + specialize (IH (S i0)).
      destruct (match_first_parent_from (S i0) inputs ty d []) as [[p|] ?].
      * destruct IH as (k & y & Hk & Hy & Hty & Hfirst).
        exists (S k), y. repeat split; try assumption.
        intros j z q Hj Hz Hq. destruct j as [|j]; simpl in Hz.
        -- injection Hz as <-. congruence.
        -- apply (Hfirst j z q); [lia|assumption..].
      * intros k y q Hk Hy. destruct k as [|k]; simpl in Hk.
        -- injection Hk as <-. congruence.
        -- apply (IH k y q Hk Hy).
Qed.

Lemma py_getitem_position {A} (l : list A) (k : nat) (x : A) :
  l !! k = Some x -> py_getitem l (Z.of_nat k) = Ok x.
Proof.
  intros H. pose proof (lookup_lt_Some _ _ _ H) as Hlt.
  unfold py_getitem.
  destruct (Z.ltb_spec (Z.of_nat k) 0); [lia|].
  destruct (Z.ltb_spec (Z.of_nat k) 0); [lia|].
  destruct (Z.leb_spec (Z.of_nat (length l)) (Z.of_nat k)); [lia|].
  simpl. rewrite Nat2Z.id, H. reflexivity.
Qed.

(** What one call of [match_parent] answers is the parent of the hop. *)
Lemma match_parent_in_hop d cur ty idx r :
  is_position idx ->
  exists res r',
    match_parent_in d cur ty idx [] r = Ok (res, r') /\
    forall p, res = Some p <-> hop d cur ty idx p.
Proof.
  intros Hpos. unfold match_parent_in. destruct idx as [i|]; simpl in Hpos.
  - rewrite (proj2 (Z.leb_le 0 i) Hpos). simpl.
    destruct (Z_of_nat_complete i Hpos) as [k0 ->].
    destruct (Z.leb_spec (Z.of_nat (length (input cur))) (Z.of_nat k0))
      as [Hout|Hin].
    + exists None, r. split; [reflexivity|]. intros p. split; [discriminate|].
      intros (k & x & Hk & Hx & _). apply lookup_lt_Some in Hx. lia.
    + unfold get_parent_in.
      destruct (Z.leb_spec (Z.of_nat (length (input cur))) (Z.of_nat k0));
        [lia|].
      destruct (lookup_lt_is_Some_2 (input cur) k0) as [x Hx]; [lia|].
      rewrite (py_getitem_position _ _ _ Hx). simpl.
      destruct (d !! x) as [parent|] eqn:Ex.
      * destruct (bool_decide (op_type parent = ty)) eqn:Et; simpl.
        -- apply bool_decide_eq_true in Et.
           exists (Some parent), r. split; [reflexivity|]. intros p. split.
           ++ intros [= <-]. exists k0, x. auto.
           ++ intros (k & y & Hk & Hy & Hd & _).
              apply Nat2Z.inj in Hk as <-. congruence.
        -- apply bool_decide_eq_false in Et.
           exists None, r. split; [reflexivity|]. intros p.
           split; [discriminate|].
           intros (k & y & Hk & Hy & Hd & Hty).
           apply Nat2Z.inj in Hk as <-. congruence.
      * exists None, r. split; [reflexivity|]. intros p.
        split; [discriminate|].
        intros (k & y & Hk & Hy & Hd & _).
        apply Nat2Z.inj in Hk as <-. congruence.
  - simpl. unfold match_first_parent.
    pose proof (match_first_parent_from_spec d ty (input cur) 0) as H.
    destruct (match_first_parent_from 0 (input cur) ty d []) as [[p0|] index].
    + exists (Some p0), (indice_append r index). split; [reflexivity|].
      intros p. split.
      * intros [= <-]. exact H.
      * destruct H as (k & x & Hk & Hx & Hty & Hfirst).
        intros (k' & x' & Hk' & Hx' & Hty' & Hfirst').
        destruct (Nat.lt_trichotomy k k') as [Hlt|[->|Hlt]].
        -- exfalso. apply (Hfirst' k x p0 Hlt Hk Hx Hty).
        -- congruence.
        -- exfalso. apply (Hfirst k' x' p Hlt Hk' Hx' Hty').
    + exists None, (indice_append r index). split; [reflexivity|].
      intros p. split; [discriminate|].
      intros (k & x & Hk & Hx & Hty & _). exfalso.
      apply (H k x p Hk Hx Hty).
Qed.

Lemma hop_functional d cur ty idx p q :
  is_position idx -> hop d cur ty idx p -> hop d cur ty idx q -> p = q.
Proof.
  intros Hpos Hp Hq.
  destruct (match_parent_in_hop d cur ty idx None Hpos) as (res & r' & _ & H).
  apply H in Hp, Hq. congruence.
Qed.

Lemma chain_length d cur tys idxs ps :
  chain d cur tys idxs ps -> length ps = length tys.
Proof. induction 1; simpl; congruence. Qed.

Lemma match_parent_path_loop_spec d tys : forall idxs cur acc r,
  length idxs = length tys ->
  Forall is_position idxs ->
  exists res r',
    match_parent_path_loop d cur tys idxs acc r = Ok (res, r') /\
    (forall l, res = Some l <->
               exists ps, l = acc ++ ps /\ chain d cur tys idxs ps) /\
    (res = None <-> fails d cur tys idxs).
Proof.
  induction tys as [|ty tys IH]; intros idxs cur acc r Hlen Hpos.
  - destruct idxs; [|discriminate]. simpl.
    exists (Some acc), r. split; [reflexivity|]. split.
    + intros l. split.
      * intros [= <-]. exists []. rewrite app_nil_r. split; [reflexivity|].
        constructor.
      * intros (ps & -> & Hc). inversion Hc. rewrite app_nil_r. reflexivity.
    + split; [discriminate|]. intros Hf. inversion Hf.
  - destruct idxs as [|i idxs]; [discriminate|].
    injection Hlen as Hlen. apply Forall_cons in Hpos as [Hi Hpos]. simpl.
    destruct (match_parent_in_hop d cur ty i r Hi) as (res1 & r1 & -> & Hhop).
    simpl. destruct res1 as [p|].
    + destruct (IH idxs p (acc ++ [p]) r1 Hlen Hpos)
        as (res & r' & -> & Hsome & Hnone).
      assert (Hp : hop d cur ty i p) by (apply Hhop; reflexivity).
      exists res, r'. split; [reflexivity|]. split.
      * intros l. rewrite Hsome. split.
        -- intros (ps & -> & Hc). exists (p :: ps).
           rewrite <- app_assoc. split; [reflexivity|].
           constructor; assumption.
        -- intros (ps & -> & Hc).
           inversion Hc as [|? ? ? ? ? p0 ps0 Hp0 Hc0]; subst.
           assert (p0 = p) as -> by (eapply hop_functional; eassumption).
           exists ps0. rewrite <- app_assoc. split; [reflexivity|assumption].
      * rewrite Hnone. split.
        -- intros Hf. eapply fails_later; eassumption.
        -- intros Hf.
           inversion Hf as [? ? ? ? ? Hno|? ? ? ? ? p0 Hp0 Hrest]; subst.
           ++ exfalso. eapply Hno. exact Hp.
           ++ assert (p0 = p) as -> by (eapply hop_functional; eassumption).
              assumption.
    + exists None, r1. split; [reflexivity|]. split.
      * intros l. split; [discriminate|].
        intros (ps & _ & Hc).
        inversion Hc as [|? ? ? ? ? p0 ps0 Hp0 Hc0]; subst.
        assert (@None NodeProto = Some p0) by (apply Hhop; assumption).
        discriminate.
      * split; [|reflexivity]. intros _. apply fails_here.
        intros p Hp. apply Hhop in Hp. discriminate.
Qed.

(** C1. [match_parent_path(n, types, idx)] with as many indices as types
    returns.  It returns a list exactly when every hop matches, hop after
    hop from the parent matched before, and the list is then the list of the
    matched parents, one for each type; it returns [None] exactly when some
    hop, reached through matching hops, has no parent to match: no list
    with fewer nodes is ever returned.  [d] is the dictionary passed, or
    the one computed from the nodes of the model. *)
Theorem match_parent_path_all_or_nothing (st : OnnxModel) (n : NodeProto)
    (types : list string) (idx : list (option Z))
    (output_name_to_node_arg : option (gmap string NodeProto))
    (return_indice : indice) (d : gmap string NodeProto) :
  length idx = length types ->
  Forall is_position idx ->
  d = default (index_outputs (nodes_of st)) output_name_to_node_arg ->
  exists res return_indice' st',
    match_parent_path n types idx output_name_to_node_arg return_indice st
      = Ok ((res, return_indice'), st') /\
    (forall ps, res = Some ps <-> chain d n types idx ps) /\
    (forall ps, res = Some ps -> length ps = length types) /\
    (res = None <-> fails d n types idx).
Proof.
  intros Hlen Hpos ->.
  set (d := default (index_outputs (nodes_of st)) output_name_to_node_arg).
  destruct (match_parent_path_loop_spec d types idx n [] return_indice Hlen Hpos)
    as (res & r' & Hrun & Hsome & Hnone).
  assert (Hin : match_parent_path_in d n types idx return_indice
                = Ok (res, r')).
  { unfold match_parent_path_in.
    rewrite bool_decide_eq_true_2 by exact Hlen. exact Hrun. }
  assert (Hchain : forall ps, res = Some ps <-> chain d n types idx ps).
  { intros ps. rewrite Hsome. split.
    - intros (ps' & -> & Hc). exact Hc.
    - intros Hc. exists ps. split; [reflexivity|exact Hc]. }
  exists res, r'.
  exists (match output_name_to_node_arg with
          | Some _ => st
          | None => cached st
          end).
  split; [|split; [exact Hchain|split; [|exact Hnone]]].
  - unfold match_parent_path, bind. subst d.
    destruct output_name_to_node_arg as [d0|]; simpl in *.
    + unfold lift. rewrite Hin. reflexivity.
    + unfold output_name_to_node, bind. rewrite nodes_eq. simpl.
      unfold lift. rewrite Hin. reflexivity.
  - intros ps Hps. apply Hchain in Hps. eapply chain_length. exact Hps.
Qed.

Lemma match_parent_path_all_or_nothing_witness :
  exists res return_indice' st',
    match_parent_path clip_node ["Relu"; "LSTM"]%string [Some 0%Z; None] None
      (Some []) recurrent_model = Ok ((res, return_indice'), st') /\
    (forall ps, res = Some ps <->
       chain (index_outputs (nodes_of recurrent_model)) clip_node
             ["Relu"; "LSTM"]%string [Some 0%Z; None] ps) /\
    (forall ps, res = Some ps -> length ps = 2) /\
    (res = None <->
       fails (index_outputs (nodes_of recurrent_model)) clip_node
             ["Relu"; "LSTM"]%string [Some 0%Z; None]).
Proof.
  apply (match_parent_path_all_or_nothing recurrent_model clip_node
           ["Relu"; "LSTM"]%string [Some 0%Z; None] None (Some [])).
  - reflexivity.
  - repeat constructor. simpl. lia.
  - reflexivity.
Defined.

(** ** Naming service *)

Lemma is_digit_other (c : ascii) :
  is_digit c = true ->
  is_space c = false /\ Ascii.eqb c "_" = false /\
  Ascii.eqb c "+" = false /\ Ascii.eqb c "-" = false.
Proof.
  intros H. repeat split.
  - unfold is_digit in H. unfold is_space.
    apply andb_true_iff in H as [H1 H2].
    apply Nat.leb_le in H1, H2.
    destruct (Nat.leb_spec 9 (nat_of_ascii c)),
             (Nat.leb_spec (nat_of_ascii c) 13),
             (Nat.leb_spec 28 (nat_of_ascii c)),
             (Nat.leb_spec (nat_of_ascii c) 32); simpl; try reflexivity; lia.
  - destruct (Ascii.eqb_spec c "_") as [->|]; [discriminate|reflexivity].
  - destruct (Ascii.eqb_spec c "+") as [->|]; [discriminate|reflexivity].
  - destruct (Ascii.eqb_spec c "-") as [->|]; [discriminate|reflexivity].
Qed.

Lemma string_of_uint_digits d :
  digits_only (NilEmpty.string_of_uint d) = true.
Proof. induction d; simpl; auto. Qed.

Lemma lstrip_digits s : digits_only s = true -> lstrip s = s.
Proof.
  destruct s as [|c s]; simpl; [reflexivity|].
  intros H. apply andb_true_iff in H as [Hc _].
  destruct (is_digit_other c Hc) as (-> & _). reflexivity.
Qed.

Lemma rstrip_digits s : digits_only s = true -> rstrip s = s.
Proof.
  induction s as [|c s IH]; simpl; [reflexivity|].
  intros H. apply andb_true_iff in H as [Hc Hs].
  rewrite (IH Hs). destruct (is_digit_other c Hc) as (-> & _).
  destruct s; reflexivity.
Qed.

Lemma drop_underscores_digits s : forall b,
  digits_only s = true -> b = true \/ s <> EmptyString ->
  drop_underscores b s = Some s.
Proof.
  induction s as [|c s IH]; intros b H Hb; simpl.
  - destruct Hb as [->|Hb]; [reflexivity|congruence].
  - simpl in H. apply andb_true_iff in H as [Hc Hs].
    destruct (is_digit_other c Hc) as (_ & -> & _).
    rewrite Hc, (IH true Hs) by (left; reflexivity). reflexivity.
Qed.

Lemma py_int_digits s d :
  digits_only s = true -> s <> EmptyString ->
  NilZero.uint_of_string s = Some d ->
  py_int s = Some (Z.of_int (Decimal.Pos d)) /\
  py_int (String "-" s) = Some (Z.of_int (Decimal.Neg d)).
Proof.
  intros Hd Hne Hu.
  assert (Hp : py_digits s = Some d).
  { unfold py_digits. rewrite drop_underscores_digits by auto. exact Hu. }
  split.
  - unfold py_int. rewrite lstrip_digits, rstrip_digits by exact Hd.
    destruct s as [|c s]; [congruence|].
    simpl in Hd. apply andb_true_iff in Hd as [Hc _].
    destruct (is_digit_other c Hc) as (_ & _ & -> & ->).
    rewrite Hp. reflexivity.
  - unfold py_int. change (lstrip (String "-" s)) with (String "-" s).
    change (rstrip (String "-" s))
      with (match rstrip s with
            | EmptyString => String "-" EmptyString
            | r => String "-" r
            end).
    rewrite rstrip_digits by exact Hd.
    destruct s as [|c s]; [congruence|].
    change (Ascii.eqb "-" "+") with false. change (Ascii.eqb "-" "-") with true.
    cbv iota. rewrite Hp. reflexivity.
Qed.

Lemma py_int_uint (d : Decimal.uint) :
  d <> Decimal.Nil ->
  py_int (NilZero.string_of_uint d) = Some (Z.of_int (Decimal.Pos d)) /\
  py_int (String "-" (NilZero.string_of_uint d))
    = Some (Z.of_int (Decimal.Neg d)).
Proof.
  intros Hn.
  assert (Hs : NilZero.string_of_uint d = NilEmpty.string_of_uint d)
    by (destruct d; congruence || reflexivity).
  apply py_int_digits.
  - rewrite Hs. apply string_of_uint_digits.
  - rewrite Hs. destruct d; simpl; congruence.
  - apply NilZero.usu, Hn.
Qed.

(** [int(str(z))] is [z]. *)
Lemma py_int_str (z : Z) : py_int (py_str z) = Some z.
Proof.
  destruct z as [|p|p]; [reflexivity| |].
  - change (py_str (Z.pos p)) with (NilZero.string_of_uint (Pos.to_uint p)).
    destruct (py_int_uint _ (Unsigned.to_uint_nonnil p)) as [-> _].
    f_equal. exact (DecimalZ.of_to (Z.pos p)).
  - change (py_str (Z.neg p))
      with (String "-" (NilZero.string_of_uint (Pos.to_uint p))).
    destruct (py_int_uint _ (Unsigned.to_uint_nonnil p)) as [_ ->].
    f_equal. exact (DecimalZ.of_to (Z.neg p)).
Qed.

Lemma py_str_inj (a b : Z) : py_str a = py_str b -> a = b.
Proof.
  intros H. pose proof (py_int_str a) as Ha. rewrite H, py_int_str in Ha.
  congruence.
Qed.

Lemma py_str_nonempty (z : Z) : py_str z <> EmptyString.
Proof.
  intros H. pose proof (py_int_str z) as Hz. rewrite H in Hz. discriminate.
Qed.

Lemma append_inj_l (p a b : string) : p +:+ a = p +:+ b -> a = b.
Proof. induction p; simpl; [auto|]. intros [= H]. auto. Qed.

Lemma startswith_append (p s : string) : startswith (p +:+ s) p = true.
Proof.
  induction p as [|c p IH]; simpl.
  - destruct s; reflexivity.
  - rewrite Ascii.eqb_refl. exact IH.
Qed.

Lemma str_drop_append (p s : string) : str_drop (String.length p) (p +:+ s) = s.
Proof. induction p; simpl; [destruct s; reflexivity|assumption]. Qed.

Lemma next_suffix_ge prefix suffix node :
  (suffix <= next_suffix prefix suffix node)%Z.
Proof.
  unfold next_suffix. destruct (name node); [lia|].
  destruct (startswith _ prefix); [|lia].
  destruct (py_int _); lia.
Qed.

Lemma fold_next_suffix_ge prefix ns : forall acc,
  (acc <= fold_left (next_suffix prefix) ns acc)%Z.
Proof.
  induction ns as [|n ns IH]; intros acc; simpl; [lia|].
  pose proof (next_suffix_ge prefix acc n). specialize (IH (next_suffix prefix acc n)).
  lia.
Qed.

Lemma fold_next_suffix_above prefix ns : forall acc k,
  In (prefix +:+ py_str k) (List.map name ns) ->
  (k + 1 <= fold_left (next_suffix prefix) ns acc)%Z.
Proof.
  induction ns as [|n ns IH]; intros acc k Hin; simpl in *; [contradiction|].
  destruct Hin as [Hn|Hin]; [|apply IH, Hin].
  pose proof (fold_next_suffix_ge prefix ns (next_suffix prefix acc n)) as Hge.
  assert (k + 1 <= next_suffix prefix acc n)%Z; [|lia].
  unfold next_suffix. rewrite Hn.
  destruct (prefix +:+ py_str k) eqn:E.
  - exfalso. destruct prefix; simpl in E; [|discriminate].
    apply (py_str_nonempty k E).
  - rewrite <- E, startswith_append, str_drop_append, py_int_str. lia.
Qed.

Lemma create_node_name_known op name_prefix st last :
  _node_name_suffix st !! node_prefix op name_prefix = Some last ->
  create_node_name op name_prefix st =
  Ok (node_prefix op name_prefix +:+ py_str (last + 1),
      set_node_name_suffix
        (<[node_prefix op name_prefix := (last + 1)%Z]> (_node_name_suffix st))
        st).
Proof.
  intros H. unfold create_node_name, bind, get. rewrite H. reflexivity.
Qed.

Lemma create_node_name_unknown op name_prefix st :
  _node_name_suffix st !! node_prefix op name_prefix = None ->
  create_node_name op name_prefix st =
  Ok (node_prefix op name_prefix +:+
        py_str (fold_left (next_suffix (node_prefix op name_prefix))
                          (nodes_of st) 0%Z),
      set_node_name_suffix
        (<[node_prefix op name_prefix :=
             fold_left (next_suffix (node_prefix op name_prefix))
                       (nodes_of st) 0%Z]> (_node_name_suffix st))
        (cached st)).
Proof.
  intros H. unfold create_node_name, bind, get. rewrite H, nodes_eq.
  reflexivity.
Qed.

(** When the ledger is ahead of the graphs for the prefix (it has no entry
    for it, as at the first request of a session, or no node carries the
    prefix with a number above the entry), two calls of [create_node_name]
    in a row return two distinct names, neither of which names a node of
    the discovered graphs. *)
Theorem create_node_name_fresh (st : OnnxModel) (op : string)
    (name_prefix : option string) :
  ledger_ahead st (node_prefix op name_prefix) ->
  mints_fresh_names st op name_prefix.
Proof.
  unfold ledger_ahead, mints_fresh_names.
  set (prefix := node_prefix op name_prefix).
  intros Hahead.
  destruct (_node_name_suffix st !! prefix) as [last|] eqn:E.
  - eexists _, _, _, _.
    split; [apply (create_node_name_known op name_prefix st last E)|].
    split.
    { apply create_node_name_known. simpl. apply lookup_insert_eq. }
    fold prefix. split; [|split].
    + intros H. apply append_inj_l, py_str_inj in H. lia.
    + intros H. apply Hahead in H. lia.
    + intros H. apply Hahead in H. lia.
  - eexists _, _, _, _.
    split; [apply (create_node_name_unknown op name_prefix st E)|].
    split.
    { apply create_node_name_known. simpl. apply lookup_insert_eq. }
    fold prefix. split; [|split].
    + intros H. apply append_inj_l, py_str_inj in H. lia.
    + intros H. apply (fold_next_suffix_above prefix _ 0%Z) in H. lia.
    + intros H. apply (fold_next_suffix_above prefix _ 0%Z) in H. lia.
Qed.

Lemma create_node_name_fresh_witness : mints_fresh_names fresh_session "Add" None.
Proof.
  apply (create_node_name_fresh fresh_session "Add" None). exact I.
Defined.

(** C9.  The docstring of [create_node_name] promises a name that is not
    duplicated with any name generated or existing in the graphs.  In the
    session where ["Add_0"] was minted before a node named ["Add_1"] came
    in, the ledger has an entry for the prefix, the names of the graphs are
    not read again, and the call returns ["Add_1"], the name of a node of
    the graph: the names minted by two calls in a row are not both new. *)
Theorem create_node_name_collides :
  In "Add_1"%string (node_names stale_session) /\
  create_node_name "Add" None stale_session =
    Ok ("Add_1"%string,
        set_node_name_suffix {["Add_"%string := 1%Z]} stale_session) /\
  ~ mints_fresh_names stale_session "Add" None.
Proof.
  assert (H : create_node_name "Add" None stale_session =
              Ok ("Add_1"%string, set_node_name_suffix {["Add_"%string := 1%Z]}
                                    stale_session))
    by (vm_compute; reflexivity).
  split; [right; left; reflexivity|]. split; [exact H|].
  intros (n1 & st1 & n2 & st2 & H1 & _ & _ & Hnew & _).
  rewrite H in H1. injection H1 as <- _.
  apply Hnew. right. left. reflexivity.
Qed.

(** ** Traversals *)

Lemma node_in_spec x l :
  node_in x l = true <-> exists y, In y l /\ erase_node x = erase_node y.
Proof.
  unfold node_in, node_eqb. rewrite existsb_exists.
  split; intros (y & Hy & H); exists y; split; try assumption.
  - apply bool_decide_eq_true in H. exact H.
  - apply bool_decide_eq_true. exact H.
Qed.

Lemma node_in_false x l :
  node_in x l = false <-> forall y, In y l -> erase_node x <> erase_node y.
Proof.
  split.
  - intros H y Hy He.
    assert (node_in x l = true) by (apply node_in_spec; eauto). congruence.
  - intros H. destruct (node_in x l) eqn:E; [|reflexivity].
    apply node_in_spec in E as (y & Hy & He). destruct (H y Hy He).
Qed.

Lemma node_in_self x l : In x l -> node_in x l = true.
Proof. intros H. apply node_in_spec. exists x. auto. Qed.

Lemma node_in_respects x y l :
  erase_node x = erase_node y -> node_in x l = node_in y l.
Proof.
  intros H. unfold node_in, node_eqb. rewrite H. reflexivity.
Qed.

Lemma node_in_app x l1 l2 :
  node_in x (l1 ++ l2) = node_in x l1 || node_in x l2.
Proof. apply existsb_app. Qed.

Lemma node_in_cons x y l :
  node_in x (y :: l) = node_eqb x y || node_in x l.
Proof. reflexivity. Qed.

Lemma node_in_nil x : node_in x [] = false.
Proof. reflexivity. Qed.

Lemma list_sum_map_le {A} (f g : A -> nat) (l : list A) :
  (forall y, f y <= g y) ->
  list_sum (List.map f l) <= list_sum (List.map g l).
Proof.
  intros H. induction l as [|y l IH]; [apply Nat.le_refl|].
  change (f y + list_sum (List.map f l) <= g y + list_sum (List.map g l)).
  specialize (H y). lia.
Qed.

Section Traversal.
Variable next : NodeProto -> list NodeProto.
Variable stop_nodes : list NodeProto.

(** *** The loops with a list of visited nodes come to an end *)

Variable universe : list NodeProto.
Hypothesis next_in_universe : forall x y, In y (next x) -> In y universe.

Lemma unvisited_term_mono (unique_nodes : list NodeProto) x y :
  (if node_in y (unique_nodes ++ [x]) then 0 else S (length (next y)))
  <= (if node_in y unique_nodes then 0 else S (length (next y))).
Proof.
  rewrite node_in_app. destruct (node_in y unique_nodes); [simpl; lia|].
  change (false || node_in y [x]) with (node_in y [x]).
  destruct (node_in y [x]); lia.
Qed.

Lemma unvisited_weight_visit (l unique_nodes : list NodeProto) x :
  In x l -> node_in x unique_nodes = false ->
  unvisited_weight next l (unique_nodes ++ [x]) + S (length (next x))
  <= unvisited_weight next l unique_nodes.
Proof.
  intros Hin Hnew. apply in_split in Hin as (l1 & l2 & ->).
  unfold unvisited_weight.
  rewrite !List.map_app, !list_sum_app.
  pose proof (list_sum_map_le _ _ l1 (unvisited_term_mono unique_nodes x)).
  pose proof (list_sum_map_le _ _ l2 (unvisited_term_mono unique_nodes x)).
  change (List.map ?f (x :: l2)) with (f x :: List.map f l2).
  change (list_sum (?a :: ?r)) with (a + list_sum r). cbv beta.
  rewrite Hnew, node_in_app, (node_in_self x [x]) by (left; reflexivity).
  rewrite orb_true_r. lia.
Qed.

Lemma subgraph_loop_terminates fuel : forall dq unique_nodes,
  Forall (fun x => In x universe) dq ->
  length dq + unvisited_weight next universe unique_nodes <= fuel ->
  exists r, subgraph_loop next stop_nodes fuel dq unique_nodes = Ok r.
Proof.
  induction fuel as [|fuel IH]; intros dq unique_nodes Hdq Hfuel.
  - destruct dq; [|simpl in Hfuel; lia]. exists unique_nodes. reflexivity.
  - destruct dq as [|cur dq]; [exists unique_nodes; reflexivity|].
    apply Forall_cons in Hdq as [Hcur Hdq]. simpl in Hfuel. simpl.
    destruct (node_in cur stop_nodes).
    + apply IH; [exact Hdq|lia].
    + destruct (node_in cur unique_nodes) eqn:E; simpl.
      * apply IH; [exact Hdq|lia].
      * pose proof (unvisited_weight_visit universe unique_nodes cur Hcur E).
        apply IH.
        -- apply Forall_app. split; [exact Hdq|].
           apply Forall_forall. intros y Hy.
           apply (next_in_universe cur y). apply list_elem_of_In, Hy.
        -- rewrite length_app. lia.
Qed.

(** *** The loops with no list of visited nodes come to an end when the
    edges form no cycle *)

Lemma walk_cost_mono k : forall x, walk_cost next k x <= walk_cost next (S k) x.
Proof.
  induction k as [|k IH]; intros x.
  - simpl. lia.
  - change (walk_cost next (S (S k)) x)
      with (S (list_sum (List.map (walk_cost next (S k)) (next x)))).
    change (walk_cost next (S k) x)
      with (S (list_sum (List.map (walk_cost next k) (next x)))).
    apply le_n_S, list_sum_map_le, IH.
Qed.

Lemma walk_cost_le j k x : j <= k -> walk_cost next j x <= walk_cost next k x.
Proof.
  induction 1 as [|k Hle IH]; [lia|].
  pose proof (walk_cost_mono k x). lia.
Qed.

Variable rank : NodeProto -> nat.
Hypothesis rank_descends : descends next universe rank.

Lemma walk_cost_next x :
  In x universe ->
  list_sum (List.map (fun y => walk_cost next (rank y) y) (next x))
  < walk_cost next (rank x) x.
Proof.
  intros Hx.
  assert (H : forall l, (forall y, In y l -> rank y < rank x) ->
            list_sum (List.map (fun y => walk_cost next (rank y) y) l)
            <= list_sum (List.map (walk_cost next (Nat.pred (rank x))) l)).
  { induction l as [|y l IHl]; intros Hl; [apply Nat.le_refl|].
    assert (Hy : rank y < rank x) by (apply Hl; left; reflexivity).
    assert (Hle : rank y <= Nat.pred (rank x)) by lia.
    pose proof (walk_cost_le (rank y) (Nat.pred (rank x)) y Hle).
    specialize (IHl (fun z Hz => Hl z (or_intror Hz))).
    change (walk_cost next (rank y) y +
            list_sum (List.map (fun y => walk_cost next (rank y) y) l)
            <= walk_cost next (Nat.pred (rank x)) y +
               list_sum (List.map (walk_cost next (Nat.pred (rank x))) l)).
    lia. }
  specialize (H (next x) (fun y Hy => rank_descends x y Hx Hy)).
  destruct (rank x) as [|k] eqn:E.
  - destruct (next x) as [|y l] eqn:En; [simpl; lia|].
    assert (rank y < rank x) by (apply rank_descends; [exact Hx|];
                                 rewrite En; left; reflexivity).
    lia.
  - simpl in *. lia.
Qed.

Lemma find_first_loop_terminates wanted fuel : forall dq,
  Forall (fun x => In x universe) dq ->
  list_sum (List.map (fun y => walk_cost next (rank y) y) dq) <= fuel ->
  exists r, find_first_loop next wanted true fuel dq = Ok r.
Proof.
  induction fuel as [|fuel IH]; intros dq Hdq Hfuel.
  - destruct dq as [|x dq]; [exists None; reflexivity|].
    simpl in Hfuel. destruct (rank x); simpl in Hfuel; lia.
  - destruct dq as [|cur dq]; [exists None; reflexivity|].
    apply Forall_cons in Hdq as [Hcur Hdq]. simpl in Hfuel. simpl.
    destruct (bool_decide (op_type cur = wanted));
      [exists (Some cur); reflexivity|].
    apply IH.
    + apply Forall_app. split; [exact Hdq|].
      apply Forall_forall. intros y Hy.
      apply (next_in_universe cur y). apply list_elem_of_In, Hy.
    + rewrite List.map_app, list_sum_app.
      pose proof (walk_cost_next cur Hcur). lia.
Qed.

Lemma find_first_loop_flat wanted fuel : forall dq,
  length dq <= fuel ->
  exists r, find_first_loop next wanted false fuel dq = Ok r.
Proof.
  induction fuel as [|fuel IH]; intros dq Hfuel.
  - destruct dq; [exists None; reflexivity|simpl in Hfuel; lia].
  - destruct dq as [|cur dq]; [exists None; reflexivity|].
    simpl in Hfuel. simpl.
    destruct (bool_decide (op_type cur = wanted));
      [exists (Some cur); reflexivity|].
    apply IH. lia.
Qed.
End Traversal.

Section TraversalResult.
Variable next : NodeProto -> list NodeProto.
Variable stop_nodes : list NodeProto.
Variable seeds : list NodeProto.
Hypothesis next_respects :
  forall x y, erase_node x = erase_node y -> next x = next y.

(** [y] is a stop node, or is collected, or waits in the deque. *)
Local Abbreviation covered y dq unique_nodes :=
  (node_in y stop_nodes = true \/ node_in y unique_nodes = true \/
   node_in y dq = true).

Lemma covered_at_end unique_nodes :
  (forall s, In s seeds -> covered s [] unique_nodes) ->
  (forall x y, In x unique_nodes -> In y (next x) -> covered y [] unique_nodes) ->
  forall x, reaches next stop_nodes seeds x -> node_in x unique_nodes = true.
Proof.
  intros Hseeds Hclosed x Hx.
  induction Hx as [s Hs Hstop|x y Hx IH Hy Hstop].
  - destruct (Hseeds s Hs) as [H|[H|H]]; [congruence|exact H|discriminate].
  - apply node_in_spec in IH as (x' & Hx' & He).
    rewrite (next_respects x x' He) in Hy.
    destruct (Hclosed x' y Hx' Hy) as [H|[H|H]];
      [congruence|exact H|discriminate].
Qed.

Lemma subgraph_loop_result fuel : forall dq unique_nodes r,
  subgraph_loop next stop_nodes fuel dq unique_nodes = Ok r ->
  (forall x, In x unique_nodes -> reaches next stop_nodes seeds x) ->
  (forall x, In x dq ->
     In x seeds \/ exists p, reaches next stop_nodes seeds p /\ In x (next p)) ->
  (forall s, In s seeds -> covered s dq unique_nodes) ->
  (forall x y, In x unique_nodes -> In y (next x) ->
               covered y dq unique_nodes) ->
  NoDup (List.map erase_node unique_nodes) ->
  (forall x, In x r -> reaches next stop_nodes seeds x) /\
  (forall x, reaches next stop_nodes seeds x -> node_in x r = true) /\
  NoDup (List.map erase_node r).
Proof.
  induction fuel as [|fuel IH]; intros dq unique_nodes r Hrun Hu Hdq Hs Hc Hnd.
  - destruct dq; [|discriminate]. injection Hrun as <-.
    split; [exact Hu|]. split; [|exact Hnd].
    apply covered_at_end; assumption.
  - destruct dq as [|cur dq].
    { injection Hrun as <-. split; [exact Hu|]. split; [|exact Hnd].
      apply covered_at_end; assumption. }
    simpl in Hrun.
    assert (Heq : forall y, node_eqb y cur = true ->
                            forall l, node_in y l = node_in cur l).
    { intros y Hy l. apply node_in_respects.
      apply bool_decide_eq_true in Hy. exact Hy. }
    destruct (node_in cur stop_nodes) eqn:Estop.
    + apply (IH dq unique_nodes r Hrun Hu).
      * intros x Hx. apply Hdq. right. exact Hx.
      * intros s Hin. destruct (Hs s Hin) as [H|[H|H]]; auto.
        rewrite node_in_cons in H. apply orb_true_iff in H as [H|H]; auto.
        left. rewrite (Heq s H). exact Estop.
      * intros x y Hx Hy. destruct (Hc x y Hx Hy) as [H|[H|H]]; auto.
        rewrite node_in_cons in H. apply orb_true_iff in H as [H|H]; auto.
        left. rewrite (Heq y H). exact Estop.
      * exact Hnd.
    + destruct (node_in cur unique_nodes) eqn:Eseen; simpl in Hrun.
      * apply (IH dq unique_nodes r Hrun Hu).
        -- intros x Hx. apply Hdq. right. exact Hx.
        -- intros s Hin. destruct (Hs s Hin) as [H|[H|H]]; auto.
           rewrite node_in_cons in H. apply orb_true_iff in H as [H|H]; auto.
           right. left. rewrite (Heq s H). exact Eseen.
        -- intros x y Hx Hy. destruct (Hc x y Hx Hy) as [H|[H|H]]; auto.
           rewrite node_in_cons in H. apply orb_true_iff in H as [H|H]; auto.
           right. left. rewrite (Heq y H). exact Eseen.
        -- exact Hnd.
      * assert (Hcur : reaches next stop_nodes seeds cur).
        { destruct (Hdq cur (or_introl eq_refl)) as [H|(p & Hp & H)].
          - apply reaches_seed; assumption.
          - apply (reaches_step _ _ _ p); assumption. }
        assert (Hlift : forall y, covered y (cur :: dq) unique_nodes ->
                  covered y (dq ++ next cur) (unique_nodes ++ [cur])).
        { intros y [H|[H|H]]; [left; exact H| |].
          - right. left. rewrite node_in_app, H. reflexivity.
          - rewrite node_in_cons in H. apply orb_true_iff in H as [H|H].
            + right. left. rewrite node_in_app, node_in_cons, H.
              apply orb_true_r.
            + right. right. rewrite node_in_app, H. reflexivity. }
        apply (IH (dq ++ next cur) (unique_nodes ++ [cur]) r Hrun).
        -- intros x Hx. apply in_app_or in Hx as [Hx|[<-|[]]]; auto.
        -- intros x Hx. apply in_app_or in Hx as [Hx|Hx].
           ++ apply Hdq. right. exact Hx.
           ++ right. exists cur. split; assumption.
        -- intros s Hin. apply Hlift, Hs, Hin.
        -- intros x y Hx Hy. apply in_app_or in Hx as [Hx|[<-|[]]].
           ++ apply Hlift, (Hc x y Hx Hy).
           ++ right. right. apply node_in_self, in_or_app. right. exact Hy.
        -- rewrite List.map_app. apply NoDup_app. split; [exact Hnd|].
           split; [|apply NoDup_singleton].
           intros e He Hcur'. apply list_elem_of_singleton in Hcur' as ->.
           apply list_elem_of_In, in_map_iff in He as (z & Hz & Hin).
           apply (proj1 (node_in_false cur unique_nodes) Eseen z Hin).
           symmetry. exact Hz.
Qed.
End TraversalResult.

(** *** The dictionaries *)

Lemma children_of_respects d x y :
  erase_node x = erase_node y -> children_of d x = children_of d y.
Proof.
  intros H. unfold children_of.
  change (output x) with (output (erase_node x)). rewrite H. reflexivity.
Qed.

Lemma parents_of_respects d x y :
  erase_node x = erase_node y -> parents_of d x = parents_of d y.
Proof.
  intros H. unfold parents_of.
  change (input x) with (input (erase_node x)). rewrite H. reflexivity.
Qed.

Lemma dict_values_in (d : gmap string (list NodeProto)) k l y :
  d !! k = Some l -> In y l -> In y (dict_values d).
Proof.
  intros Hk Hy. unfold dict_values. apply in_flat_map.
  exists (k, l). split; [|exact Hy].
  apply list_elem_of_In, elem_of_map_to_list, Hk.
Qed.

Lemma dict_nodes_in (d : gmap string NodeProto) k y :
  d !! k = Some y -> In y (dict_nodes d).
Proof.
  intros Hk. unfold dict_nodes. apply in_map_iff.
  exists (k, y). split; [reflexivity|].
  apply list_elem_of_In, elem_of_map_to_list, Hk.
Qed.

Lemma children_of_in d x y :
  In y (children_of d x) -> exists k l, d !! k = Some l /\ In y l.
Proof.
  unfold children_of. intros H. apply in_flat_map in H as (k & _ & Hy).
  destruct (d !! k) as [l|] eqn:E; [|destruct Hy]. exists k, l. auto.
Qed.

Lemma parents_of_in d x y :
  In y (parents_of d x) -> exists k, d !! k = Some y.
Proof.
  unfold parents_of. intros H. apply in_flat_map in H as (k & _ & Hy).
  destruct (d !! k) as [p|] eqn:E; [|destruct Hy].
  destruct Hy as [<-|[]]. exists k. exact E.
Qed.

Lemma index_inputs_in ns k l y :
  index_inputs ns !! k = Some l -> In y l -> In y ns.
Proof.
  unfold index_inputs.
  assert (H : forall (todo : list NodeProto) (acc : gmap string (list NodeProto)),
            (forall k l y, acc !! k = Some l -> In y l -> In y ns) ->
            (forall n, In n todo -> In n ns) ->
            forall k l y,
              fold_left (fun d node =>
                fold_left (fun d input_name =>
                  match d !! input_name with
                  | None => <[input_name := [node]]> d
                  | Some l => <[input_name := l ++ [node]]> d
                  end) (input node) d) todo acc !! k = Some l ->
              In y l -> In y ns).
  { induction todo as [|n todo IH]; intros acc Hacc Htodo; simpl.
    - exact Hacc.
    - apply IH; [|intros m Hm; apply Htodo; right; exact Hm].
      assert (Hn : In n ns) by (apply Htodo; left; reflexivity).
      clear IH Htodo. revert acc Hacc.
      induction (input n) as [|i ins IHi]; intros acc Hacc; simpl;
        [exact Hacc|].
      apply IHi. intros k' l' y' Hl Hy.
      destruct (acc !! i) as [l0|] eqn:E.
      + destruct (decide (k' = i)) as [->|Hne].
        * rewrite lookup_insert_eq in Hl. injection Hl as <-.
          apply in_app_or in Hy as [Hy|[<-|[]]]; [|exact Hn].
          apply (Hacc i l0 y' E Hy).
        * rewrite lookup_insert_ne in Hl by congruence.
          apply (Hacc k' l' y' Hl Hy).
      + destruct (decide (k' = i)) as [->|Hne].
        * rewrite lookup_insert_eq in Hl. injection Hl as <-.
          destruct Hy as [<-|[]]. exact Hn.
        * rewrite lookup_insert_ne in Hl by congruence.
          apply (Hacc k' l' y' Hl Hy). }
  apply (H ns ∅); [|auto].
  intros k' l' y' Hl. rewrite lookup_empty in Hl. discriminate.
Qed.

Lemma index_outputs_in ns k y : index_outputs ns !! k = Some y -> In y ns.
Proof.
  unfold index_outputs.
  assert (H : forall (todo : list NodeProto) (acc : gmap string NodeProto),
            (forall k y, acc !! k = Some y -> In y ns) ->
            (forall n, In n todo -> In n ns) ->
            forall k y,
              fold_left (fun d node =>
                fold_left (fun d output_name => <[output_name := node]> d)
                          (output node) d) todo acc !! k = Some y ->
              In y ns).
  { induction todo as [|n todo IH]; intros acc Hacc Htodo; simpl.
    - exact Hacc.
    - apply IH; [|intros m Hm; apply Htodo; right; exact Hm].
      assert (Hn : In n ns) by (apply Htodo; left; reflexivity).
      clear IH Htodo. revert acc Hacc.
      induction (output n) as [|o outs IHo]; intros acc Hacc; simpl;
        [exact Hacc|].
      apply IHo. intros k' y' Hl.
      destruct (decide (k' = o)) as [->|Hne].
      + rewrite lookup_insert_eq in Hl. injection Hl as <-. exact Hn.
      + rewrite lookup_insert_ne in Hl by congruence.
        apply (Hacc k' y' Hl). }
  apply (H ns ∅); [|auto].
  intros k' y' Hl. rewrite lookup_empty in Hl. discriminate.
Qed.

Lemma py_getitem_first {A} (l : list A) :
  py_getitem l 0%Z = match l !! 0 with
                     | Some x => Ok x
                     | None => Raise IndexError
                     end.
Proof. destruct l; reflexivity. Qed.

Lemma get_children_subgraph_nodes_eq fuel root stop_nodes arg st :
  get_children_subgraph_nodes fuel root stop_nodes arg st =
  res_bind (get_children_subgraph_nodes_in fuel
              (default (index_inputs (nodes_of st)) arg) root stop_nodes)
           (fun r => Ok (r, after_query arg st)).
Proof.
  unfold get_children_subgraph_nodes, bind, lift.
  destruct arg as [d|]; simpl.
  - destruct (get_children_subgraph_nodes_in _ _ _ _); reflexivity.
  - unfold input_name_to_nodes, bind. rewrite nodes_eq. simpl.
    destruct (get_children_subgraph_nodes_in _ _ _ _); reflexivity.
Qed.

Lemma get_parent_subgraph_nodes_eq fuel node stop_nodes arg st :
  get_parent_subgraph_nodes fuel node stop_nodes arg st =
  res_bind (get_parent_subgraph_nodes_in fuel
              (default (index_outputs (nodes_of st)) arg) node stop_nodes)
           (fun r => Ok (r, after_query arg st)).
Proof.
  unfold get_parent_subgraph_nodes, bind, lift.
  destruct arg as [d|]; simpl.
  - destruct (get_parent_subgraph_nodes_in _ _ _ _); reflexivity.
  - unfold output_name_to_node, bind. rewrite nodes_eq. simpl.
    destruct (get_parent_subgraph_nodes_in _ _ _ _); reflexivity.
Qed.

Lemma Forall_in_rev {A} (l u : list A) :
  (forall x, In x l -> In x u) -> Forall (fun x => In x u) (deque l).
Proof.
  intros H. apply Forall_forall. intros x Hx. apply H.
  apply list_elem_of_In in Hx. apply in_rev. exact Hx.
Qed.

(** C10. [get_children_subgraph_nodes] looks the first output of the root up
    in the dictionary of consumers ([d]: the one passed, or the one computed
    from the model) and nothing guards the lookup.  When the name is a key
    of [d], the call returns (from some budget of fuel on), and what it
    returns is the set of the nodes reached from the consumers of that name,
    stop nodes left out, each node once.  When the name is not a key the
    call raises [KeyError].  The root matters through its first output
    only. *)
Theorem get_children_subgraph_nodes_partial (st : OnnxModel)
    (root : NodeProto) (stop_nodes : list NodeProto)
    (arg : option (gmap string (list NodeProto)))
    (d : gmap string (list NodeProto)) :
  d = default (index_inputs (nodes_of st)) arg ->
  (forall out0 seeds,
     output root !! 0 = Some out0 -> d !! out0 = Some seeds ->
     exists fuel0, forall fuel, fuel0 <= fuel ->
       exists r,
         get_children_subgraph_nodes fuel root stop_nodes arg st
           = Ok (r, after_query arg st) /\
         (forall x, node_in x r = true <->
                    exists y, reaches (children_of d) stop_nodes seeds y /\
                              erase_node y = erase_node x) /\
         NoDup (List.map erase_node r)) /\
  (forall out0 fuel,
     output root !! 0 = Some out0 -> d !! out0 = None ->
     get_children_subgraph_nodes fuel root stop_nodes arg st = Raise KeyError) /\
  (forall root' fuel,
     output root' !! 0 = output root !! 0 ->
     get_children_subgraph_nodes fuel root' stop_nodes arg st =
     get_children_subgraph_nodes fuel root stop_nodes arg st).
Proof.
  intros ->. set (d := default (index_inputs (nodes_of st)) arg).
  split; [|split].
  - intros out0 seeds Hout Hseeds.
    exists (length (deque seeds) +
            unvisited_weight (children_of d) (dict_values d) []).
    intros fuel Hfuel.
    destruct (subgraph_loop_terminates (children_of d) stop_nodes
                (dict_values d)
                (fun x y Hy =>
                   match children_of_in d x y Hy with
                   | ex_intro _ k (ex_intro _ l (conj Hk Hl)) =>
                       dict_values_in d k l y Hk Hl
                   end)
                fuel (deque seeds) []
                (Forall_in_rev seeds (dict_values d)
                   (fun x Hx => dict_values_in d out0 seeds x Hseeds Hx))
                Hfuel) as [r Hr].
    exists r. split.
    + rewrite get_children_subgraph_nodes_eq. fold d.
      unfold get_children_subgraph_nodes_in.
      rewrite py_getitem_first, Hout. simpl.
      unfold py_dict_get. rewrite Hseeds. simpl. rewrite Hr. reflexivity.
    + destruct (subgraph_loop_result (children_of d) stop_nodes seeds
                  (children_of_respects d) fuel (deque seeds) [] r Hr)
        as (Hsound & Hcomplete & Hnodup).
      * intros x [].
      * intros x Hx. left. apply in_rev. exact Hx.
      * intros s Hs. right. right. apply node_in_self.
        apply in_rev in Hs. exact Hs.
      * intros x y [].
      * constructor.
      * split; [|exact Hnodup]. intros x. split.
        -- intros Hx. apply node_in_spec in Hx as (y & Hy & He).
           exists y. split; [apply Hsound, Hy|symmetry; exact He].
        -- intros (y & Hy & He).
           rewrite <- (node_in_respects y x r He). apply Hcomplete, Hy.
  - intros out0 fuel Hout Hnone.
    rewrite get_children_subgraph_nodes_eq. fold d.
    unfold get_children_subgraph_nodes_in.
    rewrite py_getitem_first, Hout. simpl.
    unfold py_dict_get. rewrite Hnone. reflexivity.
  - intros root' fuel Hsame.
    rewrite !get_children_subgraph_nodes_eq.
    unfold get_children_subgraph_nodes_in.
    rewrite !py_getitem_first, Hsame. reflexivity.
Qed.

Lemma get_children_subgraph_nodes_partial_witness :
  exists fuel0, forall fuel, fuel0 <= fuel ->
    exists r,
      get_children_subgraph_nodes fuel relu_node [] None recurrent_model
        = Ok (r, cached recurrent_model) /\
      (forall x, node_in x r = true <->
         exists y,
           reaches (children_of (index_inputs (nodes_of recurrent_model)))
                   [] [clip_node] y /\
           erase_node y = erase_node x) /\
      NoDup (List.map erase_node r).
Proof.
  apply (proj1 (get_children_subgraph_nodes_partial recurrent_model relu_node
                  [] None _ eq_refl) "r"%string [clip_node]).
  - reflexivity.
  - vm_compute. reflexivity.
Defined.

Lemma find_first_child_by_type_eq fuel node child_type arg recursive st :
  find_first_child_by_type fuel node child_type arg recursive st =
  let d := default (index_inputs (nodes_of st)) arg in
  res_bind (find_first_loop (children_of d) child_type recursive fuel
              (deque (children_of d node)))
           (fun r => Ok (r, after_query arg st)).
Proof.
  unfold find_first_child_by_type, bind, lift.
  destruct arg as [d|]; simpl.
  - destruct (find_first_loop _ _ _ _ _); reflexivity.
  - unfold input_name_to_nodes, bind. rewrite nodes_eq. simpl.
    destruct (find_first_loop _ _ _ _ _); reflexivity.
Qed.

Lemma find_first_parent_by_type_eq fuel node parent_type arg recursive st :
  find_first_parent_by_type fuel node parent_type arg recursive st =
  let d := default (index_outputs (nodes_of st)) arg in
  res_bind (find_first_loop (parents_of d) parent_type recursive fuel
              (deque (parents_of d node)))
           (fun r => Ok (r, after_query arg st)).
Proof.
  unfold find_first_parent_by_type, bind, lift.
  destruct arg as [d|]; simpl.
  - destruct (find_first_loop _ _ _ _ _); reflexivity.
  - unfold output_name_to_node, bind. rewrite nodes_eq. simpl.
    destruct (find_first_loop _ _ _ _ _); reflexivity.
Qed.

Lemma children_of_index_inputs_in ns x y :
  In y (children_of (index_inputs ns) x) -> In y ns.
Proof.
  intros H. apply children_of_in in H as (k & l & Hk & Hy).
  apply (index_inputs_in ns k l y Hk Hy).
Qed.

Lemma parents_of_index_outputs_in ns x y :
  In y (parents_of (index_outputs ns) x) -> In y ns.
Proof.
  intros H. apply parents_of_in in H as (k & Hk).
  apply (index_outputs_in ns k y Hk).
Qed.

(** C8, as the traversals are written.  The two traversals that keep the
    list of the nodes they have collected, [get_children_subgraph_nodes] and
    [get_parent_subgraph_nodes], return on every model and for every
    dictionary, cycles or not.  [find_first_child_by_type] and
    [find_first_parent_by_type] keep no such list: they return when the
    search is not recursive, and, recursive, when the edges they follow
    between the nodes of the model form no cycle. *)
Theorem traversals_return (st : OnnxModel) (node : NodeProto)
    (stop_nodes : list NodeProto) (wanted : string)
    (consumers : option (gmap string (list NodeProto)))
    (producers : option (gmap string NodeProto)) :
  returns (fun fuel =>
             get_children_subgraph_nodes fuel node stop_nodes consumers) st /\
  returns (fun fuel =>
             get_parent_subgraph_nodes fuel node stop_nodes producers) st /\
  returns (fun fuel =>
             find_first_child_by_type fuel node wanted consumers false) st /\
  returns (fun fuel =>
             find_first_parent_by_type fuel node wanted producers false) st /\
  (acyclic_forward st ->
   returns (fun fuel => find_first_child_by_type fuel node wanted None true)
           st) /\
  (acyclic_backward st ->
   returns (fun fuel => find_first_parent_by_type fuel node wanted None true)
           st).
Proof.
  unfold returns. repeat split.
  - set (d := default (index_inputs (nodes_of st)) consumers).
    destruct (py_getitem (output node) 0%Z) as [out0| |] eqn:Eout.
    + destruct (py_dict_get d out0) as [seeds| |] eqn:Eseeds.
      * exists (length (deque seeds) +
                unvisited_weight (children_of d) (dict_values d) []).
        intros fuel Hfuel.
        assert (Hd : d !! out0 = Some seeds).
        { unfold py_dict_get in Eseeds. destruct (d !! out0); congruence. }
        destruct (subgraph_loop_terminates (children_of d) stop_nodes
                    (dict_values d)
                    (fun x y Hy =>
                       match children_of_in d x y Hy with
                       | ex_intro _ k (ex_intro _ l (conj Hk Hl)) =>
                           dict_values_in d k l y Hk Hl
                       end)
                    fuel (deque seeds) []
                    (Forall_in_rev seeds (dict_values d)
                       (fun x Hx => dict_values_in d out0 seeds x Hd Hx))
                    Hfuel) as [r Hr].
        rewrite get_children_subgraph_nodes_eq. fold d.
        unfold get_children_subgraph_nodes_in.
        rewrite Eout. simpl. rewrite Eseeds. simpl. rewrite Hr. discriminate.
      * exists 0. intros fuel _.
        rewrite get_children_subgraph_nodes_eq. fold d.
        unfold get_children_subgraph_nodes_in.
        rewrite Eout. simpl. rewrite Eseeds. discriminate.
      * unfold py_dict_get in Eseeds. destruct (d !! out0); discriminate.
    + exists 0. intros fuel _.
      rewrite get_children_subgraph_nodes_eq.
      unfold get_children_subgraph_nodes_in. rewrite Eout. discriminate.
    + rewrite py_getitem_first in Eout.
      destruct (output node !! 0); discriminate.
  - set (d := default (index_outputs (nodes_of st)) producers).
    exists (length (deque (parents_of d node)) +
            unvisited_weight (parents_of d) (dict_nodes d) []).
    intros fuel Hfuel.
    destruct (subgraph_loop_terminates (parents_of d) stop_nodes
                (dict_nodes d)
                (fun x y Hy =>
                   match parents_of_in d x y Hy with
                   | ex_intro _ k Hk => dict_nodes_in d k y Hk
                   end)
                fuel (deque (parents_of d node)) []
                (Forall_in_rev (parents_of d node) (dict_nodes d)
                   (fun x Hx =>
                      match parents_of_in d node x Hx with
                      | ex_intro _ k Hk => dict_nodes_in d k x Hk
                      end))
                Hfuel) as [r Hr].
    rewrite get_parent_subgraph_nodes_eq. fold d.
    unfold get_parent_subgraph_nodes_in. rewrite Hr. discriminate.
  - set (d := default (index_inputs (nodes_of st)) consumers).
    exists (length (deque (children_of d node))). intros fuel Hfuel.
    destruct (find_first_loop_flat (children_of d) wanted fuel
                (deque (children_of d node)) Hfuel) as [r Hr].
    rewrite find_first_child_by_type_eq. fold d. cbv zeta.
    rewrite Hr. discriminate.
  - set (d := default (index_outputs (nodes_of st)) producers).
    exists (length (deque (parents_of d node))). intros fuel Hfuel.
    destruct (find_first_loop_flat (parents_of d) wanted fuel
                (deque (parents_of d node)) Hfuel) as [r Hr].
    rewrite find_first_parent_by_type_eq. fold d. cbv zeta.
    rewrite Hr. discriminate.
  - intros [rank Hrank].
    set (d := index_inputs (nodes_of st)) in *.
    exists (list_sum (List.map (fun y => walk_cost (children_of d) (rank y) y)
                               (deque (children_of d node)))).
    intros fuel Hfuel.
    destruct (find_first_loop_terminates (children_of d) (nodes_of st)
                (children_of_index_inputs_in (nodes_of st)) rank Hrank
                wanted fuel (deque (children_of d node))
                (Forall_in_rev _ _
                   (children_of_index_inputs_in (nodes_of st) node))
                Hfuel) as [r Hr].
    rewrite find_first_child_by_type_eq. simpl default. fold d. cbv zeta.
    rewrite Hr. discriminate.
  - intros [rank Hrank].
    set (d := index_outputs (nodes_of st)) in *.
    exists (list_sum (List.map (fun y => walk_cost (parents_of d) (rank y) y)
                               (deque (parents_of d node)))).
    intros fuel Hfuel.
    destruct (find_first_loop_terminates (parents_of d) (nodes_of st)
                (parents_of_index_outputs_in (nodes_of st)) rank Hrank
                wanted fuel (deque (parents_of d node))
                (Forall_in_rev _ _
                   (parents_of_index_outputs_in (nodes_of st) node))
                Hfuel) as [r Hr].
    rewrite find_first_parent_by_type_eq. simpl default. fold d. cbv zeta.
    rewrite Hr. discriminate.
Qed.

Lemma recurrent_acyclic_forward : acyclic_forward recurrent_model.
Proof.
  exists rank_down. intros x y Hx Hy.
  destruct Hx as [<-|[<-|[<-|[]]]]; vm_compute in Hy;
    repeat (destruct Hy as [<-|Hy]; [vm_compute; lia|]); destruct Hy.
Defined.

Lemma recurrent_acyclic_backward : acyclic_backward recurrent_model.
Proof.
  exists rank_up. intros x y Hx Hy.
  destruct Hx as [<-|[<-|[<-|[]]]]; vm_compute in Hy;
    repeat (destruct Hy as [<-|Hy]; [vm_compute; lia|]); destruct Hy.
Defined.

Lemma traversals_return_witness :
  returns (fun fuel =>
             find_first_child_by_type fuel lstm_node "Clip" None true)
          recurrent_model /\
  returns (fun fuel =>
             find_first_parent_by_type fuel clip_node "LSTM" None true)
          recurrent_model.
Proof.
  split.
  - apply (traversals_return recurrent_model lstm_node [] "Clip" None None).
    exact recurrent_acyclic_forward.
  - apply (traversals_return recurrent_model clip_node [] "LSTM" None None).
    exact recurrent_acyclic_backward.
Defined.

Lemma find_first_loop_cycle next wanted a b :
  next a = [b] -> next b = [a] ->
  op_type a <> wanted -> op_type b <> wanted ->
  forall fuel,
    find_first_loop next wanted true fuel [a] = OutOfFuel /\
    find_first_loop next wanted true fuel [b] = OutOfFuel.
Proof.
  intros Ha Hb Hwa Hwb. induction fuel as [|fuel [IHa IHb]].
  - split; reflexivity.
  - split; simpl.
    + rewrite bool_decide_eq_false_2 by exact Hwa. rewrite Ha. exact IHb.
    + rewrite bool_decide_eq_false_2 by exact Hwb. rewrite Hb. exact IHa.
Qed.

(** C8 as stated fails: on two nodes that feed each other, the search for a
    child of a type that is not there never returns. *)
Lemma find_first_child_by_type_loops :
  ~ returns (fun fuel =>
               find_first_child_by_type fuel ping_node "Softmax" None true)
            cyclic_model.
Proof.
  intros [fuel0 H]. apply (H fuel0 (Nat.le_refl _)).
  rewrite find_first_child_by_type_eq. cbv zeta.
  set (next := children_of _).
  assert (Hping : next ping_node = [pong_node]) by (vm_compute; reflexivity).
  assert (Hpong : next pong_node = [ping_node]) by (vm_compute; reflexivity).
  rewrite Hping. change (deque [pong_node]) with [pong_node].
  destruct (find_first_loop_cycle next "Softmax" ping_node pong_node
              Hping Hpong ltac:(discriminate) ltac:(discriminate) fuel0)
    as [_ ->].
  reflexivity.
Qed.

(** ** Removal of a node *)

Lemma attr_map_id (k : GraphProto -> GraphProto) (a : AttributeProto) :
  (forall c, In c (attr_graphs a) -> k c = c) -> attr_map k a = a.
Proof.
  destruct a as [s g|s gs|s t|s i]; simpl; intros H; try reflexivity.
  - rewrite H by (left; reflexivity). reflexivity.
  - f_equal. rewrite <- (List.map_id gs) at 2.
    apply List.map_ext_in. exact H.
Qed.

Lemma node_map_id (k : GraphProto -> GraphProto) (x : NodeProto) :
  (forall c, In c (node_graphs x) -> k c = c) -> node_map k x = x.
Proof.
  destruct x as [nm op ins outs attrs]. unfold node_map, node_graphs. simpl.
  intros H. f_equal. rewrite <- (List.map_id attrs) at 2.
  apply List.map_ext_in. intros a Ha. apply attr_map_id.
  intros c Hc. apply H. apply in_flat_map. exists a. auto.
Qed.

Lemma nodes_map_id (k : GraphProto -> GraphProto) (ns : list NodeProto) :
  (forall c, In c (flat_map node_graphs ns) -> k c = c) ->
  List.map (node_map k) ns = ns.
Proof.
  intros H. rewrite <- (List.map_id ns) at 2.
  apply List.map_ext_in. intros x Hx. apply node_map_id.
  intros c Hc. apply H. apply in_flat_map. exists x. auto.
Qed.

Lemma set_node_same g : set_node (g_node g) g = g.
Proof. destruct g; reflexivity. Qed.

Lemma in_subgraphs_child c h x :
  In c (children h) -> In x (subgraphs c) -> In x (subgraphs h).
Proof.
  intros Hc Hx. rewrite (subgraphs_eq h). right.
  apply in_flat_map. exists c. auto.
Qed.

(** An update leaves alone the trees that do not hold the object. *)
Lemma update_at_id u f : forall h,
  ~ In u (List.map oid (subgraphs h)) -> update_at u f h = h.
Proof.
  induction h as [h IH] using GraphProto_children_ind. intros Hu.
  rewrite update_at_eq.
  destruct (Nat.eqb_spec (oid h) u) as [E|E].
  - exfalso. apply Hu. rewrite subgraphs_eq. left. exact E.
  - rewrite nodes_map_id; [apply set_node_same|].
    intros c Hc. rewrite Forall_forall in IH.
    apply IH; [apply list_elem_of_In, Hc|].
    intros Hin. apply Hu. apply in_map_iff in Hin as (x & Hx & Hin).
    apply in_map_iff. exists x. split; [exact Hx|].
    apply (in_subgraphs_child c h x Hc Hin).
Qed.

Lemma map_update_at_id u f : forall h,
  ~ In u (List.map oid (subgraphs h)) ->
  List.map (update_at u f) (subgraphs h) = subgraphs h.
Proof.
  induction h as [h IH] using GraphProto_children_ind. intros Hu.
  rewrite (subgraphs_eq h) at 1 2. simpl.
  rewrite (update_at_id u f h Hu). f_equal.
  assert (Hc : forall c, In c (children h) ->
                 ~ In u (List.map oid (subgraphs c))).
  { intros c Hc Hin. apply Hu. apply in_map_iff in Hin as (x & Hx & Hin).
    apply in_map_iff. exists x. split; [exact Hx|].
    apply (in_subgraphs_child c h x Hc Hin). }
  induction IH as [|c l Hh _ IHl]; simpl; [reflexivity|].
  rewrite List.map_app, Hh, IHl.
  - reflexivity.
  - intros c' Hc'. apply Hc. right. exact Hc'.
  - apply Hc. left. reflexivity.
Qed.

Lemma leaving_none u n l :
  ~ In u (List.map oid l) -> leaving u n l = [].
Proof.
  unfold leaving. induction l as [|g l IH]; simpl; intros Hu; [reflexivity|].
  destruct (Nat.eqb_spec (oid g) u) as [E|E]; [exfalso; auto|].
  apply IH. auto.
Qed.

Lemma leaving_app u n l1 l2 :
  leaving u n (l1 ++ l2) = leaving u n l1 ++ leaving u n l2.
Proof. apply flat_map_app. Qed.

Lemma leaving_find u n l :
  NoDup (List.map oid l) ->
  leaving u n l =
  match List.find (fun g => Nat.eqb (oid g) u) l with
  | Some g => match List.find (node_eqb n) (g_node g) with
              | Some m => node_graphs m
              | None => []
              end
  | None => []
  end.
Proof.
  induction l as [|g l IH]; simpl; intros Hnd; [reflexivity|].
  apply NoDup_cons in Hnd as [Hg Hnd].
  destruct (Nat.eqb_spec (oid g) u) as [E|E].
  - rewrite leaving_none; [apply app_nil_r|].
    rewrite <- E. intros Hin. apply Hg, list_elem_of_In, Hin.
  - apply IH, Hnd.
Qed.

Lemma remove_first_perm {A B} (F : A -> list B) (p : A -> bool) (ns : list A) :
  flat_map F (list_remove_first p ns) ++
  match List.find p ns with
  | Some m => F m
  | None => []
  end ≡ₚ flat_map F ns.
Proof.
  induction ns as [|x ns IH]; simpl; [reflexivity|].
  destruct (p x).
  - apply Permutation_app_comm.
  - simpl. rewrite <- app_assoc. apply Permutation_app_head, IH.
Qed.

Lemma sum_perm {A B} (F G H : A -> list B) (l : list A) :
  Forall (fun c => F c ++ G c ≡ₚ H c) l ->
  flat_map F l ++ flat_map G l ≡ₚ flat_map H l.
Proof.
  induction 1 as [|c l Hc _ IH]; simpl; [reflexivity|].
  rewrite <- Hc, <- IH.
  rewrite <- !app_assoc. apply Permutation_app_head.
  rewrite !app_assoc. apply Permutation_app_tail, Permutation_app_comm.
Qed.

Lemma NoDup_oid_forest c (l : list GraphProto) :
  NoDup (List.map oid (flat_map subgraphs (c :: l))) ->
  NoDup (List.map oid (subgraphs c)) /\
  NoDup (List.map oid (flat_map subgraphs l)).
Proof.
  simpl. rewrite List.map_app. intros H.
  apply NoDup_app in H as (H1 & _ & H2). auto.
Qed.

Lemma flat_map_map_list {A B C} (f : B -> list C) (g : A -> B) (l : list A) :
  flat_map f (List.map g l) = flat_map (fun x => f (g x)) l.
Proof.
  induction l as [|x l IH]; simpl; [reflexivity|]. rewrite IH. reflexivity.
Qed.

Lemma map_flat_map {A B C} (f : B -> C) (g : A -> list B) (l : list A) :
  List.map f (flat_map g l) = flat_map (fun x => List.map f (g x)) l.
Proof.
  induction l as [|x l IH]; simpl; [reflexivity|].
  rewrite List.map_app, IH. reflexivity.
Qed.

(** The objects of a forest after [drop_node] at [u], together with the
    graphs that left, are the objects before, each updated. *)
Lemma forest_update_perm u n (roots : list GraphProto) :
  Forall (fun h =>
    NoDup (List.map oid (subgraphs h)) ->
    subgraphs (update_at u (drop_node n) h) ++
    flat_map subgraphs (leaving u n (subgraphs h))
    ≡ₚ List.map (update_at u (drop_node n)) (subgraphs h)) roots ->
  NoDup (List.map oid (flat_map subgraphs roots)) ->
  flat_map subgraphs (List.map (update_at u (drop_node n)) roots) ++
  flat_map subgraphs (leaving u n (flat_map subgraphs roots))
  ≡ₚ List.map (update_at u (drop_node n)) (flat_map subgraphs roots).
Proof.
  intros Hall. induction Hall as [|h l Hh _ IH]; intros Hnd; [reflexivity|].
  destruct (NoDup_oid_forest h l Hnd) as [Hnd1 Hnd2].
  simpl. rewrite leaving_app, flat_map_app, List.map_app.
  rewrite <- (Hh Hnd1), <- (IH Hnd2).
  rewrite <- !app_assoc. apply Permutation_app_head.
  rewrite !app_assoc. apply Permutation_app_tail, Permutation_app_comm.
Qed.

Lemma map_update_at_forest_id u f (l : list GraphProto) :
  ~ In u (List.map oid (flat_map subgraphs l)) ->
  List.map (update_at u f) (flat_map subgraphs l) = flat_map subgraphs l.
Proof.
  induction l as [|c l IH]; simpl; intros Hu; [reflexivity|].
  rewrite List.map_app in *. rewrite map_update_at_id, IH.
  - reflexivity.
  - intros H. apply Hu, in_or_app. right. exact H.
  - intros H. apply Hu, in_or_app. left. exact H.
Qed.

Lemma subgraphs_update_perm u n : forall h,
  NoDup (List.map oid (subgraphs h)) ->
  subgraphs (update_at u (drop_node n) h) ++
  flat_map subgraphs (leaving u n (subgraphs h))
  ≡ₚ List.map (update_at u (drop_node n)) (subgraphs h).
Proof.
  induction h as [h IH] using GraphProto_children_ind. intros Hnd.
  rewrite (subgraphs_eq h) in Hnd. simpl in Hnd.
  apply NoDup_cons in Hnd as [Hh Hnd].
  destruct (Nat.eqb_spec (oid h) u) as [E|E].
  - assert (Hu : ~ In u (List.map oid (flat_map subgraphs (children h)))).
    { rewrite <- E. intros Hin. apply Hh, list_elem_of_In, Hin. }
    assert (Hupd : update_at u (drop_node n) h = drop_node n h).
    { rewrite update_at_eq, (proj2 (Nat.eqb_eq (oid h) u) E). reflexivity. }
    assert (Hleave : leaving u n (subgraphs h) =
                     match List.find (node_eqb n) (g_node h) with
                     | Some m => node_graphs m
                     | None => []
                     end).
    { rewrite (subgraphs_eq h). unfold leaving. simpl.
      rewrite (proj2 (Nat.eqb_eq (oid h) u) E).
      fold (leaving u n (flat_map subgraphs (children h))).
      rewrite leaving_none by exact Hu. apply app_nil_r. }
    assert (Hmap : List.map (update_at u (drop_node n)) (subgraphs h) =
                   drop_node n h :: flat_map subgraphs (children h)).
    { rewrite (subgraphs_eq h). simpl. rewrite Hupd.
      rewrite map_update_at_forest_id by exact Hu. reflexivity. }
    rewrite Hupd, Hleave, Hmap, (subgraphs_eq (drop_node n h)).
    simpl. apply perm_skip. rewrite <- flat_map_app.
    apply Permutation_flat_map.
    apply (remove_first_perm node_graphs (node_eqb n) (g_node h)).
  - assert (Hupd : update_at u (drop_node n) h =
                   set_node (List.map (node_map (update_at u (drop_node n)))
                                      (g_node h)) h).
    { rewrite update_at_eq, (proj2 (Nat.eqb_neq (oid h) u) E). reflexivity. }
    assert (Hleave : leaving u n (subgraphs h) =
                     leaving u n (flat_map subgraphs (children h))).
    { rewrite (subgraphs_eq h). unfold leaving. simpl.
      rewrite (proj2 (Nat.eqb_neq (oid h) u) E). reflexivity. }
    assert (Hmap : List.map (update_at u (drop_node n)) (subgraphs h) =
                   update_at u (drop_node n) h
                   :: List.map (update_at u (drop_node n))
                               (flat_map subgraphs (children h))).
    { rewrite (subgraphs_eq h). reflexivity. }
    rewrite Hleave, Hmap.
    rewrite (subgraphs_eq (update_at u (drop_node n) h)).
    rewrite Hupd, children_set_node_map.
    simpl. apply perm_skip.
    apply forest_update_perm; [|exact Hnd].
    exact IH.
Qed.

Lemma store_remove_from st u n :
  NoDup (List.map oid (store st)) ->
  store (remove_from u n st)
  ≡ₚ List.map (update_at u (drop_node n)) (store st).
Proof.
  intros Hnd. unfold remove_from.
  assert (Hgone : match List.find (node_eqb n) (graph_node st u) with
                  | Some m => node_graphs m
                  | None => []
                  end = leaving u n (store st)).
  { rewrite (leaving_find u n (store st) Hnd). unfold graph_node, deref.
    destruct (List.find _ (store st)); reflexivity. }
  rewrite Hgone.
  unfold store at 1. simpl model_graph. simpl detached.
  change (update_at u (drop_node n) (model_graph st)
          :: List.map (update_at u (drop_node n)) (detached st)
             ++ leaving u n (store st))
    with (List.map (update_at u (drop_node n))
                   (model_graph st :: detached st)
          ++ leaving u n (store st)).
  rewrite flat_map_app.
  apply forest_update_perm; [|exact Hnd].
  apply Forall_forall. intros h _. apply subgraphs_update_perm.
Qed.

Lemma oid_update_at u n h : oid (update_at u (drop_node n) h) = oid h.
Proof.
  rewrite update_at_eq. destruct (Nat.eqb (oid h) u); reflexivity.
Qed.

Lemma find_unique (l : list GraphProto) u x :
  NoDup (List.map oid l) -> In x l -> oid x = u ->
  List.find (fun g => Nat.eqb (oid g) u) l = Some x.
Proof.
  induction l as [|g l IH]; simpl; intros Hnd Hin Hx; [destruct Hin|].
  apply NoDup_cons in Hnd as [Hg Hnd].
  destruct (Nat.eqb_spec (oid g) u) as [E|E].
  - destruct Hin as [->|Hin]; [reflexivity|].
    exfalso. apply Hg. apply list_elem_of_In, in_map_iff.
    exists x. split; [congruence|exact Hin].
  - destruct Hin as [->|Hin]; [congruence|]. apply IH; assumption.
Qed.

Lemma find_absent {A} (p : A -> bool) (l : list A) :
  (forall x, In x l -> p x = false) -> List.find p l = None.
Proof.
  induction l as [|x l IH]; simpl; intros H; [reflexivity|].
  rewrite (H x) by (left; reflexivity). apply IH. auto.
Qed.

Lemma oid_store_remove_from st u n :
  NoDup (List.map oid (store st)) ->
  List.map oid (store (remove_from u n st)) ≡ₚ List.map oid (store st).
Proof.
  intros Hnd. rewrite (store_remove_from st u n Hnd), List.map_map.
  erewrite List.map_ext; [reflexivity|]. intros h. apply oid_update_at.
Qed.

(** After [drop_node] at [u'], a reference stands for the object it stood
    for, updated. *)
Lemma deref_remove_from st u' n u :
  NoDup (List.map oid (store st)) ->
  deref (remove_from u' n st) u =
  option_map (update_at u' (drop_node n)) (deref st u).
Proof.
  intros Hnd.
  pose proof (store_remove_from st u' n Hnd) as Hperm.
  assert (Hnd' : NoDup (List.map oid (store (remove_from u' n st)))).
  { rewrite (oid_store_remove_from st u' n Hnd). exact Hnd. }
  unfold deref at 2. destruct (List.find _ (store st)) as [h|] eqn:E; simpl.
  - apply find_some in E as [Hin Hoid]. apply Nat.eqb_eq in Hoid.
    apply find_unique; [exact Hnd'| |rewrite oid_update_at; exact Hoid].
    apply list_elem_of_In. rewrite Hperm.
    apply list_elem_of_In, in_map. exact Hin.
  - apply find_absent. intros x Hx.
    apply list_elem_of_In in Hx. rewrite Hperm in Hx.
    apply list_elem_of_In, in_map_iff in Hx as (h & <- & Hh).
    rewrite oid_update_at. apply (find_none _ _ E h Hh).
Qed.

Lemma erase_node_graphs a b :
  erase_node a = erase_node b ->
  length (node_graphs a) = length (node_graphs b).
Proof.
  intros H.
  assert (Hl : forall x, length (node_graphs (erase_node x))
                         = length (node_graphs x)).
  { intros x. unfold erase_node. rewrite node_graphs_map.
    apply length_map. }
  rewrite <- (Hl a), <- (Hl b), H. reflexivity.
Qed.

(** A node with no nested graph is not equal to a node that has one, and
    an update inside the nested graphs of a node does not make it so. *)
Lemma node_eqb_node_map_plain n (k : GraphProto -> GraphProto) x :
  plain n -> node_eqb n (node_map k x) = node_eqb n x.
Proof.
  intros Hn. unfold node_eqb. apply bool_decide_ext.
  assert (Hid : node_graphs x = [] -> node_map k x = x).
  { intros H. apply node_map_id. rewrite H. intros c []. }
  split; intros H.
  - pose proof (erase_node_graphs _ _ H) as Hl.
    rewrite Hn, node_graphs_map, length_map in Hl.
    rewrite Hid in H; [exact H|].
    destruct (node_graphs x); [reflexivity|discriminate].
  - pose proof (erase_node_graphs _ _ H) as Hl. rewrite Hn in Hl.
    rewrite Hid; [exact H|].
    destruct (node_graphs x); [reflexivity|discriminate].
Qed.

Lemma filter_remove_first {A} (p : A -> bool) (l : list A) :
  length (List.filter p (list_remove_first p l))
  = Nat.pred (length (List.filter p l)).
Proof.
  induction l as [|x l IH]; simpl; [reflexivity|].
  destruct (p x) eqn:E; simpl; [reflexivity|].
  rewrite E. exact IH.
Qed.

Lemma filter_map_plain n (k : GraphProto -> GraphProto) (l : list NodeProto) :
  plain n ->
  length (List.filter (node_eqb n) (List.map (node_map k) l))
  = length (List.filter (node_eqb n) l).
Proof.
  intros Hn. induction l as [|x l IH]; simpl; [reflexivity|].
  rewrite (node_eqb_node_map_plain n k x Hn).
  destruct (node_eqb n x); simpl; rewrite IH; reflexivity.
Qed.

Lemma occurrences_remove_from st u' n u :
  NoDup (List.map oid (store st)) -> plain n ->
  occurrences n (remove_from u' n st) u =
  if Nat.eqb u u' then Nat.pred (occurrences n st u) else occurrences n st u.
Proof.
  intros Hnd Hn. unfold occurrences, graph_node.
  rewrite (deref_remove_from st u' n u Hnd).
  destruct (deref st u) as [h|] eqn:E; simpl;
    [|destruct (Nat.eqb u u'); reflexivity].
  apply find_some in E as [_ Hoid]. apply Nat.eqb_eq in Hoid. subst u.
  rewrite update_at_eq. destruct (Nat.eqb (oid h) u').
  - apply filter_remove_first.
  - apply filter_map_plain, Hn.
Qed.

Lemma node_in_occurrences n st u :
  node_in n (graph_node st u) = negb (Nat.eqb (occurrences n st u) 0).
Proof.
  unfold occurrences, node_in.
  induction (graph_node st u) as [|x l IH]; simpl; [reflexivity|].
  destruct (node_eqb n x); [reflexivity|exact IH].
Qed.

Lemma all_graphs_remove_from st u n :
  all_graphs (remove_from u n st) = all_graphs st.
Proof. reflexivity. Qed.

Lemma remove_loop_clears n :
  plain n ->
  forall gs st,
    NoDup (List.map oid (store st)) ->
    (forall u, In u gs -> occurrences n st u <= 1) ->
    exists st',
      for_each gs (fun u =>
        let! st := get in
        if node_in n (graph_node st u) then modify (remove_from u n)
        else ret tt) st = Ok (tt, st') /\
      NoDup (List.map oid (store st')) /\
      all_graphs st' = all_graphs st /\
      (forall u, occurrences n st' u <= occurrences n st u) /\
      (forall u, In u gs -> occurrences n st' u = 0).
Proof.
  intros Hn. induction gs as [|u0 gs IH]; intros st Hnd Honce.
  - exists st. repeat split; auto. intros u [].
  - simpl. unfold bind at 1. unfold bind at 1. unfold get.
    assert (H0 : occurrences n st u0 <= 1) by (apply Honce; left; reflexivity).
    rewrite node_in_occurrences.
    destruct (Nat.eqb_spec (occurrences n st u0) 0) as [E|E]; simpl.
    + destruct (IH st Hnd (fun u Hu => Honce u (or_intror Hu)))
        as (st' & Hrun & Hnd' & Hall & Hle & Hzero).
      exists st'. repeat split; auto.
      intros u [<-|Hu]; [|apply Hzero, Hu].
      specialize (Hle u0). lia.
    + pose proof (occurrences_remove_from st u0 n) as Hocc.
      assert (Hnd1 : NoDup (List.map oid (store (remove_from u0 n st)))).
      { rewrite (oid_store_remove_from st u0 n Hnd). exact Hnd. }
      assert (Hle1 : forall u, occurrences n (remove_from u0 n st) u
                               <= occurrences n st u).
      { intros u. rewrite (Hocc u Hnd Hn). destruct (Nat.eqb u u0); lia. }
      destruct (IH (remove_from u0 n st) Hnd1) as
        (st' & Hrun & Hnd' & Hall & Hle & Hzero).
      { intros u Hu. specialize (Hle1 u).
        specialize (Honce u (or_intror Hu)). lia. }
      exists st'. split; [exact Hrun|]. split; [exact Hnd'|].
      split; [rewrite Hall; reflexivity|]. split.
      * intros u. specialize (Hle u). specialize (Hle1 u). lia.
      * intros u [<-|Hu]; [|apply Hzero, Hu].
        specialize (Hle u0). rewrite (Hocc u0 Hnd Hn), Nat.eqb_refl in Hle.
        lia.
Qed.

(** C6, with the conditions it needs.  When no discovered graph holds more
    than one node equal to [n], and [n] itself holds no nested graph,
    [remove_node(n)] followed by [get_graph_by_node(n)] returns [None]: no
    discovered graph holds [n] any longer.  [wf_store] holds of every state
    Python can be in. *)
Theorem remove_node_clears (st : OnnxModel) (n : NodeProto) :
  wf_store st -> plain n -> held_once st n -> removal_clears st n.
Proof.
  intros [Hnd _] Hn Honce.
  destruct (remove_loop_clears n Hn (graphs_of st) (cached st) Hnd Honce)
    as (st1 & Hrun & _ & Hall & _ & Hzero).
  exists st1, (cached st1). split.
  - rewrite remove_node_eq. exact Hrun.
  - unfold get_graph_by_node, bind. rewrite graphs_eq. unfold get, ret.
    do 2 f_equal. apply find_absent. intros u Hu.
    rewrite graph_node_cached, node_in_occurrences, Hzero; [reflexivity|].
    unfold graphs_of in Hu. rewrite Hall in Hu. exact Hu.
Qed.

Lemma remove_node_clears_witness :
  removal_clears branching_model
    (mkNode "relu_1" "Relu" ["x"%string] ["t"%string] []).
Proof.
  apply (remove_node_clears branching_model).
  - apply (@bool_decide_eq_true_1 _ (wf_store_dec branching_model)).
    vm_compute. reflexivity.
  - reflexivity.
  - intros u [<-|[<-|[]]]; vm_compute; lia.
Defined.

(** C6 as stated fails: of two equal nodes of a graph, [remove_node] takes
    the first one out, and the graph still holds the other. *)
Lemma remove_node_leaves_twin :
  node_in twin_node (graph_node twins_model 0) = true /\
  ~ removal_clears twins_model twin_node.
Proof.
  split; [reflexivity|].
  intros (st1 & st2 & H1 & H2).
  vm_compute in H1. injection H1 as <-.
  vm_compute in H2. discriminate.
Qed.

(** Why the node is to hold no nested graph: once [inner_if] has left the
    branch of [outer_if], the primary graph holds a node equal to it. *)
Remark remove_node_makes_equal :
  wf_store nested_if_model /\ held_once nested_if_model inner_if /\
  ~ removal_clears nested_if_model inner_if.
Proof.
  split.
  { apply (@bool_decide_eq_true_1 _ (wf_store_dec nested_if_model)).
    vm_compute. reflexivity. }
  split; [intros u [<-|[<-|[<-|[]]]]; vm_compute; lia|].
  intros (st1 & st2 & H1 & H2).
  vm_compute in H1. injection H1 as <-.
  vm_compute in H2. discriminate.
Qed.

(** * Further properties *)

(** ** Graph collection *)

Lemma subgraphs_nonempty g : 1 <= length (subgraphs g).
Proof. rewrite subgraphs_eq. simpl. lia. Qed.

Lemma graphs_loop_perm fuel : forall queue acc,
  length (flat_map subgraphs queue) <= fuel ->
  graphs_loop fuel queue acc ≡ₚ acc ++ List.map oid (flat_map subgraphs queue).
Proof.
  induction fuel as [|fuel IH]; intros queue acc Hfuel.
  - destruct queue as [|g queue]; simpl.
    + rewrite app_nil_r. reflexivity.
    + simpl in Hfuel. rewrite length_app in Hfuel.
      pose proof (subgraphs_nonempty g). lia.
  - destruct queue as [|g queue]; simpl.
    + rewrite app_nil_r. reflexivity.
    + simpl in Hfuel. rewrite length_app, (subgraphs_eq g) in Hfuel.
      simpl in Hfuel.
      rewrite IH.
      * rewrite flat_map_app, (subgraphs_eq g), !List.map_app. simpl.
        rewrite <- !app_assoc. apply Permutation_app_head. simpl.
        apply perm_skip, Permutation_app_comm.
      * rewrite flat_map_app, length_app. lia.
Qed.

Lemma graphs_loop_more fuel : forall queue acc k,
  length (flat_map subgraphs queue) <= fuel ->
  graphs_loop (fuel + k) queue acc = graphs_loop fuel queue acc.
Proof.
  induction fuel as [|fuel IH]; intros queue acc k Hfuel.
  - destruct queue as [|g queue].
    + destruct k; reflexivity.
    + simpl in Hfuel. rewrite length_app in Hfuel.
      pose proof (subgraphs_nonempty g). lia.
  - destruct queue as [|g queue]; [reflexivity|]. simpl.
    simpl in Hfuel. rewrite length_app, (subgraphs_eq g) in Hfuel.
    simpl in Hfuel. apply IH. rewrite flat_map_app, length_app. lia.
Qed.

Lemma graphs_loop_acc fuel : forall queue acc,
  graphs_loop fuel queue acc = acc ++ graphs_loop fuel queue [].
Proof.
  induction fuel as [|fuel IH]; intros queue acc; simpl.
  - rewrite app_nil_r. reflexivity.
  - destruct queue as [|g queue]; [rewrite app_nil_r; reflexivity|].
    rewrite (IH _ (acc ++ [oid g])), (IH _ ([] ++ [oid g])).
    rewrite <- app_assoc. reflexivity.
Qed.

(** X1. The first call of [graphs] lists the primary graph first and then
    every graph nested in it, at any depth, each graph object once; the
    budget of the discovery loop is never short (more fuel changes nothing);
    the list is kept, and the next call answers it again. *)
Theorem graphs_discovers_every_graph (st : OnnxModel) :
  all_graphs st = None ->
  exists rest st',
    graphs st = Ok (oid (model_graph st) :: rest, st') /\
    oid (model_graph st) :: rest ≡ₚ List.map oid (subgraphs (model_graph st)) /\
    (forall k, graphs_loop (length (subgraphs (model_graph st)) + k)
                 [model_graph st] [] = oid (model_graph st) :: rest) /\
    graphs st' = Ok (oid (model_graph st) :: rest, st').
Proof.
  intros Hnone.
  assert (Hhead : exists rest, discover (model_graph st)
                               = oid (model_graph st) :: rest).
  { unfold discover. pose proof (subgraphs_nonempty (model_graph st)) as Hl.
    destruct (length (subgraphs (model_graph st))) as [|k]; [lia|].
    simpl. rewrite graphs_loop_acc. eexists. reflexivity. }
  destruct Hhead as [rest Hrest].
  exists rest, (set_all_graphs (Some (oid (model_graph st) :: rest)) st).
  split; [|split; [|split]].
  - unfold graphs. rewrite Hnone, Hrest. reflexivity.
  - rewrite <- Hrest. unfold discover.
    rewrite graphs_loop_perm by (simpl; rewrite app_nil_r; lia).
    simpl. rewrite app_nil_r. reflexivity.
  - intros k. rewrite graphs_loop_more by (simpl; rewrite app_nil_r; lia).
    exact Hrest.
  - reflexivity.
Qed.

Lemma graphs_discovers_every_graph_witness :
  exists rest st',
    graphs branching_model = Ok (0 :: rest, st') /\
    0 :: rest ≡ₚ List.map oid (subgraphs branching_graph) /\
    (forall k, graphs_loop (length (subgraphs branching_graph) + k)
                 [branching_graph] [] = 0 :: rest) /\
    graphs st' = Ok (0 :: rest, st').
Proof.
  apply (graphs_discovers_every_graph branching_model). reflexivity.
Defined.

(** ** Value-flow index *)

Lemma nonempty_opt_snoc {A} (l : list A) (x : A) :
  nonempty_opt (l ++ [x]) = Some (l ++ [x]).
Proof. destruct l; reflexivity. Qed.

Lemma index_inputs_fold k (todo : list NodeProto) :
  forall (acc : gmap string (list NodeProto)) (l : list NodeProto),
    acc !! k = nonempty_opt l ->
    fold_left (fun d node =>
      fold_left (fun d input_name =>
        match d !! input_name with
        | None => <[input_name := [node]]> d
        | Some l => <[input_name := l ++ [node]]> d
        end) (input node) d) todo acc !! k
    = nonempty_opt (l ++ consumers_of todo k).
Proof.
  induction todo as [|n todo IH]; intros acc l Hacc; simpl.
  - unfold consumers_of. simpl. rewrite app_nil_r. exact Hacc.
  - change (consumers_of (n :: todo) k)
      with (flat_map (fun i => if bool_decide (i = k) then [n] else [])
                     (input n) ++ consumers_of todo k).
    rewrite app_assoc. apply IH. clear IH.
    revert acc l Hacc. induction (input n) as [|i ins IHi];
      intros acc l Hacc; simpl.
    + rewrite app_nil_r. exact Hacc.
    + destruct (bool_decide_reflect (i = k)) as [->|Hne].
      * simpl. rewrite cons_middle, app_assoc. apply IHi.
        rewrite Hacc. destruct l as [|x l]; simpl.
        -- apply lookup_insert_eq.
        -- rewrite lookup_insert_eq. reflexivity.
      * simpl. apply IHi.
        destruct (acc !! i); rewrite lookup_insert_ne by exact Hne;
          exact Hacc.
Qed.

(** X2. [input_name_to_nodes] has a key for every name that some node
    reads, and for no other name; the value is the list of the readers in
    the order of the nodes, a node being listed once for each of its inputs
    that is the name. *)
Theorem input_name_to_nodes_lists_consumers (st : OnnxModel) :
  exists d,
    input_name_to_nodes st = Ok (d, cached st) /\
    (forall k, d !! k = nonempty_opt (consumers_of (nodes_of st) k)) /\
    (forall k, d !! k = None <->
               forall node, In node (nodes_of st) -> k ∉ input node).
Proof.
  exists (index_inputs (nodes_of st)).
  assert (H : forall k, index_inputs (nodes_of st) !! k
                        = nonempty_opt (consumers_of (nodes_of st) k)).
  { intros k. apply (index_inputs_fold k (nodes_of st) ∅ []).
    apply lookup_empty. }
  split; [|split; [exact H|]].
  - unfold input_name_to_nodes, bind. rewrite nodes_eq. reflexivity.
  - intros k. rewrite H. clear H. unfold consumers_of.
    induction (nodes_of st) as [|n ns IH]; simpl.
    + split; [intros _ node []|reflexivity].
    + assert (Hn : flat_map (fun i => if bool_decide (i = k) then [n] else [])
                            (input n) = [] <-> k ∉ input n).
      { induction (input n) as [|i ins IHi]; simpl.
        - split; [intros _; apply not_elem_of_nil|reflexivity].
        - destruct (bool_decide_reflect (i = k)) as [->|Hne]; simpl.
          + split; [discriminate|]. intros Hk. exfalso. apply Hk. left.
          + rewrite IHi. split.
            * intros Hk. apply not_elem_of_cons. split; [congruence|exact Hk].
            * intros Hk. apply not_elem_of_cons in Hk as [_ Hk]. exact Hk. }
      destruct (flat_map _ (input n)) as [|x l] eqn:E; simpl.
      * rewrite IH. split.
        -- intros Hns node [<-|Hnode]; [apply Hn; reflexivity|auto].
        -- intros Hall node Hnode. apply Hall. right. exact Hnode.
      * split; [discriminate|]. intros Hall. exfalso.
        assert (Hk : k ∉ input n) by (apply Hall; left; reflexivity).
        apply Hn in Hk. discriminate.
Qed.

Lemma index_outputs_fold k (todo : list NodeProto) :
  forall (acc : gmap string NodeProto),
    fold_left (fun d node =>
      fold_left (fun d output_name => <[output_name := node]> d)
                (output node) d) todo acc !! k
    = match last_producer todo k with
      | Some node => Some node
      | None => acc !! k
      end.
Proof.
  unfold last_producer.
  induction todo as [|n todo IH]; intros acc; simpl; [reflexivity|].
  rewrite IH, find_app. destruct (List.find _ (rev todo)); [reflexivity|].
  simpl. clear IH. revert acc. unfold str_in.
  induction (output n) as [|o outs IHo]; intros acc; simpl.
  - reflexivity.
  - rewrite IHo.
    destruct (bool_decide_reflect (k ∈ outs)) as [Hin|Hout].
    + rewrite bool_decide_eq_true_2 by (right; exact Hin). reflexivity.
    + destruct (decide (k = o)) as [->|Hne].
      * rewrite lookup_insert_eq, bool_decide_eq_true_2 by left. reflexivity.
      * rewrite lookup_insert_ne by congruence.
        rewrite bool_decide_eq_false_2; [reflexivity|].
        intros H. apply elem_of_cons in H as [H|H]; auto.
Qed.

(** X3. [output_name_to_node] maps a name to the last node, in the order of
    the nodes, that has it among its outputs: a later producer replaces an
    earlier one; a name that no node produces is no key. *)
Theorem output_name_to_node_keeps_last_producer (st : OnnxModel) :
  exists d,
    output_name_to_node st = Ok (d, cached st) /\
    forall k, d !! k = last_producer (nodes_of st) k.
Proof.
  exists (index_outputs (nodes_of st)). split.
  - unfold output_name_to_node, bind. rewrite nodes_eq. reflexivity.
  - intros k. unfold index_outputs.
    rewrite (index_outputs_fold k (nodes_of st) ∅), lookup_empty.
    destruct (last_producer (nodes_of st) k); reflexivity.
Qed.

Lemma index_inputs_lookup ns k :
  index_inputs ns !! k = nonempty_opt (consumers_of ns k).
Proof. apply (index_inputs_fold k ns ∅ []). apply lookup_empty. Qed.

Lemma index_outputs_lookup ns k :
  index_outputs ns !! k = last_producer ns k.
Proof.
  unfold index_outputs. rewrite (index_outputs_fold k ns ∅), lookup_empty.
  destruct (last_producer ns k); reflexivity.
Qed.

Lemma consumers_of_in ns k x :
  In x (consumers_of ns k) <-> In x ns /\ k ∈ input x.
Proof.
  unfold consumers_of. rewrite in_flat_map. split.
  - intros (node & Hnode & Hx). apply in_flat_map in Hx as (i & Hi & Hx).
    destruct (bool_decide_reflect (i = k)) as [->|Hne]; [|destruct Hx].
    destruct Hx as [<-|[]]. split; [exact Hnode|].
    apply list_elem_of_In. exact Hi.
  - intros [Hx Hk]. exists x. split; [exact Hx|].
    apply in_flat_map. exists k. split; [apply list_elem_of_In, Hk|].
    rewrite bool_decide_eq_true_2 by reflexivity. left. reflexivity.
Qed.

Lemma nonempty_opt_in {A} (l l' : list A) :
  nonempty_opt l = Some l' -> l' = l.
Proof. destruct l; [discriminate|]. intros [= <-]. reflexivity. Qed.

Lemma nonempty_opt_default {A} (l : list A) :
  default [] (nonempty_opt l) = l.
Proof. destruct l; reflexivity. Qed.

Lemma last_producer_some ns k p :
  last_producer ns k = Some p -> In p ns /\ k ∈ output p.
Proof.
  unfold last_producer. intros H. apply find_some in H as [Hin Hk].
  split; [apply in_rev, Hin|]. apply bool_decide_eq_true in Hk. exact Hk.
Qed.

Lemma last_producer_none ns k :
  last_producer ns k = None <-> forall p, In p ns -> k ∉ output p.
Proof.
  unfold last_producer. split.
  - intros H p Hp Hk.
    pose proof (find_none _ _ H p (proj1 (in_rev ns p) Hp)) as Hf.
    apply bool_decide_eq_false in Hf. exact (Hf Hk).
  - intros H. apply find_absent. intros p Hp.
    apply bool_decide_eq_false. apply H, in_rev. exact Hp.
Qed.

Lemma children_of_index_inputs ns p c :
  In c (children_of (index_inputs ns) p) <->
  In c ns /\ exists k, k ∈ output p /\ k ∈ input c.
Proof.
  unfold children_of. rewrite in_flat_map. split.
  - intros (k & Hk & Hc).
    rewrite index_inputs_lookup, nonempty_opt_default in Hc.
    apply consumers_of_in in Hc as [Hc Hin]. split; [exact Hc|].
    exists k. split; [apply list_elem_of_In, Hk|exact Hin].
  - intros (Hc & k & Hk & Hin). exists k.
    split; [apply list_elem_of_In, Hk|].
    rewrite index_inputs_lookup, nonempty_opt_default.
    apply consumers_of_in. auto.
Qed.

Lemma parents_of_index_outputs ns c p :
  In p (parents_of (index_outputs ns) c) <->
  exists k, k ∈ input c /\ last_producer ns k = Some p.
Proof.
  unfold parents_of. rewrite in_flat_map. split.
  - intros (k & Hk & Hp). rewrite index_outputs_lookup in Hp.
    exists k. split; [apply list_elem_of_In, Hk|].
    destruct (last_producer ns k) as [q|]; [|destruct Hp].
    destruct Hp as [<-|[]]. reflexivity.
  - intros (k & Hk & Hp). exists k. split; [apply list_elem_of_In, Hk|].
    rewrite index_outputs_lookup, Hp. left. reflexivity.
Qed.

Lemma get_children_eq node arg st :
  get_children node arg st =
  Ok (children_of (default (index_inputs (nodes_of st)) arg) node,
      after_query arg st).
Proof.
  unfold get_children, bind. destruct arg as [d|]; simpl; [reflexivity|].
  unfold input_name_to_nodes, bind. rewrite nodes_eq. reflexivity.
Qed.

Lemma get_parents_eq node arg st :
  get_parents node arg st =
  Ok (parents_of (default (index_outputs (nodes_of st)) arg) node,
      after_query arg st).
Proof.
  unfold get_parents, bind. destruct arg as [d|]; simpl; [reflexivity|].
  unfold output_name_to_node, bind. rewrite nodes_eq. reflexivity.
Qed.

(** X4. The parents that [get_parents] returns for a node of the model are
    nodes of the model, and [get_children] of each of them returns the
    node: what the dictionary of producers links, the dictionary of
    consumers links back. *)
Theorem get_parents_linked_back (st : OnnxModel) (x : NodeProto) :
  In x (nodes_of st) ->
  exists ps,
    get_parents x None st = Ok (ps, cached st) /\
    forall p, In p ps ->
      In p (nodes_of st) /\
      exists cs,
        get_children p None (cached st) = Ok (cs, cached st) /\ In x cs.
Proof.
  intros Hx. rewrite get_parents_eq. simpl.
  eexists. split; [reflexivity|]. intros p Hp.
  apply parents_of_index_outputs in Hp as (k & Hk & Hp).
  apply last_producer_some in Hp as [Hp Hout]. split; [exact Hp|].
  rewrite get_children_eq. simpl. rewrite nodes_of_cached, cached_cached.
  eexists. split; [reflexivity|].
  apply children_of_index_inputs. split; [exact Hx|]. exists k. auto.
Qed.

Lemma get_parents_linked_back_witness :
  exists ps,
    get_parents clip_node None recurrent_model
      = Ok (ps, cached recurrent_model) /\
    forall p, In p ps ->
      In p (nodes_of recurrent_model) /\
      exists cs,
        get_children p None (cached recurrent_model)
          = Ok (cs, cached recurrent_model) /\ In clip_node cs.
Proof.
  apply (get_parents_linked_back recurrent_model clip_node).
  vm_compute. right. right. left. reflexivity.
Defined.

Lemma single_producer_unique ns : forall p q k,
  single_producer ns -> In p ns -> In q ns ->
  k ∈ output p -> k ∈ output q -> last_producer ns k = Some p.
Proof.
  unfold single_producer, last_producer.
  induction ns as [|n ns IH]; intros p q k Hnd Hp Hq Hkp Hkq; [destruct Hp|].
  simpl in Hnd. apply NoDup_app in Hnd as (Hn & Hdisj & Hns).
  simpl. rewrite find_app.
  destruct Hp as [->|Hp].
  - rewrite find_absent.
    + simpl. unfold str_in. rewrite bool_decide_eq_true_2 by exact Hkp.
      reflexivity.
    + intros m Hm. apply bool_decide_eq_false. intros Hk.
      apply (Hdisj k Hkp). apply list_elem_of_In, in_flat_map.
      exists m. split; [apply in_rev, Hm|apply list_elem_of_In, Hk].
  - assert (Hnk : k ∉ output n).
    { intros Hk. apply (Hdisj k Hk). apply list_elem_of_In, in_flat_map.
      exists p. split; [exact Hp|apply list_elem_of_In, Hkp]. }
    destruct Hq as [->|Hq]; [destruct (Hnk Hkq)|].
    rewrite (IH p q k Hns Hp Hq Hkp Hkq). reflexivity.
Qed.

(** X5. In a model in which every value name is produced once, the links go
    both ways: the children that [get_children] returns for a node of the
    model are nodes of the model, and [get_parents] of each of them returns
    the node. *)
Theorem get_children_linked_back (st : OnnxModel) (p : NodeProto) :
  single_producer (nodes_of st) ->
  In p (nodes_of st) ->
  exists cs,
    get_children p None st = Ok (cs, cached st) /\
    forall c, In c cs ->
      In c (nodes_of st) /\
      exists ps,
        get_parents c None (cached st) = Ok (ps, cached st) /\ In p ps.
Proof.
  intros Hsingle Hp. rewrite get_children_eq. simpl.
  eexists. split; [reflexivity|]. intros c Hc.
  apply children_of_index_inputs in Hc as (Hc & k & Hout & Hin).
  split; [exact Hc|].
  rewrite get_parents_eq. simpl. rewrite nodes_of_cached, cached_cached.
  eexists. split; [reflexivity|].
  apply parents_of_index_outputs. exists k. split; [exact Hin|].
  apply (single_producer_unique _ p p k); assumption.
Qed.

Lemma get_children_linked_back_witness :
  exists cs,
    get_children relu_node None recurrent_model
      = Ok (cs, cached recurrent_model) /\
    forall c, In c cs ->
      In c (nodes_of recurrent_model) /\
      exists ps,
        get_parents c None (cached recurrent_model)
          = Ok (ps, cached recurrent_model) /\ In relu_node ps.
Proof.
  apply (get_children_linked_back recurrent_model relu_node).
  - unfold single_producer.
    apply (@bool_decide_eq_true_1 _
             (NoDup_dec (flat_map output (nodes_of recurrent_model)))).
    vm_compute. reflexivity.
  - vm_compute. right. left. reflexivity.
Defined.

(** ** Parents by position and by type *)

Lemma get_parent_eq node i arg st :
  get_parent node i arg st =
  res_bind (get_parent_in (default (index_outputs (nodes_of st)) arg) node i)
           (fun r => Ok (r, after_query arg st)).
Proof.
  unfold get_parent, bind, lift. destruct arg as [d|]; simpl.
  - destruct (get_parent_in _ _ _); reflexivity.
  - unfold output_name_to_node, bind. rewrite nodes_eq. simpl.
    destruct (get_parent_in _ _ _); reflexivity.
Qed.

(** X6. [get_parent(node, i)] takes [i] as Python takes an index: at or past
    the number of inputs the answer is [None]; a negative [i] counts from
    the last input, and the call raises [IndexError] when it goes before
    the first one.  Otherwise the answer is the producer of the input at
    that position, [None] when the dictionary has none. *)
Theorem get_parent_counts_from_end (st : OnnxModel) (node : NodeProto)
    (i : Z) (arg : option (gmap string NodeProto)) :
  let d := default (index_outputs (nodes_of st)) arg in
  let n := Z.of_nat (length (input node)) in
  ((n <= i)%Z -> get_parent node i arg st = Ok (None, after_query arg st)) /\
  ((0 <= i < n)%Z ->
   exists x, input node !! Z.to_nat i = Some x /\
             get_parent node i arg st = Ok (d !! x, after_query arg st)) /\
  ((- n <= i < 0)%Z ->
   exists x, input node !! Z.to_nat (n + i) = Some x /\
             get_parent node i arg st = Ok (d !! x, after_query arg st)) /\
  ((i < - n)%Z -> get_parent node i arg st = Raise IndexError).
Proof.
  intros d n. rewrite get_parent_eq. fold d. unfold get_parent_in. fold n.
  repeat split.
  - intros H. destruct (Z.leb_spec n i); [reflexivity|lia].
  - intros H. destruct (Z.leb_spec n i); [lia|].
    destruct (lookup_lt_is_Some_2 (input node) (Z.to_nat i)) as [x Hx];
      [lia|].
    exists x. split; [exact Hx|].
    rewrite <- (Z2Nat.id i) at 1 by lia.
    rewrite (py_getitem_position _ _ _ Hx). reflexivity.
  - intros H. destruct (Z.leb_spec n i); [lia|].
    destruct (lookup_lt_is_Some_2 (input node) (Z.to_nat (n + i)))
      as [x Hx]; [lia|].
    exists x. split; [exact Hx|].
    unfold py_getitem. fold n.
    destruct (Z.ltb_spec i 0); [|lia].
    destruct (Z.ltb_spec (n + i) 0); [lia|].
    destruct (Z.leb_spec n (n + i)); [lia|].
    simpl. rewrite Hx. reflexivity.
  - intros H. destruct (Z.leb_spec n i); [lia|].
    unfold py_getitem. fold n.
    destruct (Z.ltb_spec i 0); [|lia].
    destruct (Z.ltb_spec (n + i) 0); [|lia]. reflexivity.
Qed.

Lemma get_parent_counts_from_end_witness :
  (exists x, input clip_node !! Z.to_nat (3 + -3) = Some x /\
             get_parent clip_node (-3)%Z None recurrent_model
             = Ok (index_outputs (nodes_of recurrent_model) !! x,
                   cached recurrent_model)) /\
  get_parent clip_node (-4)%Z None recurrent_model = Raise IndexError.
Proof.
  pose proof (get_parent_counts_from_end recurrent_model clip_node (-3)%Z None)
    as (_ & _ & H3 & _).
  pose proof (get_parent_counts_from_end recurrent_model clip_node (-4)%Z None)
    as (_ & _ & _ & H4).
  split.
  - apply H3. simpl. lia.
  - apply H4. simpl. lia.
Defined.

Lemma match_first_parent_from_exclude d ty exclude inputs : forall i0,
  match match_first_parent_from i0 inputs ty d exclude with
  | (Some p, Some i) =>
      exists k x, i = i0 + k /\ inputs !! k = Some x /\ d !! x = Some p /\
                  op_type p = ty /\ node_in p exclude = false /\
                  forall j y q, j < k -> inputs !! j = Some y ->
                    d !! y = Some q ->
                    op_type q <> ty \/ node_in q exclude = true
  | (None, None) =>
      forall k x q, inputs !! k = Some x -> d !! x = Some q ->
                    op_type q <> ty \/ node_in q exclude = true
  | _ => False
  end.
Proof.
  induction inputs as [|x inputs IH]; intros i0; simpl.
  - intros k y q Hk. destruct k; discriminate.
  - assert (Hnext :
      (forall q, d !! x = Some q ->
                 op_type q <> ty \/ node_in q exclude = true) ->
      match match_first_parent_from (S i0) inputs ty d exclude with
      | (Some p, Some i) =>
          exists k x0, i = i0 + k /\ (x :: inputs) !! k = Some x0 /\
                  d !! x0 = Some p /\
                  op_type p = ty /\ node_in p exclude = false /\
                  forall j y q, j < k -> (x :: inputs) !! j = Some y ->
                    d !! y = Some q ->
                    op_type q <> ty \/ node_in q exclude = true
      | (None, None) =>
          forall k x0 q, (x :: inputs) !! k = Some x0 -> d !! x0 = Some q ->
                        op_type q <> ty \/ node_in q exclude = true
      | _ => False
      end).
    { intros Hx. specialize (IH (S i0)).
      destruct (match_first_parent_from (S i0) inputs ty d exclude)
        as [[p|] [i|]]; try exact IH.
      - destruct IH as (k & y & Hi & Hk & Hy & Hty & Hex & Hfirst).
        exists (S k), y. split; [lia|]. repeat split; try assumption.
        intros j z q Hj Hz Hq. destruct j as [|j]; simpl in Hz.
        + injection Hz as <-. apply Hx, Hq.
        + apply (Hfirst j z q); [lia|assumption..].
      - intros k y q Hk Hy. destruct k as [|k]; simpl in Hk.
        + injection Hk as <-. apply Hx, Hy.
        + apply (IH k y q Hk Hy). }
    destruct (d !! x) as [parent|] eqn:Ex; [|apply Hnext; discriminate].
    destruct (bool_decide_reflect (op_type parent = ty)) as [Hty|Hty]; simpl.
    + destruct (node_in parent exclude) eqn:Eex; simpl.
      * apply Hnext. intros q [= <-]. right. exact Eex.
      * exists 0, x. split; [lia|]. repeat split; try assumption.
        intros; lia.
    + apply Hnext. intros q [= <-]. left. exact Hty.
Qed.

Lemma match_parent_eq node ty idx arg exclude r st :
  match_parent node ty idx arg exclude r st =
  res_bind (match_parent_in (default (index_outputs (nodes_of st)) arg) node
                            ty idx exclude r)
           (fun a => Ok (a, after_query arg st)).
Proof.
  unfold match_parent, bind, lift. destruct arg as [d|]; simpl.
  - destruct (match_parent_in _ _ _ _ _ _); reflexivity.
  - unfold output_name_to_node, bind. rewrite nodes_eq. simpl.
    destruct (match_parent_in _ _ _ _ _ _); reflexivity.
Qed.

(** X7. What [match_parent] returns when it returns: a parent it answers is
    a producer of an input of the node, has the operator type asked for and
    is not equal to any node of [exclude].  With an input index the list
    [return_indice] is left as it was; without one it gets one more entry
    on every call, the position of the matched input, or [None] when no
    parent matched. *)
Theorem match_parent_answer (st : OnnxModel) (node : NodeProto) (ty : string)
    (idx : option Z) (arg : option (gmap string NodeProto))
    (exclude : list NodeProto) (r r' : indice) (res : option NodeProto)
    (st' : OnnxModel) :
  match_parent node ty idx arg exclude r st = Ok ((res, r'), st') ->
  let d := default (index_outputs (nodes_of st)) arg in
  (forall p, res = Some p ->
     op_type p = ty /\ node_in p exclude = false /\ In p (parents_of d node)) /\
  match idx with
  | Some _ => r' = r
  | None =>
      exists k, r' = indice_append r k /\
                (k = None <-> res = None) /\
                forall j, k = Some j ->
                  exists x, input node !! j = Some x /\ d !! x = res
  end.
Proof.
  intros Hrun d. rewrite match_parent_eq in Hrun. fold d in Hrun.
  assert (Hparent : forall x p, x ∈ input node -> d !! x = Some p ->
                                In p (parents_of d node)).
  { intros x p Hx Hp. unfold parents_of. apply in_flat_map. exists x.
    split; [apply list_elem_of_In, Hx|]. rewrite Hp. left. reflexivity. }
  unfold match_parent_in in Hrun. destruct idx as [i|].
  - destruct (0 <=? i)%Z; [|discriminate]. simpl in Hrun.
    destruct (Z.leb_spec (Z.of_nat (length (input node))) i) as [Hout|Hin].
    { injection Hrun as <- <- _. split; [discriminate|reflexivity]. }
    unfold get_parent_in in Hrun.
    destruct (Z.leb_spec (Z.of_nat (length (input node))) i); [lia|].
    destruct (py_getitem (input node) i) as [x| |] eqn:Ex; try discriminate.
    simpl in Hrun.
    assert (Hx : x ∈ input node).
    { unfold py_getitem in Ex.
      destruct (_ || _)%bool; [discriminate|].
      destruct (input node !! _) eqn:E; [|discriminate].
      injection Ex as <-. eapply list_elem_of_lookup_2. exact E. }
    destruct (d !! x) as [p|] eqn:Ed.
    + destruct (bool_decide_reflect (op_type p = ty)) as [Hty|Hty];
        simpl in Hrun.
      * destruct (node_in p exclude) eqn:Eex; simpl in Hrun;
          injection Hrun as <- <- _; (split; [|reflexivity]).
        -- discriminate.
        -- intros q [= <-]. repeat split; try assumption.
           apply (Hparent x); assumption.
      * injection Hrun as <- <- _. split; [discriminate|reflexivity].
    + injection Hrun as <- <- _. split; [discriminate|reflexivity].
  - simpl in Hrun. unfold match_first_parent in Hrun.
    pose proof (match_first_parent_from_exclude d ty exclude (input node) 0)
      as H.
    destruct (match_first_parent_from 0 (input node) ty d exclude)
      as [[p|] [i|]]; [|destruct H|destruct H|]; simpl in Hrun;
      injection Hrun as <- <- _.
    + destruct H as (k & x & -> & Hk & Hx & Hty & Hex & _). split.
      * intros q [= <-]. repeat split; try assumption.
        apply (Hparent x); [|exact Hx].
        eapply list_elem_of_lookup_2. exact Hk.
      * exists (Some (0 + k)). split; [reflexivity|]. split.
        -- split; discriminate.
        -- intros j [= <-]. exists x. auto.
    + split; [discriminate|]. exists None. split; [reflexivity|].
      split; [tauto|discriminate].
Qed.

Lemma match_parent_answer_witness :
  (forall p, Some relu_node = Some p ->
     op_type p = "Relu"%string /\ node_in p [lstm_node] = false /\
     In p (parents_of (index_outputs (nodes_of recurrent_model)) clip_node)) /\
  exists k, Some [Some 0] = indice_append (Some []) k /\
            (k = None <-> Some relu_node = None) /\
            forall j, k = Some j ->
              exists x, input clip_node !! j = Some x /\
                        index_outputs (nodes_of recurrent_model) !! x
                        = Some relu_node.
Proof.
  apply (match_parent_answer recurrent_model clip_node "Relu"%string None None
           [lstm_node] (Some []) (Some [Some 0]) (Some relu_node)
           (cached recurrent_model)).
  vm_compute. reflexivity.
Defined.

Lemma match_parent_paths_from_spec d node paths : forall z,
  Forall path_ok paths ->
  (exists i path ps r,
     paths !! i = Some path /\ ps <> [] /\
     chain d node (fst path) (snd path) ps /\
     match_parent_paths_from z d node paths
       = Ok ((z + Z.of_nat i)%Z, Some ps, Some r) /\
     forall j path', j < i -> paths !! j = Some path' ->
                     no_match d node path') \/
  (match_parent_paths_from z d node paths = Ok ((-1)%Z, None, None) /\
   forall path, In path paths -> no_match d node path).
Proof.
  induction paths as [|path paths IH]; intros z Hok.
  - right. split; [reflexivity|]. intros path [].
  - apply Forall_cons in Hok as [[Hlen Hpos] Hok]. simpl.
    destruct (match_parent_path_loop_spec d (fst path) (snd path) node []
                (Some []) Hlen Hpos) as (res & r' & Hrun & Hsome & Hnone).
    unfold match_parent_path_in.
    rewrite bool_decide_eq_true_2 by exact Hlen. simpl. rewrite Hrun. simpl.
    assert (Hskip : no_match d node path ->
      (exists i path0 ps r,
         (path :: paths) !! i = Some path0 /\ ps <> [] /\
         chain d node (fst path0) (snd path0) ps /\
         match_parent_paths_from (z + 1) d node paths
           = Ok ((z + Z.of_nat i)%Z, Some ps, Some r) /\
         forall j path', j < i -> (path :: paths) !! j = Some path' ->
                         no_match d node path') \/
      (match_parent_paths_from (z + 1) d node paths = Ok ((-1)%Z, None, None) /\
       forall path0, In path0 (path :: paths) -> no_match d node path0)).
    { intros Hno. destruct (IH (z + 1)%Z Hok)
        as [(i & path0 & ps & r & Hi & Hne & Hc & Hres & Hbefore)|[Hres Hall]].
      - left. exists (S i), path0, ps, r. repeat split; try assumption.
        + rewrite Hres. do 3 f_equal. lia.
        + intros j path' Hj Hpath'. destruct j as [|j]; simpl in Hpath'.
          * injection Hpath' as <-. exact Hno.
          * apply (Hbefore j); [lia|exact Hpath'].
      - right. split; [exact Hres|]. intros path0 [<-|Hin]; auto. }
    destruct res as [[|p l]|].
    + apply Hskip. left.
      destruct (proj1 (Hsome []) eq_refl) as (ps & Hps & Hc).
      symmetry in Hps. simpl in Hps. subst ps.
      apply chain_length in Hc. destruct (fst path); [reflexivity|].
      discriminate.
    + left. destruct (proj1 (Hsome (p :: l)) eq_refl) as (ps & Hps & Hc).
      simpl in Hps. subst ps.
      destruct r' as [r'|].
      * exists 0, path, (p :: l), r'. repeat split; try assumption.
        -- discriminate.
        -- do 3 f_equal. simpl. lia.
        -- intros j path' Hj. lia.
      * exfalso. clear -Hrun.
        assert (Hkeep : forall tys idxs cur acc r res r',
          match_parent_path_loop d cur tys idxs acc (Some r) = Ok (res, r') ->
          r' <> None).
        { clear. induction tys as [|ty tys IH]; intros idxs cur acc r res r' H.
          - simpl in H. injection H as _ <-. discriminate.
          - simpl in H. destruct idxs as [|i idxs]; [discriminate|].
            destruct (match_parent_in d cur ty i [] (Some r))
              as [[mp r1]| |] eqn:E; try discriminate.
            simpl in H.
            assert (exists r2, r1 = Some r2) as [r2 ->].
            { unfold match_parent_in in E. destruct i as [i|].
              - destruct (0 <=? i)%Z; [|discriminate]. simpl in E.
                destruct (_ <=? _)%Z; [injection E as _ <-; eauto|].
                destruct (get_parent_in d cur i) as [[q|]| |];
                  try discriminate; simpl in E;
                  [destruct (_ && _)|]; injection E as _ <-; eauto.
              - simpl in E.
                destruct (match_first_parent cur ty d []) as [q index].
                injection E as _ <-. simpl. eauto. }
            destruct mp as [q|].
            + apply (IH _ _ _ _ _ _ H).
            + injection H as _ <-. discriminate. }
        apply (Hkeep _ _ _ _ _ _ _ Hrun). reflexivity.
    + apply Hskip. right. apply Hnone. reflexivity.
Qed.

(** X8. [match_parent_paths] tries the paths in order and answers the first
    one that matches with at least one parent: its position, its parents
    and the indices found for its hops without an index.  A path with no
    hop is skipped, for its empty list of parents does not count as a
    match.  When every path is empty or fails the answer is
    [(-1, None, None)]. *)
Theorem match_parent_paths_first_match (d : gmap string NodeProto)
    (node : NodeProto) (paths : list (list string * list (option Z))) :
  Forall path_ok paths ->
  (exists i path ps r,
     paths !! i = Some path /\ ps <> [] /\
     chain d node (fst path) (snd path) ps /\
     match_parent_paths node paths d = Ok (Z.of_nat i, Some ps, Some r) /\
     forall j path', j < i -> paths !! j = Some path' ->
                     no_match d node path') \/
  (match_parent_paths node paths d = Ok ((-1)%Z, None, None) /\
   forall path, In path paths -> no_match d node path).
Proof.
  intros Hok. unfold match_parent_paths.
  destruct (match_parent_paths_from_spec d node paths 0%Z Hok)
    as [(i & path & ps & r & H)|H]; [left|right; exact H].
  exists i, path, ps, r. exact H.
Qed.

Lemma match_parent_paths_first_match_witness :
  let d := index_outputs (nodes_of recurrent_model) in
  let paths := [([], []); (["Relu"; "LSTM"]%string, [Some 0%Z; None])] in
  (exists i path ps r,
     paths !! i = Some path /\ ps <> [] /\
     chain d clip_node (fst path) (snd path) ps /\
     match_parent_paths clip_node paths d = Ok (Z.of_nat i, Some ps, Some r) /\
     forall j path', j < i -> paths !! j = Some path' ->
                     no_match d clip_node path') \/
  (match_parent_paths clip_node paths d = Ok ((-1)%Z, None, None) /\
   forall path, In path paths -> no_match d clip_node path).
Proof.
  intros d paths. apply (match_parent_paths_first_match d clip_node paths).
  unfold paths, path_ok. repeat apply Forall_cons_2; try apply Forall_nil_2;
    (split; [reflexivity|]).
  - apply Forall_nil_2.
  - repeat apply Forall_cons_2; try apply Forall_nil_2; simpl; [lia|exact I].
Defined.

(** ** Searches by operator type *)

Lemma find_first_loop_direct next ty recursive : forall dq fuel tail c,
  List.find (has_type ty) dq = Some c -> length dq <= fuel ->
  find_first_loop next ty recursive fuel (dq ++ tail) = Ok (Some c).
Proof.
  induction dq as [|x dq IH]; intros fuel tail c Hfind Hfuel; [discriminate|].
  simpl in Hfind, Hfuel. destruct fuel as [|fuel]; [lia|]. simpl.
  unfold has_type in Hfind.
  destruct (bool_decide (op_type x = ty)); [congruence|].
  destruct recursive.
  - rewrite <- app_assoc. apply IH; [exact Hfind|lia].
  - apply IH; [exact Hfind|lia].
Qed.

Lemma find_first_loop_shallow next ty : forall dq fuel,
  length dq <= fuel ->
  find_first_loop next ty false fuel dq = Ok (List.find (has_type ty) dq).
Proof.
  induction dq as [|x dq IH]; intros fuel Hfuel;
    [destruct fuel; reflexivity|].
  simpl in Hfuel. destruct fuel as [|fuel]; [lia|]. simpl.
  unfold has_type at 1.
  destruct (bool_decide (op_type x = ty)); [reflexivity|].
  apply IH. lia.
Qed.

Lemma find_first_loop_last next ty recursive dq fuel :
  length dq <= fuel ->
  recursive = false \/ (exists c, In c dq /\ op_type c = ty) ->
  find_first_loop next ty recursive fuel dq = Ok (List.find (has_type ty) dq).
Proof.
  intros Hfuel Hcase.
  destruct (List.find (has_type ty) dq) as [c|] eqn:Efind.
  - rewrite <- (app_nil_r dq).
    apply find_first_loop_direct; assumption.
  - destruct Hcase as [->|(c & Hc & Hty)].
    + rewrite find_first_loop_shallow by exact Hfuel. rewrite Efind.
      reflexivity.
    + pose proof (find_none _ _ Efind c Hc) as Hno.
      apply bool_decide_eq_false in Hno. contradiction.
Qed.

(** X9. Among the consumers of the outputs of a node, in the order in which
    [get_children] lists them, [find_first_child_by_type] answers the last
    one that has the type, not the first: the deque is read from its right
    end.  This holds for a search that is not recursive, and for a
    recursive one as soon as one of these consumers has the type, for they
    are all tried before the consumers of their outputs.
    [find_first_parent_by_type] does the same with the producers listed by
    [get_parents]. *)
Theorem find_first_by_type_answers_last (st : OnnxModel) (node : NodeProto)
    (ty : string) (consumers : option (gmap string (list NodeProto)))
    (producers : option (gmap string NodeProto)) (recursive : bool)
    (fuel : nat) :
  let cs := children_of (default (index_inputs (nodes_of st)) consumers) node in
  let ps := parents_of (default (index_outputs (nodes_of st)) producers) node in
  (length cs <= fuel ->
   recursive = false \/ (exists c, In c cs /\ op_type c = ty) ->
   find_first_child_by_type fuel node ty consumers recursive st
   = Ok (List.find (has_type ty) (rev cs), after_query consumers st)) /\
  (length ps <= fuel ->
   recursive = false \/ (exists p, In p ps /\ op_type p = ty) ->
   find_first_parent_by_type fuel node ty producers recursive st
   = Ok (List.find (has_type ty) (rev ps), after_query producers st)).
Proof.
  intros cs ps. split; intros Hfuel Hcase.
  - rewrite find_first_child_by_type_eq. cbv zeta. fold cs. unfold deque.
    rewrite find_first_loop_last; [reflexivity|rewrite length_rev; exact Hfuel|].
    destruct Hcase as [->|(c & Hc & Hty)]; [left; reflexivity|right].
    exists c. split; [apply in_rev in Hc; exact Hc|exact Hty].
  - rewrite find_first_parent_by_type_eq. cbv zeta. fold ps. unfold deque.
    rewrite find_first_loop_last; [reflexivity|rewrite length_rev; exact Hfuel|].
    destruct Hcase as [->|(p & Hp & Hty)]; [left; reflexivity|right].
    exists p. split; [apply in_rev in Hp; exact Hp|exact Hty].
Qed.

Lemma find_first_by_type_answers_last_witness :
  find_first_child_by_type 2 split_node "Relu" None true fanout_model
  = Ok (Some relu_b, cached fanout_model) /\
  find_first_parent_by_type 2 join_node "Relu" None true fanout_model
  = Ok (Some relu_b, cached fanout_model).
Proof.
  split.
  - refine (eq_trans
              (proj1 (find_first_by_type_answers_last fanout_model split_node
                        "Relu" None None true 2) _ _) _).
    + vm_compute. lia.
    + right. exists relu_a. split; [vm_compute; tauto|reflexivity].
    + vm_compute. reflexivity.
  - refine (eq_trans
              (proj2 (find_first_by_type_answers_last fanout_model join_node
                        "Relu" None None true 2) _ _) _).
    + vm_compute. lia.
    + right. exists relu_a. split; [vm_compute; tauto|reflexivity].
    + vm_compute. reflexivity.
Defined.

Lemma reaches_no_seed next stop_nodes y : ~ reaches next stop_nodes [] y.
Proof. intros H. induction H as [x []|x y _ IH _ _]; exact IH. Qed.

Lemma reaches_pop next x dq y :
  reaches next [] (x :: dq) y -> y = x \/ reaches next [] (dq ++ next x) y.
Proof.
  intros H. induction H as [s [<-|Hs] Hstop|x0 y Hx0 IH Hy Hstop].
  - left. reflexivity.
  - right. apply reaches_seed; [apply in_or_app; left; exact Hs|exact Hstop].
  - destruct IH as [->|IH].
    + right. apply reaches_seed; [apply in_or_app; right; exact Hy|exact Hstop].
    + right. apply (reaches_step _ _ _ x0); assumption.
Qed.

Lemma reaches_push next x dq y :
  reaches next [] (dq ++ next x) y -> reaches next [] (x :: dq) y.
Proof.
  intros H. induction H as [s Hs Hstop|x0 y Hx0 IH Hy Hstop].
  - apply in_app_or in Hs as [Hs|Hs].
    + apply reaches_seed; [right; exact Hs|exact Hstop].
    + apply (reaches_step _ _ _ x); [|exact Hs|exact Hstop].
      apply reaches_seed; [left; reflexivity|reflexivity].
  - apply (reaches_step _ _ _ x0); assumption.
Qed.

Lemma find_first_loop_sound next ty fuel : forall dq r,
  find_first_loop next ty true fuel dq = Ok r ->
  match r with
  | Some c => op_type c = ty /\ reaches next [] dq c
  | None => forall c, reaches next [] dq c -> op_type c <> ty
  end.
Proof.
  induction fuel as [|fuel IH]; intros dq r Hrun.
  - destruct dq; [|discriminate]. injection Hrun as <-.
    intros c Hc. destruct (reaches_no_seed _ _ _ Hc).
  - destruct dq as [|cur dq].
    { injection Hrun as <-. intros c Hc. destruct (reaches_no_seed _ _ _ Hc). }
    simpl in Hrun.
    destruct (bool_decide_reflect (op_type cur = ty)) as [Hty|Hty].
    + injection Hrun as <-. split; [exact Hty|].
      apply reaches_seed; [left; reflexivity|reflexivity].
    + specialize (IH _ _ Hrun). destruct r as [c|].
      * destruct IH as [Hc Hreach]. split; [exact Hc|].
        apply reaches_push, Hreach.
      * intros c Hc. apply reaches_pop in Hc as [->|Hc]; [exact Hty|].
        apply IH, Hc.
Qed.

(** X10. What a recursive search by type answers when it returns: a node of
    the type that is reached from the node along the edges of the
    dictionary, or [None], and then no node reached from the node has the
    type. *)
Theorem find_first_by_type_searches_reachable (st : OnnxModel)
    (node : NodeProto) (ty : string)
    (consumers : option (gmap string (list NodeProto)))
    (producers : option (gmap string NodeProto)) (fuel : nat) :
  let din := default (index_inputs (nodes_of st)) consumers in
  let dout := default (index_outputs (nodes_of st)) producers in
  (forall r st',
     find_first_child_by_type fuel node ty consumers true st = Ok (r, st') ->
     match r with
     | Some c =>
         op_type c = ty /\
         reaches (children_of din) [] (children_of din node) c
     | None =>
         forall c, reaches (children_of din) [] (children_of din node) c ->
                   op_type c <> ty
     end) /\
  (forall r st',
     find_first_parent_by_type fuel node ty producers true st = Ok (r, st') ->
     match r with
     | Some p =>
         op_type p = ty /\
         reaches (parents_of dout) [] (parents_of dout node) p
     | None =>
         forall p, reaches (parents_of dout) [] (parents_of dout node) p ->
                   op_type p <> ty
     end).
Proof.
  intros din dout.
  assert (Hrev : forall next (l : list NodeProto) c,
            reaches next [] (deque l) c <-> reaches next [] l c).
  { assert (Hsub : forall next (l l' : list NodeProto) c,
              (forall x, In x l -> In x l') ->
              reaches next [] l c -> reaches next [] l' c).
    { intros next l l' c Hsub H.
      induction H as [s Hs Hstop|x y Hx IH Hy Hstop].
      - apply reaches_seed; auto.
      - apply (reaches_step _ _ _ x); assumption. }
    intros next l c. unfold deque. split; apply Hsub; intros x Hx.
    - apply in_rev. exact Hx.
    - apply in_rev in Hx. exact Hx. }
  split; intros r st' Hrun.
  - rewrite find_first_child_by_type_eq in Hrun. cbv zeta in Hrun.
    fold din in Hrun.
    destruct (find_first_loop _ _ _ _ _) as [r0| |] eqn:Eloop;
      try discriminate.
    injection Hrun as <- _. apply find_first_loop_sound in Eloop.
    destruct r0 as [c|].
    + destruct Eloop as [Hty Hc]. split; [exact Hty|apply Hrev, Hc].
    + intros c Hc. apply Eloop, Hrev, Hc.
  - rewrite find_first_parent_by_type_eq in Hrun. cbv zeta in Hrun.
    fold dout in Hrun.
    destruct (find_first_loop _ _ _ _ _) as [r0| |] eqn:Eloop;
      try discriminate.
    injection Hrun as <- _. apply find_first_loop_sound in Eloop.
    destruct r0 as [c|].
    + destruct Eloop as [Hty Hc]. split; [exact Hty|apply Hrev, Hc].
    + intros c Hc. apply Eloop, Hrev, Hc.
Qed.

Lemma find_first_by_type_searches_reachable_witness :
  (op_type join_node = "Add"%string /\
   reaches (children_of (index_inputs (nodes_of fanout_model))) []
           (children_of (index_inputs (nodes_of fanout_model)) split_node)
           join_node) /\
  (forall p,
     reaches (parents_of (index_outputs (nodes_of fanout_model))) []
             (parents_of (index_outputs (nodes_of fanout_model)) join_node) p ->
     op_type p <> "Softmax"%string).
Proof.
  split.
  - apply (proj1 (find_first_by_type_searches_reachable fanout_model split_node
                    "Add" None None 3) (Some join_node) (cached fanout_model)).
    vm_compute. reflexivity.
  - apply (proj2 (find_first_by_type_searches_reachable fanout_model join_node
                    "Softmax" None None 4) None (cached fanout_model)).
    vm_compute. reflexivity.
Defined.

(** X11. [get_parent_subgraph_nodes] returns on every model, for every node
    and dictionary, and never raises: the answer is the set of the nodes
    reached from the producers of the inputs of the node, stop nodes left
    out and not gone through, each node once.  The node itself is in the
    answer only when it is reached again. *)
Theorem get_parent_subgraph_nodes_collects (st : OnnxModel) (node : NodeProto)
    (stop_nodes : list NodeProto) (arg : option (gmap string NodeProto)) :
  let d := default (index_outputs (nodes_of st)) arg in
  exists fuel0, forall fuel, fuel0 <= fuel ->
    exists r,
      get_parent_subgraph_nodes fuel node stop_nodes arg st
        = Ok (r, after_query arg st) /\
      (forall x, node_in x r = true <->
                 exists y, reaches (parents_of d) stop_nodes
                                   (parents_of d node) y /\
                           erase_node y = erase_node x) /\
      NoDup (List.map erase_node r).
Proof.
  intros d.
  exists (length (deque (parents_of d node)) +
          unvisited_weight (parents_of d) (dict_nodes d) []).
  intros fuel Hfuel.
  destruct (subgraph_loop_terminates (parents_of d) stop_nodes
              (dict_nodes d)
              (fun x y Hy =>
                 match parents_of_in d x y Hy with
                 | ex_intro _ k Hk => dict_nodes_in d k y Hk
                 end)
              fuel (deque (parents_of d node)) []
              (Forall_in_rev (parents_of d node) (dict_nodes d)
                 (fun x Hx =>
                    match parents_of_in d node x Hx with
                    | ex_intro _ k Hk => dict_nodes_in d k x Hk
                    end))
              Hfuel) as [r Hr].
  exists r. split.
  - rewrite get_parent_subgraph_nodes_eq. fold d.
    unfold get_parent_subgraph_nodes_in. rewrite Hr. reflexivity.
  - destruct (subgraph_loop_result (parents_of d) stop_nodes
                (parents_of d node) (parents_of_respects d) fuel
                (deque (parents_of d node)) [] r Hr)
      as (Hsound & Hcomplete & Hnodup).
    + intros x [].
    + intros x Hx. left. apply in_rev. exact Hx.
    + intros s Hs. right. right. apply node_in_self.
      apply in_rev in Hs. exact Hs.
    + intros x y [].
    + constructor.
    + split; [|exact Hnodup]. intros x. split.
      * intros Hx. apply node_in_spec in Hx as (y & Hy & He).
        exists y. split; [apply Hsound, Hy|symmetry; exact He].
      * intros (y & Hy & He).
        rewrite <- (node_in_respects y x r He). apply Hcomplete, Hy.
Qed.

(** ** Renaming of inputs *)

Lemma input_index_from_absent x inputs : forall z,
  x ∉ inputs -> input_index_from z x inputs = (-1)%Z.
Proof.
  induction inputs as [|i inputs IH]; intros z Hx; [reflexivity|]. simpl.
  apply not_elem_of_cons in Hx as [Hne Hx].
  rewrite bool_decide_eq_false_2 by congruence. apply IH, Hx.
Qed.

Lemma input_index_from_first x inputs : forall z,
  x ∈ inputs ->
  exists k, input_index_from z x inputs = (z + Z.of_nat k)%Z /\
            inputs !! k = Some x /\
            forall j, j < k -> inputs !! j <> Some x.
Proof.
  induction inputs as [|i inputs IH]; intros z Hx.
  - apply elem_of_nil in Hx. destruct Hx.
  - simpl. destruct (bool_decide_reflect (i = x)) as [->|Hne].
    + exists 0. split; [lia|]. split; [reflexivity|]. intros j Hj. lia.
    + apply elem_of_cons in Hx as [->|Hx]; [congruence|].
      destruct (IH (z + 1)%Z Hx) as (k & Hk & Hat & Hfirst).
      exists (S k). split; [lia|]. split; [exact Hat|].
      intros j Hj. destruct j as [|j]; simpl; [congruence|].
      apply Hfirst. lia.
Qed.

(** X12. [input_index(name, child)] is the position of the first input of
    [child] that is [name], and [-1] exactly when no input is. *)
Theorem input_index_first_position (x : string) (child : NodeProto) :
  (input_index x child = (-1)%Z <-> x ∉ input child) /\
  (forall k : nat,
     input_index x child = Z.of_nat k <->
     input child !! k = Some x /\
     forall j, j < k -> input child !! j <> Some x).
Proof.
  unfold input_index.
  destruct (decide (x ∈ input child)) as [Hin|Hout].
  - destruct (input_index_from_first x (input child) 0%Z Hin)
      as (k0 & Hk0 & Hat & Hfirst).
    rewrite Hk0. split.
    + split; [lia|]. intros H. contradiction.
    + intros k. split.
      * intros Hk. assert (k = k0) as -> by lia. auto.
      * intros [Hk Hbefore].
        destruct (Nat.lt_trichotomy k k0) as [Hlt|[->|Hlt]].
        -- destruct (Hfirst k Hlt Hk).
        -- reflexivity.
        -- destruct (Hbefore k0 Hlt Hat).
  - rewrite input_index_from_absent by exact Hout. split.
    + split; [intros _; exact Hout|reflexivity].
    + intros k. split; [lia|]. intros [Hk _]. exfalso. apply Hout.
      eapply list_elem_of_lookup_2. exact Hk.
Qed.

Lemma input_index_from_rename (old new x : string) inputs : forall z,
  x <> old -> x <> new ->
  input_index_from z x (List.map (rename (PyStr old) (PyStr new)) inputs)
  = input_index_from z x inputs.
Proof.
  induction inputs as [|i inputs IH]; intros z Ho Hn; [reflexivity|].
  simpl. rewrite IH by assumption.
  destruct (bool_decide_reflect (i = old)) as [->|Hio].
  - rewrite !bool_decide_eq_false_2 by congruence. reflexivity.
  - reflexivity.
Qed.

Lemma rename_elem_of (old new x : string) (l : list string) :
  x ∈ List.map (rename (PyStr old) (PyStr new)) l <->
  (x ∈ l /\ x <> old) \/ (x = new /\ old ∈ l).
Proof.
  rewrite (list_elem_of_In (List.map _ l)), in_map_iff. split.
  - intros (i & Hi & Hin). apply list_elem_of_In in Hin. simpl in Hi.
    destruct (bool_decide_reflect (i = old)) as [Heq|Hne].
    + subst i. right. auto.
    + left. subst x. auto.
  - intros [[Hin Hne]|[-> Hin]].
    + exists x. split; [|apply list_elem_of_In, Hin]. simpl.
      rewrite bool_decide_eq_false_2 by exact Hne. reflexivity.
    + exists old. split; [|apply list_elem_of_In, Hin]. simpl.
      rewrite bool_decide_eq_true_2 by reflexivity. reflexivity.
Qed.

(** X13. [replace_node_input(node, old, new)] with two strings changes the
    inputs of the node and nothing else, and keeps their number.
    Afterwards [old] is no input any longer (when [new] is another name),
    [new] is an input exactly when [old] or [new] was one, and every other
    name is an input at the position it had. *)
Theorem replace_node_input_renames (node : NodeProto) (old new : string) :
  exists node',
    replace_node_input node (PyStr old) (PyStr new) = Ok node' /\
    (name node' = name node /\ op_type node' = op_type node /\
     output node' = output node /\ attribute node' = attribute node /\
     length (input node') = length (input node)) /\
    (old <> new -> input_index old node' = (-1)%Z) /\
    (input_index new node' = (-1)%Z <->
     (old ∉ input node) /\ (new ∉ input node)) /\
    (forall x, x <> old -> x <> new ->
               input_index x node' = input_index x node).
Proof.
  eexists. split; [reflexivity|]. split; [|split; [|split]].
  - simpl. rewrite length_map. auto.
  - intros Hne. apply input_index_first_position. simpl.
    rewrite rename_elem_of. intros [[_ H]|[H _]]; congruence.
  - rewrite (proj1 (input_index_first_position new _)). simpl.
    rewrite rename_elem_of. split.
    + intros H. split.
      * intros Hold. apply H. right. auto.
      * intros Hnew. destruct (decide (new = old)) as [->|Hne].
        -- apply H. right. auto.
        -- apply H. left. auto.
    + intros [Hold Hnew] [[H _]|[_ H]]; contradiction.
  - intros x Ho Hn. unfold input_index. simpl.
    apply input_index_from_rename; assumption.
Qed.

Lemma map_res_replace_input (old new : string) (ns : list NodeProto) :
  map_res (fun node => replace_node_input node (PyStr old) (PyStr new)) ns
  = Ok (List.map (fun node =>
          mkNode (name node) (op_type node)
                 (List.map (rename (PyStr old) (PyStr new)) (input node))
                 (output node) (attribute node)) ns).
Proof.
  induction ns as [|n ns IH]; [reflexivity|].
  simpl. rewrite IH. reflexivity.
Qed.

Lemma map_res_assert_fails {A} (f : A -> Res A) (l : list A) x :
  In x l -> (forall y, f y = Raise AssertionError) ->
  map_res f l = Raise AssertionError.
Proof. intros Hx Hf. destruct l as [|y l]; [destruct Hx|]. simpl. rewrite Hf. reflexivity. Qed.

Lemma set_node_model_same st :
  set_model_graph (set_node (g_node (model_graph st)) (model_graph st)) st = st.
Proof. destruct st as [[u s ns i o w] dt c m]. reflexivity. Qed.

(** X14. [replace_input_of_all_nodes(old, new)] renames in the nodes of the
    primary graph only: the graphs nested in its nodes, where a node may
    read [old] as well, are left as they are, and so are the inputs, the
    outputs and the initializers of the graph.  Afterwards no node of the
    primary graph reads [old] (when [new] is another name).  With an
    argument that is not a string the call raises [AssertionError], unless
    the primary graph has no node: the check is made node by node. *)
Theorem replace_input_of_all_nodes_primary_only (st : OnnxModel) :
  (forall old new : string,
     exists ns,
       replace_input_of_all_nodes (PyStr old) (PyStr new) st
         = Ok (tt, set_model_graph (set_node ns (model_graph st)) st) /\
       Forall2 (fun n n' =>
                  replace_node_input n (PyStr old) (PyStr new) = Ok n')
               (g_node (model_graph st)) ns /\
       List.map node_graphs ns
         = List.map node_graphs (g_node (model_graph st)) /\
       (old <> new -> forall n, In n ns -> old ∉ input n)) /\
  (forall old new : pyval,
     isinstance_str old && isinstance_str new = false ->
     replace_input_of_all_nodes old new st =
       match g_node (model_graph st) with
       | [] => Ok (tt, st)
       | _ :: _ => Raise AssertionError
       end).
Proof.
  split.
  - intros old new. eexists. split; [|split; [|split]].
    + unfold replace_input_of_all_nodes, bind, get, lift.
      rewrite map_res_replace_input. reflexivity.
    + induction (g_node (model_graph st)) as [|n ns IH]; constructor;
        [reflexivity|exact IH].
    + rewrite List.map_map. reflexivity.
    + intros Hne n Hn. apply in_map_iff in Hn as (m & <- & _). simpl.
      rewrite rename_elem_of. intros [[_ H]|[H _]]; congruence.
  - intros old new Hstr.
    unfold replace_input_of_all_nodes, bind, get, lift.
    destruct (g_node (model_graph st)) as [|n ns] eqn:E; simpl.
    + unfold modify. rewrite <- E, set_node_model_same. reflexivity.
    + unfold replace_node_input. rewrite Hstr. reflexivity.
Qed.

Lemma replace_node_input_renames_witness :
  exists node',
    replace_node_input clip_node (PyStr "r") (PyStr "q") = Ok node' /\
    input_index "r" node' = (-1)%Z /\ input_index "q" node' <> (-1)%Z.
Proof.
  destruct (replace_node_input_renames clip_node "r" "q")
    as (node' & Hrun & _ & Hold & Hnew & _).
  exists node'. split; [exact Hrun|]. split.
  - apply Hold. discriminate.
  - intros H. apply Hnew in H as [H _]. apply H. left.
Defined.

Lemma replace_input_of_all_nodes_primary_only_witness :
  (exists ns,
     replace_input_of_all_nodes (PyStr "x") (PyStr "x0") branching_model
       = Ok (tt, set_model_graph (set_node ns branching_graph)
                                 branching_model) /\
     List.map node_graphs ns = [[]; [then_branch]] /\
     forall n, In n ns -> "x"%string ∉ input n) /\
  replace_input_of_all_nodes (PyStr "x") PyNone branching_model
    = Raise AssertionError.
Proof.
  pose proof (replace_input_of_all_nodes_primary_only branching_model)
    as [Hstr Hnot].
  split.
  - destruct (Hstr "x"%string "x0"%string) as (ns & Hrun & _ & Hnested & Hold).
    exists ns. split; [exact Hrun|]. split; [exact Hnested|].
    apply Hold. discriminate.
  - apply (Hnot (PyStr "x") PyNone). reflexivity.
Defined.

(** ** Adding nodes *)

Lemma for_each_add_node_primary ns : forall st,
  for_each ns (fun n => add_node n None) st =
  Ok (tt, set_model_graph
            (set_node (g_node (model_graph st) ++ ns) (model_graph st)) st).
Proof.
  induction ns as [|n ns IH]; intros st.
  - simpl. unfold ret. rewrite app_nil_r, set_node_model_same. reflexivity.
  - simpl. unfold bind at 1.
    change (add_node n None st) with
      (Ok (tt, set_model_graph
                 (set_node (g_node (model_graph st) ++ [n]) (model_graph st))
                 st)).
    cbv beta iota. rewrite IH. destruct st as [[u s ms i o w] dt c m]. simpl.
    rewrite <- app_assoc. reflexivity.
Qed.

Lemma add_nodes_keyed_step (d : gmap string (option string)) n ns st :
  add_nodes (n :: ns) (Some d) st =
  match d !! name n with
  | Some graph_name =>
      match add_node n graph_name st with
      | Ok (_, st') => add_nodes ns (Some d) st'
      | Raise e => Raise e
      | OutOfFuel => OutOfFuel
      end
  | None => Raise KeyError
  end.
Proof.
  unfold add_nodes. simpl. unfold bind, lift, py_dict_get.
  destruct (d !! name n); reflexivity.
Qed.

Lemma add_node_primary n st :
  add_node n None st =
  Ok (tt, set_model_graph
            (set_node (g_node (model_graph st) ++ [n]) (model_graph st)) st).
Proof. reflexivity. Qed.

(** X15. [add_nodes] with no dictionary does what [add_node] does for each
    node in turn: the nodes go to the end of the primary graph, in order.
    With a dictionary that maps every node name to [None] the result is the
    same.  With a dictionary, a node whose name is no key makes the call
    raise [KeyError], once the nodes before it have been added. *)
Theorem add_nodes_adds_each (st : OnnxModel) (ns : list NodeProto) :
  add_nodes ns None st = for_each ns (fun n => add_node n None) st /\
  (forall d : gmap string (option string),
     (forall n, In n ns -> d !! name n = Some None) ->
     add_nodes ns (Some d) st = add_nodes ns None st) /\
  (forall (d : gmap string (option string)) pre n post st1,
     ns = pre ++ n :: post ->
     add_nodes pre (Some d) st = Ok (tt, st1) ->
     d !! name n = None ->
     add_nodes ns (Some d) st = Raise KeyError).
Proof.
  split; [|split].
  - rewrite for_each_add_node_primary. reflexivity.
  - intros d. revert st. induction ns as [|n ns IH]; intros st Hd.
    + unfold add_nodes, modify. simpl. unfold ret.
      rewrite app_nil_r, set_node_model_same. reflexivity.
    + rewrite add_nodes_keyed_step, (Hd n) by (left; reflexivity).
      rewrite add_node_primary.
      rewrite IH by (intros m Hm; apply Hd; right; exact Hm).
      unfold add_nodes, modify.
      destruct st as [[u s ms i o w] dt c m]. simpl.
      rewrite <- app_assoc. reflexivity.
  - intros d pre n post st1 -> Hpre Hn.
    revert st Hpre. induction pre as [|m pre IH]; intros st Hpre.
    + change ([] ++ n :: post) with (n :: post).
      rewrite add_nodes_keyed_step, Hn. reflexivity.
    + change ((m :: pre) ++ n :: post) with (m :: (pre ++ n :: post)).
      rewrite add_nodes_keyed_step in *.
      destruct (d !! name m) as [graph_name|]; [|discriminate].
      destruct (add_node m graph_name st) as [[[] st']| |];
        try discriminate.
      apply IH. exact Hpre.
Qed.

Lemma add_nodes_adds_each_witness :
  add_nodes [abs_node; relu_node] (Some {[ "abs_0"%string := None ]})
            branching_model = Raise KeyError.
Proof.
  apply (proj2 (proj2 (add_nodes_adds_each branching_model
                         [abs_node; relu_node]))
           {[ "abs_0"%string := None ]} [abs_node] relu_node []
           (set_model_graph
              (set_node (g_node branching_graph ++ [abs_node]) branching_graph)
              branching_model)).
  - reflexivity.
  - vm_compute. reflexivity.
  - vm_compute. reflexivity.
Defined.

Lemma discover_head g : exists rest, discover g = oid g :: rest.
Proof.
  unfold discover. pose proof (subgraphs_nonempty g) as Hl.
  destruct (length (subgraphs g)) as [|k]; [lia|].
  simpl. rewrite graphs_loop_acc. eexists. reflexivity.
Qed.

Lemma deref_primary st : deref st (oid (model_graph st)) = Some (model_graph st).
Proof.
  unfold deref, store. simpl. rewrite (subgraphs_eq (model_graph st)). simpl.
  rewrite Nat.eqb_refl. reflexivity.
Qed.

Lemma get_graph_by_node_eq n st :
  get_graph_by_node n st =
  Ok (List.find (fun u => node_in n (graph_node st u)) (graphs_of st),
      cached st).
Proof. unfold get_graph_by_node, bind. rewrite graphs_eq. reflexivity. Qed.

Lemma find_present {A} (p : A -> bool) (l : list A) x :
  In x l -> p x = true -> exists y, List.find p l = Some y.
Proof.
  intros Hx Hp. destruct (List.find p l) as [y|] eqn:E; [eauto|].
  rewrite (find_none _ _ E x Hx) in Hp. discriminate.
Qed.

(** X16. A node that [add_node] has added is found: when the call returns,
    in a model whose list of graphs holds the primary graph,
    [get_graph_by_node] answers a discovered graph that holds the node (or
    a node equal to it). *)
Theorem add_node_then_found (st st' : OnnxModel) (n : NodeProto)
    (graph_name : option string) :
  In (oid (model_graph st)) (graphs_of st) ->
  add_node n graph_name st = Ok (tt, st') ->
  exists u,
    get_graph_by_node n st' = Ok (Some u, cached st') /\
    In u (graphs_of st') /\
    node_in n (graph_node st' u) = true.
Proof.
  intros Hprimary Hadd.
  assert (Hfound : exists u, In u (graphs_of st') /\
                             node_in n (graph_node st' u) = true).
  { unfold add_node, bind, get in Hadd.
    destruct (named_elsewhere graph_name st) as [s|].
    - rewrite get_graph_by_name_eq in Hadd.
      destruct (List.find _ (graphs_of st)) as [u|] eqn:Efind;
        [|discriminate].
      simpl in Hadd. unfold bind, get in Hadd. simpl in Hadd.
      injection Hadd as <-.
      apply find_some in Efind as [Hu Hname].
      rewrite <- deref_cached in Hname.
      destruct (deref (cached st) u) as [g|] eqn:Eg; [|discriminate].
      exists u. split; [exact Hu|]. unfold graph_node at 1.
      rewrite deref_store_update by (intros; apply oid_set_node).
      rewrite Eg. simpl. apply node_in_self. unfold py_insert.
      apply in_or_app. right. left. reflexivity.
    - injection Hadd as <-. exists (oid (model_graph st)). split.
      + unfold graphs_of in *. simpl.
        destruct (all_graphs st); [exact Hprimary|].
        destruct (discover_head
                    (set_node (g_node (model_graph st) ++ [n]) (model_graph st)))
          as [rest ->].
        left. reflexivity.
      + unfold graph_node.
        change (oid (model_graph st)) with
          (oid (model_graph
                  (set_model_graph
                     (set_node (g_node (model_graph st) ++ [n])
                               (model_graph st)) st))).
        rewrite deref_primary. simpl. apply node_in_self.
        apply in_or_app. right. left. reflexivity. }
  destruct Hfound as (u & Hu & Hin).
  rewrite get_graph_by_node_eq.
  destruct (find_present (fun u => node_in n (graph_node st' u)) _ u Hu Hin)
    as [v Hv].
  rewrite Hv. exists v. split; [reflexivity|].
  apply find_some in Hv. exact Hv.
Qed.

Lemma add_node_then_found_witness :
  exists u,
    get_graph_by_node abs_node
      (store_update 1 (fun g => set_node (abs_node :: g_node g) g)
                    (cached branching_model))
    = Ok (Some u,
          cached (store_update 1 (fun g => set_node (abs_node :: g_node g) g)
                               (cached branching_model))) /\
    In u (graphs_of (store_update 1
                       (fun g => set_node (abs_node :: g_node g) g)
                       (cached branching_model))) /\
    node_in abs_node
      (graph_node (store_update 1
                     (fun g => set_node (abs_node :: g_node g) g)
                     (cached branching_model)) u) = true.
Proof.
  apply (add_node_then_found branching_model _ abs_node
           (Some "then_branch"%string)).
  - vm_compute. left. reflexivity.
  - vm_compute. reflexivity.
Defined.

(** ** Order of constant resolution *)

Lemma constant_scan_skip output_name before : forall rest,
  (forall b, In b before -> passed_over output_name b) ->
  constant_scan (before ++ rest) output_name = constant_scan rest output_name.
Proof.
  induction before as [|b before IH]; intros rest Hpass; [reflexivity|].
  simpl. destruct (Hpass b (or_introl eq_refl)) as (o & Ho & Hcase).
  rewrite py_getitem_first, Ho. simpl.
  rewrite IH by (intros c Hc; apply Hpass; right; exact Hc).
  destruct (bool_decide_reflect (o = output_name)) as [->|Hne]; [|reflexivity].
  destruct Hcase as [Hne|Hnone]; [congruence|].
  unfold value_of in Hnone.
  destruct (List.find _ (attribute b)); [discriminate|reflexivity].
Qed.

Lemma get_constant_value_eq output_name st :
  get_constant_value output_name st =
  match constant_scan (constants_of st) output_name with
  | Ok (Some v) => Ok (Some v, cached st)
  | Ok None =>
      match List.find (fun tensor => bool_decide (t_name tensor = output_name))
                      (initializers_of st) with
      | Some t => res_bind (to_array t) (fun v => Ok (Some v, cached st))
      | None => Ok (None, cached st)
      end
  | Raise e => Raise e
  | OutOfFuel => OutOfFuel
  end.
Proof.
  unfold get_constant_value, bind. rewrite get_nodes_by_op_type_eq.
  fold (constants_of st). unfold lift.
  destruct (constant_scan (constants_of st) output_name) as [[v|]| |];
    try reflexivity.
  unfold res_bind. cbv beta iota.
  unfold get_initializer, bind. rewrite graphs_eq. unfold get, ret.
  cbv beta iota. rewrite cached_cached.
  change (flat_map _ (graphs_of (cached st))) with (initializers_of st).
  destruct (List.find _ (initializers_of st)) as [t|]; [|reflexivity].
  destruct (to_array t); reflexivity.
Qed.

(** X17. The order in which [get_constant_value(name)] looks: the first
    [Constant] node whose first output is [name] and which has an attribute
    [value] gives the answer, whatever initializer has that name; a
    [Constant] node with another first output, or with no [value], is
    passed over, and when all are, the first initializer named [name]
    gives the answer, [None] when there is none.  A [Constant] node with no
    output, met before the answer, makes the call raise [IndexError]. *)
Theorem get_constant_value_order (st : OnnxModel) (output_name : string) :
  (forall before c after t,
     constants_of st = before ++ c :: after ->
     (forall b, In b before -> passed_over output_name b) ->
     output c !! 0 = Some output_name -> value_of c = Some t ->
     get_constant_value output_name st =
     res_bind (to_array t) (fun v => Ok (Some v, cached st))) /\
  ((forall b, In b (constants_of st) -> passed_over output_name b) ->
   get_constant_value output_name st =
   match List.find (fun tensor => bool_decide (t_name tensor = output_name))
                   (initializers_of st) with
   | Some t => res_bind (to_array t) (fun v => Ok (Some v, cached st))
   | None => Ok (None, cached st)
   end) /\
  (forall before c after,
     constants_of st = before ++ c :: after ->
     (forall b, In b before -> passed_over output_name b) ->
     output c = [] ->
     get_constant_value output_name st = Raise IndexError).
Proof.
  split; [|split].
  - intros before c after t Hcs Hpass Hout Hval.
    rewrite get_constant_value_eq, Hcs, (constant_scan_skip _ _ _ Hpass).
    simpl. rewrite py_getitem_first, Hout. simpl.
    rewrite bool_decide_eq_true_2 by reflexivity.
    unfold value_of in Hval.
    destruct (List.find _ (attribute c)) as [att|]; [|discriminate].
    injection Hval as <-. destruct (to_array (attr_t att)); reflexivity.
  - intros Hpass. rewrite get_constant_value_eq.
    rewrite <- (app_nil_r (constants_of st)).
    rewrite (constant_scan_skip _ _ _ Hpass). reflexivity.
  - intros before c after Hcs Hpass Hout.
    rewrite get_constant_value_eq, Hcs, (constant_scan_skip _ _ _ Hpass).
    simpl. rewrite py_getitem_first, Hout. reflexivity.
Qed.

Lemma get_constant_value_order_witness :
  get_constant_value "k" shadow_model =
  res_bind (to_array (scalar 2))
           (fun v => Ok (Some v, cached shadow_model)).
Proof.
  apply (proj1 (get_constant_value_order shadow_model "k")
           [] (constant_node "k" 2) []).
  - reflexivity.
  - intros b [].
  - reflexivity.
  - reflexivity.
Defined.

(** ** Fusion *)

(** X18. [is_safe_to_fuse_nodes], with the dictionary of consumers of the
    model, answers [True] exactly when every name that a node to remove
    produces and that a node of the model reads is kept, or is read only by
    nodes that are removed as well. *)
Theorem is_safe_to_fuse_nodes_iff (st : OnnxModel)
    (nodes_to_remove : list NodeProto) (keep_outputs : list string) :
  is_safe_to_fuse_nodes nodes_to_remove keep_outputs
                        (index_inputs (nodes_of st)) = true <->
  forall r x m,
    In r nodes_to_remove -> x ∈ output r ->
    In m (nodes_of st) -> x ∈ input m ->
    x ∈ keep_outputs \/ node_in m nodes_to_remove = true.
Proof.
  unfold is_safe_to_fuse_nodes. rewrite forallb_forall. split.
  - intros H r x m Hr Hx Hm Hin.
    specialize (H r Hr). rewrite forallb_forall in H.
    specialize (H x (proj1 (list_elem_of_In _ _) Hx)).
    apply orb_true_iff in H as [H|H].
    + left. apply bool_decide_eq_true in H. exact H.
    + right. rewrite forallb_forall in H. apply H.
      rewrite index_inputs_lookup, nonempty_opt_default.
      apply consumers_of_in. auto.
  - intros H r Hr. apply forallb_forall. intros x Hx.
    apply list_elem_of_In in Hx.
    destruct (bool_decide_reflect (x ∈ keep_outputs)) as [Hk|Hk].
    + unfold str_in. rewrite bool_decide_eq_true_2 by exact Hk. reflexivity.
    + apply orb_true_iff. right. apply forallb_forall. intros m Hm.
      rewrite index_inputs_lookup, nonempty_opt_default in Hm.
      apply consumers_of_in in Hm as [Hm Hin].
      destruct (H r x m Hr Hx Hm Hin) as [Hkeep|Hrm]; [contradiction|exact Hrm].
Qed.

(** ** Naming sessions *)

Lemma endswith_char_append (p : string) :
  endswith_char (p +:+ "_") "_" = true.
Proof.
  induction p as [|c p IH]; [reflexivity|].
  simpl. destruct (p +:+ "_") eqn:E; [|exact IH].
  destruct p; discriminate.
Qed.

Lemma node_prefix_ends op name_prefix :
  endswith_char (node_prefix op name_prefix) "_" = true.
Proof.
  unfold node_prefix. destruct name_prefix as [[|c p]|];
    try apply endswith_char_append.
  destruct (endswith_char (String c p) "_") eqn:E; [exact E|].
  apply endswith_char_append.
Qed.

Lemma digits_underscore_free s :
  digits_only s = true -> underscore_free s = true.
Proof.
  induction s as [|c s IH]; [reflexivity|]. simpl.
  intros H. apply andb_true_iff in H as [Hc Hs].
  destruct (is_digit_other c Hc) as (_ & -> & _). simpl. apply IH, Hs.
Qed.

Lemma py_str_underscore_free (z : Z) : underscore_free (py_str z) = true.
Proof.
  assert (Hpos : forall p,
            underscore_free (NilZero.string_of_uint (Pos.to_uint p)) = true).
  { intros p. pose proof (Unsigned.to_uint_nonnil p) as Hn.
    assert (Hs : NilZero.string_of_uint (Pos.to_uint p)
                 = NilEmpty.string_of_uint (Pos.to_uint p))
      by (destruct (Pos.to_uint p); congruence || reflexivity).
    rewrite Hs. apply digits_underscore_free, string_of_uint_digits. }
  destruct z as [|p|p]; [reflexivity|apply Hpos|].
  change (py_str (Z.neg p))
    with (String "-" (NilZero.string_of_uint (Pos.to_uint p))).
  simpl. apply Hpos.
Qed.

Lemma underscore_after_prefix (q b : string) :
  endswith_char q "_" = true -> underscore_free (q +:+ b) = false.
Proof.
  induction q as [|c q IH]; [discriminate|]. simpl.
  destruct q as [|c' q].
  - intros ->. reflexivity.
  - intros H. rewrite (IH H). apply andb_false_r.
Qed.

Lemma prefix_split_unique (p : string) : forall p' a b,
  endswith_char p "_" = true -> endswith_char p' "_" = true ->
  underscore_free a = true -> underscore_free b = true ->
  p +:+ a = p' +:+ b -> p = p' /\ a = b.
Proof.
  induction p as [|c p IH]; intros p' a b Hp Hp' Ha Hb Heq; [discriminate|].
  destruct p' as [|c' p']; [discriminate|].
  simpl in Heq. injection Heq as -> Heq.
  destruct p as [|d p], p' as [|d' p'].
  - change (a = b) in Heq. subst b. auto.
  - change (a = String d' p' +:+ b) in Heq. subst a.
    rewrite (underscore_after_prefix (String d' p') b) in Ha; [discriminate|].
    exact Hp'.
  - change (String d p +:+ a = b) in Heq. subst b.
    rewrite (underscore_after_prefix (String d p) a) in Hb; [discriminate|].
    exact Hp.
  - destruct (IH (String d' p') a b Hp Hp' Ha Hb Heq) as [-> ->]. auto.
Qed.

Lemma create_node_name_step op name_prefix st new_name st' :
  create_node_name op name_prefix st = Ok (new_name, st') ->
  exists suffix,
    new_name = node_prefix op name_prefix +:+ py_str suffix /\
    _node_name_suffix st'
      = <[node_prefix op name_prefix := suffix]> (_node_name_suffix st) /\
    forall last,
      _node_name_suffix st !! node_prefix op name_prefix = Some last ->
      suffix = (last + 1)%Z.
Proof.
  intros H.
  destruct (_node_name_suffix st !! node_prefix op name_prefix) as [last|]
    eqn:E.
  - rewrite (create_node_name_known _ _ _ _ E) in H. injection H as <- <-.
    exists (last + 1)%Z. split; [reflexivity|]. split; [reflexivity|].
    intros ? [= <-]. reflexivity.
  - rewrite (create_node_name_unknown _ _ _ E) in H. injection H as <- <-.
    eexists. split; [reflexivity|]. split; [reflexivity|]. discriminate.
Qed.

Lemma session_ledger st names st' :
  session st names st' ->
  NoDup names /\
  forall nm, In nm names ->
    exists prefix k v,
      nm = prefix +:+ py_str k /\ endswith_char prefix "_" = true /\
      _node_name_suffix st' !! prefix = Some v /\ (k <= v)%Z.
Proof.
  induction 1 as [|names st1 op name_prefix new_name st2 Hs [Hnd Hinv] Hmint
                  |names st1 st2 Hs [Hnd Hinv] Hsame].
  - split; [constructor|]. intros nm [].
  - apply create_node_name_step in Hmint as (suffix & -> & Hledger & Hlast).
    set (prefix := node_prefix op name_prefix) in *.
    split.
    + apply NoDup_app. split; [exact Hnd|]. split; [|apply NoDup_singleton].
      intros nm Hnm Hnew. apply list_elem_of_singleton in Hnew.
      apply list_elem_of_In in Hnm.
      destruct (Hinv nm Hnm) as (p0 & k & v & Hk & Hends & Hv & Hle).
      rewrite Hk in Hnew.
      apply prefix_split_unique in Hnew as [-> Hstr];
        try apply py_str_underscore_free;
        [|exact Hends|apply node_prefix_ends].
      apply py_str_inj in Hstr. specialize (Hlast v Hv). lia.
    + intros nm Hnm. apply in_app_or in Hnm as [Hnm|[<-|[]]].
      * destruct (Hinv nm Hnm) as (p0 & k & v & Hk & Hends & Hv & Hle).
        rewrite Hledger. destruct (decide (p0 = prefix)) as [->|Hne].
        -- exists prefix, k, suffix. repeat split; try assumption.
           ++ apply lookup_insert_eq.
           ++ specialize (Hlast v Hv). lia.
        -- exists p0, k, v. repeat split; try assumption.
           rewrite lookup_insert_ne by congruence. exact Hv.
      * exists prefix, suffix, suffix. split; [reflexivity|].
        split; [apply node_prefix_ends|]. split; [|lia].
        rewrite Hledger. apply lookup_insert_eq.
  - split; [exact Hnd|]. intros nm Hnm.
    destruct (Hinv nm Hnm) as (p0 & k & v & Hk & Hends & Hv & Hle).
    exists p0, k, v. rewrite Hsame. auto.
Qed.

(** X19. The names that [create_node_name] returns in the course of a
    session are pairwise distinct, whatever the operator types and prefixes
    asked for, whatever the ledger held at the start, and whatever is done
    to the graphs between the calls. *)
Theorem create_node_name_never_repeats (st st' : OnnxModel)
    (names : list string) :
  session st names st' -> NoDup names.
Proof. intros H. apply (session_ledger _ _ _ H). Qed.

Lemma create_node_name_never_repeats_witness :
  NoDup ["Add_2"; "Mul_0"; "Add_3"]%string.
Proof.
  apply (create_node_name_never_repeats fresh_session
           (set_node_name_suffix {[ "Add_"%string := 3%Z; "Mul_"%string := 0%Z ]}
                                 (cached fresh_session))
           ((([] ++ ["Add_2"%string]) ++ ["Mul_0"%string])
            ++ ["Add_3"%string])).
  eapply (session_mint _ _ _ "Add"%string None).
  - eapply (session_mint _ _ _ "Mul"%string None).
    + eapply (session_mint _ _ _ "Add"%string None).
      * apply session_start.
      * vm_compute. reflexivity.
    + vm_compute. reflexivity.
  - vm_compute. reflexivity.
Defined.

(** ** Graph maintenance *)

Lemma list_remove_first_skip {A} (q : A -> bool) (pre l : list A) :
  (forall y, In y pre -> q y = false) ->
  list_remove_first q (pre ++ l) = pre ++ list_remove_first q l.
Proof.
  induction pre as [|y pre IH]; intros H; [reflexivity|]. simpl.
  rewrite (H y) by (left; reflexivity). rewrite IH; [reflexivity|].
  intros z Hz. apply H. right. exact Hz.
Qed.

Lemma remove_each_filter_from {A} `{EqDecision A} (p : A -> bool)
    (l : list A) : forall pre,
  (forall y, In y pre -> p y = true) ->
  remove_each (List.filter (fun x => negb (p x)) l) (pre ++ l)
  = pre ++ List.filter p l.
Proof.
  unfold remove_each.
  induction l as [|x l IH]; intros pre Hpre; [reflexivity|]. simpl.
  destruct (p x) eqn:Ex; simpl.
  - rewrite (cons_middle x pre l), app_assoc, IH.
    + rewrite <- app_assoc. reflexivity.
    + intros y Hy. apply in_app_or in Hy as [Hy|[<-|[]]]; auto.
  - rewrite list_remove_first_skip.
    + simpl. rewrite bool_decide_eq_true_2 by reflexivity. apply IH, Hpre.
    + intros y Hy. apply bool_decide_eq_false. intros ->.
      rewrite (Hpre x Hy) in Ex. discriminate.
Qed.

Lemma remove_each_filter {A} `{EqDecision A} (p : A -> bool) (l : list A) :
  remove_each (List.filter (fun x => negb (p x)) l) l = List.filter p l.
Proof. apply (remove_each_filter_from p l []). intros y []. Qed.

Lemma collect_names_in (x : string) (inputs : list string) : forall acc,
  str_in x (fold_left (fun acc input_name =>
                         if str_in input_name acc then acc
                         else acc ++ [input_name]) inputs acc)
  = str_in x acc || str_in x inputs.
Proof.
  induction inputs as [|i inputs IH]; intros acc; simpl.
  - unfold str_in at 3. rewrite bool_decide_eq_false_2 by apply not_elem_of_nil.
    rewrite orb_false_r. reflexivity.
  - rewrite IH. unfold str_in.
    destruct (bool_decide_reflect (i ∈ acc)) as [Hi|Hi].
    + destruct (bool_decide_reflect (x ∈ acc)) as [Hx|Hx]; [reflexivity|].
      simpl. apply bool_decide_ext. rewrite elem_of_cons. split; [tauto|].
      intros [->|H]; [contradiction|exact H].
    + apply eq_true_iff_eq. rewrite !orb_true_iff, !bool_decide_eq_true.
      rewrite elem_of_app, list_elem_of_singleton, elem_of_cons. tauto.
Qed.

Lemma remaining_inputs_spec ns : forall acc,
  match remaining_inputs ns acc with
  | None => existsb is_control_flow ns = true
  | Some l =>
      existsb is_control_flow ns = false /\
      forall x, str_in x l =
                str_in x acc ||
                existsb (fun node =>
                           negb (bool_decide (op_type node = "Constant"%string))
                           && str_in x (input node)) ns
  end.
Proof.
  induction ns as [|n ns IH]; intros acc; simpl.
  - split; [reflexivity|]. intros x. rewrite orb_false_r. reflexivity.
  - destruct (is_control_flow n); [reflexivity|]. simpl.
    destruct (bool_decide (op_type n = "Constant"%string)); simpl.
    + apply IH.
    + specialize (IH (fold_left (fun acc input_name =>
                                   if str_in input_name acc then acc
                                   else acc ++ [input_name]) (input n) acc)).
      destruct (remaining_inputs ns _) as [l|]; [|exact IH].
      destruct IH as [Hcf Hl]. split; [exact Hcf|]. intros x.
      rewrite Hl, collect_names_in, orb_assoc. reflexivity.
Qed.

Lemma frame_remove_from u n st :
  frame (model_graph (remove_from u n st)) = frame (model_graph st).
Proof.
  unfold remove_from. simpl. rewrite update_at_eq.
  destruct (Nat.eqb (oid (model_graph st)) u); reflexivity.
Qed.

Lemma frame_remove_loop n gs : forall st st',
  for_each gs (fun u =>
    let! st := get in
    if node_in n (graph_node st u) then modify (remove_from u n)
    else ret tt) st = Ok (tt, st') ->
  frame (model_graph st') = frame (model_graph st).
Proof.
  induction gs as [|u gs IH]; intros st st' H; simpl in H.
  - injection H as <-. reflexivity.
  - unfold bind at 1 in H. unfold bind at 1 in H. unfold get in H.
    destruct (node_in n (graph_node st u)); simpl in H.
    + rewrite (IH _ _ H). apply frame_remove_from.
    + apply (IH _ _ H).
Qed.

Lemma frame_remove_nodes ns : forall st st',
  remove_nodes ns st = Ok (tt, st') ->
  frame (model_graph st') = frame (model_graph st).
Proof.
  unfold remove_nodes.
  induction ns as [|n ns IH]; intros st st' H; simpl in H.
  - injection H as <-. reflexivity.
  - unfold bind at 1 in H.
    destruct (remove_node n st) as [[[] st1]| |] eqn:E; try discriminate.
    rewrite (IH _ _ H). rewrite remove_node_eq in E.
    apply frame_remove_loop in E. exact E.
Qed.

Lemma frame_remove_unused_constant st st' :
  remove_unused_constant st = Ok (tt, st') ->
  frame (model_graph st') = frame (model_graph st).
Proof.
  unfold remove_unused_constant, bind. unfold input_name_to_nodes at 1.
  unfold bind. rewrite nodes_eq. unfold ret. rewrite nodes_eq.
  unfold lift.
  destruct (unused_constants _ _) as [unused| |]; try discriminate.
  simpl. intros H. apply frame_remove_nodes in H. exact H.
Qed.

(** X20. [update_graph] returns at once, the model being what it was, when
    the primary graph holds a control-flow node.  Otherwise, when it
    returns, the inputs of the primary graph are those that a node other
    than a [Constant] reads, the initializers are those that such a node
    reads or that are outputs of the graph, in the order they had, and the
    outputs of the graph are what they were; only nodes of the primary
    graph count as readers. *)
Theorem update_graph_keeps_what_is_read (st st' : OnnxModel) :
  update_graph st = Ok (tt, st') ->
  let g := model_graph st in
  if existsb is_control_flow (g_node g) then st' = st
  else
    g_input (model_graph st')
      = List.filter (fun i => read_in g (vi_name i)) (g_input g) /\
    g_initializer (model_graph st')
      = List.filter (fun w => read_in g (t_name w) || is_graph_output g w)
                    (g_initializer g) /\
    g_output (model_graph st') = g_output g.
Proof.
  intros Hrun g. unfold update_graph, bind, get in Hrun. fold g in Hrun.
  pose proof (remaining_inputs_spec (g_node g) []) as Hspec.
  destruct (remaining_inputs (g_node g) []) as [names|].
  - destruct Hspec as [-> Hnames].
    assert (Hread : forall x, str_in x names = read_in g x).
    { intros x. rewrite Hnames. reflexivity. }
    unfold modify in Hrun. cbv beta iota in Hrun.
    apply frame_remove_unused_constant in Hrun. unfold frame in Hrun.
    simpl in Hrun. fold g in Hrun. injection Hrun as Hin Hout Hinit.
    split; [|split].
    + rewrite Hin.
      rewrite (remove_each_filter
                 (fun input => str_in (vi_name input) names) (g_input g)).
      apply List.filter_ext. intros i. apply Hread.
    + rewrite Hinit.
      rewrite (List.filter_ext
                 (fun initializer =>
                    negb (str_in (t_name initializer) names) &&
                    negb (existsb (fun output =>
                            bool_decide (vi_name output = t_name initializer))
                            (g_output g)))
                 (fun w => negb (str_in (t_name w) names || is_graph_output g w)))
        by (intros w; rewrite negb_orb; reflexivity).
      rewrite (remove_each_filter
                 (fun w => str_in (t_name w) names || is_graph_output g w)
                 (g_initializer g)).
      apply List.filter_ext. intros w. rewrite Hread. reflexivity.
    + exact Hout.
  - rewrite Hspec. injection Hrun as <-. reflexivity.
Qed.

Lemma update_graph_keeps_what_is_read_witness :
  g_input (model_graph spare_model_updated) = [mkValueInfo "x" 1%Z] /\
  g_initializer (model_graph spare_model_updated)
    = [mkTensor "bias" 1%Z [] [3%Q]] /\
  g_output (model_graph spare_model_updated)
    = g_output (model_graph spare_model).
Proof.
  assert (H : update_graph spare_model = Ok (tt, spare_model_updated))
    by (vm_compute; reflexivity).
  exact (update_graph_keeps_what_is_read spare_model spare_model_updated H).
Defined.

(** ** Inputs of the graph *)

Lemma find_graph_input_spec x st :
  exists found,
    find_graph_input x st = Ok (found, st) /\
    (is_Some found <-> is_graph_input st x).
Proof.
  unfold find_graph_input, bind, get, ret. eexists. split; [reflexivity|].
  unfold is_graph_input. split.
  - intros [vi Hvi]. apply find_some in Hvi as [Hin Hname].
    apply bool_decide_eq_true in Hname. eauto.
  - intros (vi & Hin & Hname).
    destruct (find_present (fun input => bool_decide (vi_name input = x))
                _ vi Hin) as [y Hy].
    + apply bool_decide_eq_true. exact Hname.
    + rewrite Hy. eauto.
Qed.

Lemma graph_inputs_of_spec st inputs : forall acc,
  NoDup acc ->
  exists r,
    graph_inputs_of inputs acc st = Ok (r, st) /\
    NoDup r /\
    forall x, x ∈ r <-> x ∈ acc \/ (x ∈ inputs /\ is_graph_input st x).
Proof.
  induction inputs as [|i inputs IH]; intros acc Hnd.
  - exists acc. split; [reflexivity|]. split; [exact Hnd|].
    intros x. split; [auto|]. intros [H|[H _]]; [exact H|].
    apply elem_of_nil in H. destruct H.
  - simpl. unfold bind at 1.
    destruct (find_graph_input_spec i st) as (found & -> & Hfound).
    assert (Hskip : ~ is_graph_input st i \/ i ∈ acc ->
      exists r, graph_inputs_of inputs acc st = Ok (r, st) /\ NoDup r /\
        forall x, x ∈ r <->
                  x ∈ acc \/ (x ∈ i :: inputs /\ is_graph_input st x)).
    { intros Hcase. destruct (IH acc Hnd) as (r & Hr & Hndr & Hmem).
      exists r. split; [exact Hr|]. split; [exact Hndr|].
      intros x. rewrite Hmem, elem_of_cons. split; [tauto|].
      intros [H|[[->|H] Hg]]; [tauto| |tauto].
      destruct Hcase as [Hno|Hin]; [contradiction|tauto]. }
    destruct found as [vi|].
    + unfold str_in.
      destruct (bool_decide_reflect (i ∈ acc)) as [Hin|Hout]; simpl.
      * apply Hskip. right. exact Hin.
      * destruct (IH (acc ++ [i])) as (r & Hr & Hndr & Hmem).
        { apply NoDup_app. split; [exact Hnd|].
          split; [|apply NoDup_singleton].
          intros y Hy Hi. apply list_elem_of_singleton in Hi as ->.
          contradiction. }
        exists r. split; [exact Hr|]. split; [exact Hndr|].
        intros x. rewrite Hmem, elem_of_app, list_elem_of_singleton,
          elem_of_cons.
        assert (is_graph_input st i) by (apply Hfound; eauto).
        split.
        -- intros [[H0| ->]|[H0 Hg]]; tauto.
        -- intros [H0|[[->|H0] Hg]]; tauto.
    + apply Hskip. left. intros Hg. apply Hfound in Hg as [? Hg].
      discriminate.
Qed.

Lemma graph_inputs_of_nodes_spec st ns : forall acc,
  NoDup acc ->
  exists r,
    graph_inputs_of_nodes ns acc st = Ok (r, st) /\
    NoDup r /\
    forall x, x ∈ r <->
              x ∈ acc \/
              (exists m, In m ns /\ x ∈ input m) /\ is_graph_input st x.
Proof.
  induction ns as [|n ns IH]; intros acc Hnd.
  - exists acc. split; [reflexivity|]. split; [exact Hnd|].
    intros x. split; [auto|]. intros [H|[(m & [] & _) _]]. exact H.
  - simpl. unfold bind at 1.
    destruct (graph_inputs_of_spec st (input n) acc Hnd)
      as (r1 & -> & Hnd1 & Hmem1).
    destruct (IH r1 Hnd1) as (r & Hr & Hndr & Hmem).
    exists r. split; [exact Hr|]. split; [exact Hndr|].
    intros x. rewrite Hmem, Hmem1. split.
    + intros [[H|[H Hg]]|[(m & Hm & Hx) Hg]]; [tauto| |].
      * right. split; [|exact Hg]. exists n. split; [left; reflexivity|exact H].
      * right. split; [|exact Hg]. exists m. split; [right; exact Hm|exact Hx].
    + intros [H|[(m & [<-|Hm] & Hx) Hg]]; [tauto| |].
      * left. right. auto.
      * right. split; [|exact Hg]. exists m. auto.
Qed.

(** X21. [get_graph_inputs(node)] returns, with no name twice, the names of
    the inputs of the primary graph that the node reads; when [recursive]
    is set it returns (from some budget of fuel on) those that the node, or
    a node reached from it through the producers of inputs, reads. *)
Theorem get_graph_inputs_lists (st : OnnxModel) (node : NodeProto) :
  (forall fuel, exists r,
     get_graph_inputs fuel node false st = Ok (r, st) /\
     NoDup r /\
     forall x, x ∈ r <-> x ∈ input node /\ is_graph_input st x) /\
  (let d := index_outputs (nodes_of st) in
   exists fuel0, forall fuel, fuel0 <= fuel ->
     exists r,
       get_graph_inputs fuel node true st = Ok (r, cached st) /\
       NoDup r /\
       forall x, x ∈ r <->
         is_graph_input st x /\
         (x ∈ input node \/
          exists m, reaches (parents_of d) [] (parents_of d node) m /\
                    x ∈ input m)).
Proof.
  split.
  - intros fuel. unfold get_graph_inputs, bind.
    destruct (graph_inputs_of_spec st (input node) [] (NoDup_nil_2))
      as (r & -> & Hnd & Hmem).
    exists r. split; [reflexivity|]. split; [exact Hnd|].
    intros x. rewrite Hmem. split; [|tauto].
    intros [H|H]; [apply elem_of_nil in H; destruct H|exact H].
  - intros d.
    exists (length (deque (parents_of d node)) +
            unvisited_weight (parents_of d) (dict_nodes d) []).
    intros fuel Hfuel.
    destruct (subgraph_loop_terminates (parents_of d) []
                (dict_nodes d)
                (fun x y Hy =>
                   match parents_of_in d x y Hy with
                   | ex_intro _ k Hk => dict_nodes_in d k y Hk
                   end)
                fuel (deque (parents_of d node)) []
                (Forall_in_rev (parents_of d node) (dict_nodes d)
                   (fun x Hx =>
                      match parents_of_in d node x Hx with
                      | ex_intro _ k Hk => dict_nodes_in d k x Hk
                      end))
                Hfuel) as [ps Hps].
    destruct (subgraph_loop_result (parents_of d) []
                (parents_of d node) (parents_of_respects d) fuel
                (deque (parents_of d node)) [] ps Hps)
      as (Hsound & Hcomplete & _).
    { intros x []. }
    { intros x Hx. left. apply in_rev. exact Hx. }
    { intros s Hs. right. right. apply node_in_self.
      apply in_rev in Hs. exact Hs. }
    { intros x y []. }
    { constructor. }
    unfold get_graph_inputs, bind.
    destruct (graph_inputs_of_spec st (input node) [] (NoDup_nil_2))
      as (r1 & -> & Hnd1 & Hmem1).
    rewrite get_parent_subgraph_nodes_eq. simpl default. fold d.
    unfold get_parent_subgraph_nodes_in. rewrite Hps. simpl.
    destruct (graph_inputs_of_nodes_spec (cached st) ps r1 Hnd1)
      as (r & -> & Hnd & Hmem).
    exists r. split; [reflexivity|]. split; [exact Hnd|].
    intros x. rewrite Hmem, Hmem1.
    change (is_graph_input (cached st) x) with (is_graph_input st x).
    split.
    + intros [[H|[H Hg]]|[(m & Hm & Hx) Hg]].
      * apply elem_of_nil in H. destruct H.
      * auto.
      * split; [exact Hg|]. right. exists m. split; [apply Hsound, Hm|exact Hx].
    + intros [Hg [H|(m & Hm & Hx)]]; [left; right; auto|].
      right. split; [|exact Hg].
      apply Hcomplete, node_in_spec in Hm as (m' & Hm' & He).
      exists m'. split; [exact Hm'|].
      change (input m') with (input (erase_node m')). rewrite <- He. exact Hx.
Qed.

Lemma initializers_of_cached st :
  initializers_of (cached st) = initializers_of st.
Proof. reflexivity. Qed.

Lemma get_initializer_find tensor_name st :
  get_initializer tensor_name st =
  Ok (List.find (fun tensor => bool_decide (t_name tensor = tensor_name))
                (initializers_of st), cached st).
Proof. unfold get_initializer, bind. rewrite graphs_eq. reflexivity. Qed.

Lemma excluding_initializers_spec inputs : forall st acc,
  excluding_initializers inputs acc st =
  Ok (acc ++ List.filter (fun i =>
               negb (str_in (vi_name i)
                            (List.map t_name (initializers_of st)))) inputs,
      match inputs with [] => st | _ :: _ => cached st end).
Proof.
  induction inputs as [|i inputs IH]; intros st acc.
  - simpl. rewrite app_nil_r. reflexivity.
  - simpl. unfold bind at 1. rewrite get_initializer_find.
    assert (Hfind : is_Some (List.find (fun tensor =>
                                 bool_decide (t_name tensor = vi_name i))
                               (initializers_of st)) <->
                    vi_name i ∈ List.map t_name (initializers_of st)).
    { rewrite list_elem_of_In, in_map_iff. split.
      - intros [t Ht]. apply find_some in Ht as [Hin Hname].
        apply bool_decide_eq_true in Hname. eauto.
      - intros (t & Hname & Hin).
        destruct (find_present (fun tensor =>
                                  bool_decide (t_name tensor = vi_name i))
                    _ t Hin) as [y Hy].
        + apply bool_decide_eq_true. exact Hname.
        + rewrite Hy. eauto. }
    assert (Hst : match inputs with [] => cached st | _ :: _ => cached st end
                  = cached st) by (destruct inputs; reflexivity).
    destruct (List.find _ (initializers_of st)) as [t|] eqn:E.
    + assert (Hin : str_in (vi_name i) (List.map t_name (initializers_of st))
                    = true) by (apply bool_decide_eq_true, Hfind; eauto).
      rewrite Hin. simpl.
      rewrite IH, initializers_of_cached, cached_cached, Hst.
      reflexivity.
    + assert (Hin : str_in (vi_name i) (List.map t_name (initializers_of st))
                    = false).
      { apply bool_decide_eq_false. intros H. apply Hfind in H as [? H].
        discriminate. }
      rewrite Hin. simpl.
      rewrite IH, initializers_of_cached, cached_cached, Hst.
      rewrite <- app_assoc. reflexivity.
Qed.

(** X22. [get_graph_inputs_excluding_initializers] returns the inputs of
    the primary graph, in their order, whose name is not the name of an
    initializer of a discovered graph, the primary one or one nested in it.
    The call fills the list of graphs, unless the primary graph has no
    input. *)
Theorem get_graph_inputs_excluding_initializers_filters (st : OnnxModel) :
  get_graph_inputs_excluding_initializers st =
  Ok (List.filter (fun i =>
        negb (str_in (vi_name i) (List.map t_name (initializers_of st))))
        (g_input (model_graph st)),
      match g_input (model_graph st) with [] => st | _ :: _ => cached st end).
Proof.
  unfold get_graph_inputs_excluding_initializers, bind, get.
  rewrite excluding_initializers_spec. reflexivity.
Qed.

(** ** Topological sort *)

Lemma count_inputs_nonneg node : (0 <= count_inputs node)%Z.
Proof. unfold count_inputs. lia. Qed.

Lemma sort_init_inv (ns : list NodeProto) : forall rest k s done,
  ns = done ++ rest -> length done = k ->
  sort_inv ns k s -> sort_inv ns (length ns) (sort_init k rest s).
Proof.
  induction rest as [|node rest IH]; intros k s done Hns Hk Hinv.
  - assert (Hl : length ns = k) by (rewrite Hns, app_nil_r; exact Hk).
    simpl. rewrite Hl. exact Hinv.
  - simpl.
    assert (Hnode : ns !! k = Some node).
    { rewrite Hns, <- Hk. rewrite lookup_app_r by lia.
      rewrite Nat.sub_diag. reflexivity. }
    assert (Hlt : k < length ns) by (eapply lookup_lt_Some; exact Hnode).
    destruct Hinv as (Hlen & idxs & Hat & Hnd & Hbound & Hcount).
    pose proof (count_inputs_nonneg node) as Hc.
    assert (Hfresh : k ∉ idxs) by (intros H; apply Hbound in H; lia).
    assert (Hnext : ns = (done ++ [node]) ++ rest)
      by (rewrite <- app_assoc; exact Hns).
    assert (Hk' : length (done ++ [node]) = S k)
      by (rewrite length_app; simpl; lia).
    destruct (Z.eqb_spec (count_inputs node) 0) as [Hz|Hz].
    + apply (IH (S k) _ (done ++ [node]) Hnext Hk').
      split; [simpl; rewrite length_insert; exact Hlen|].
      exists (idxs ++ [k]). simpl. split; [|split; [|split]].
      * apply Forall2_app; [exact Hat|]. constructor; [exact Hnode|constructor].
      * apply NoDup_app. split; [exact Hnd|]. split; [|apply NoDup_singleton].
        intros i Hi Hik. apply list_elem_of_singleton in Hik as ->.
        contradiction.
      * intros i Hi. apply elem_of_app in Hi as [Hi|Hi].
        -- apply Hbound in Hi. lia.
        -- apply list_elem_of_singleton in Hi as ->. lia.
      * intros i c Hi Hlook. rewrite elem_of_app, list_elem_of_singleton.
        destruct (decide (i = k)) as [->|Hne].
        -- rewrite list_lookup_insert_eq in Hlook by lia.
           injection Hlook as <-. split; [auto|lia].
        -- rewrite list_lookup_insert_ne in Hlook by congruence.
           rewrite (Hcount i c) by (lia || exact Hlook). tauto.
    + apply (IH (S k) _ (done ++ [node]) Hnext Hk').
      split; [simpl; rewrite length_insert; exact Hlen|].
      exists idxs. simpl. split; [exact Hat|]. split; [exact Hnd|]. split.
      * intros i Hi. apply Hbound in Hi. lia.
      * intros i c Hi Hlook.
        destruct (decide (i = k)) as [->|Hne].
        -- rewrite list_lookup_insert_eq in Hlook by lia.
           injection Hlook as <-. split; [lia|contradiction].
        -- rewrite list_lookup_insert_ne in Hlook by congruence.
           apply Hcount; [lia|exact Hlook].
Qed.

Lemma release_step_inv (ns : list NodeProto) s i :
  sort_inv ns (length ns) s ->
  sort_inv ns (length ns)
    (let c := (default 0%Z (deps_count s !! i) - 1)%Z in
     mkSort (<[i := c]> (deps_count s)) (deps_to_nodes s)
            (if (c =? 0)%Z then sorted_nodes s ++ option_list (ns !! i)
             else sorted_nodes s)).
Proof.
  intros (Hlen & idxs & Hat & Hnd & Hbound & Hcount). cbv zeta.
  destruct (deps_count s !! i) as [c0|] eqn:Ec0.
  - assert (Hi : i < length ns)
      by (rewrite <- Hlen; eapply lookup_lt_Some; exact Ec0).
    destruct (lookup_lt_is_Some_2 ns i Hi) as [x Hx].
    simpl default. destruct (Z.eqb_spec (c0 - 1) 0) as [Hz|Hz].
    + assert (Hfresh : i ∉ idxs).
      { intros H. apply (Hcount i c0 Hi Ec0) in H. lia. }
      split; [simpl; rewrite length_insert; exact Hlen|].
      exists (idxs ++ [i]). simpl. rewrite Hx. simpl.
      split; [|split; [|split]].
      * apply Forall2_app; [exact Hat|]. constructor; [exact Hx|constructor].
      * apply NoDup_app. split; [exact Hnd|]. split; [|apply NoDup_singleton].
        intros j Hj Hji. apply list_elem_of_singleton in Hji as ->.
        contradiction.
      * intros j Hj. apply elem_of_app in Hj as [Hj|Hj]; [apply Hbound, Hj|].
        apply list_elem_of_singleton in Hj as ->. exact Hi.
      * intros j c Hj Hlook. rewrite elem_of_app, list_elem_of_singleton.
        destruct (decide (j = i)) as [->|Hne].
        -- rewrite list_lookup_insert_eq in Hlook by lia.
           injection Hlook as <-. split; [auto|lia].
        -- rewrite list_lookup_insert_ne in Hlook by congruence.
           rewrite (Hcount j c Hj Hlook). tauto.
    + split; [simpl; rewrite length_insert; exact Hlen|].
      exists idxs. simpl. split; [exact Hat|]. split; [exact Hnd|].
      split; [exact Hbound|].
      intros j c Hj Hlook.
      destruct (decide (j = i)) as [->|Hne].
      * rewrite list_lookup_insert_eq in Hlook by lia.
        injection Hlook as <-. rewrite <- (Hcount i c0 Hi Ec0). lia.
      * rewrite list_lookup_insert_ne in Hlook by congruence.
        apply Hcount; assumption.
  - assert (Hi : length (deps_count s) <= i)
      by (apply lookup_ge_None; exact Ec0).
    simpl default. change (0 - 1 =? 0)%Z with false. cbv iota.
    rewrite list_insert_ge by exact Hi.
    split; [exact Hlen|]. exists idxs. auto.
Qed.

Lemma release_inv (ns : list NodeProto) input_name s :
  sort_inv ns (length ns) s ->
  sort_inv ns (length ns) (release ns input_name s).
Proof.
  unfold release.
  generalize (default [] (deps_to_nodes s !! input_name)) as l.
  intros l. revert s. induction l as [|i l IH]; intros s Hinv; [exact Hinv|].
  simpl. apply IH. apply (release_step_inv ns s i Hinv).
Qed.

Lemma sort_inputs_inv (ns : list NodeProto) input_names : forall prev s,
  sort_inv ns (length ns) s ->
  sort_inv ns (length ns) (sort_inputs ns input_names prev s).
Proof.
  induction input_names as [|x input_names IH]; intros prev s Hinv;
    [exact Hinv|].
  simpl. destruct (bool_decide (prev = Some x)).
  - apply IH, Hinv.
  - apply IH, release_inv, Hinv.
Qed.

Lemma release_outputs_inv (ns : list NodeProto) outputs : forall s,
  sort_inv ns (length ns) s ->
  sort_inv ns (length ns)
    (fold_left (fun s output => release ns output s) outputs s).
Proof.
  induction outputs as [|o outputs IH]; intros s Hinv; [exact Hinv|].
  simpl. apply IH, release_inv, Hinv.
Qed.

Lemma sort_inv_length (ns : list NodeProto) s :
  sort_inv ns (length ns) s -> length (sorted_nodes s) <= length ns.
Proof.
  intros (_ & idxs & Hat & Hnd & Hbound & _).
  rewrite <- (Forall2_length _ _ _ Hat).
  assert (Hincl : idxs ⊆+ seq 0 (length ns)).
  { apply NoDup_submseteq; [exact Hnd|]. intros i Hi.
    apply list_elem_of_In, in_seq. apply Hbound in Hi. lia. }
  apply submseteq_length in Hincl.
  rewrite List.length_seq in Hincl. exact Hincl.
Qed.

Lemma sort_drain_total (ns : list NodeProto) fuel : forall start s,
  sort_inv ns (length ns) s -> length ns < fuel + start ->
  exists s', sort_drain fuel ns start s = Ok s' /\
             sort_inv ns (length ns) s'.
Proof.
  induction fuel as [|fuel IH]; intros start s Hinv Hfuel.
  - pose proof (sort_inv_length ns s Hinv) as Hlen.
    exists s. split; [|exact Hinv]. simpl.
    rewrite (proj2 (lookup_ge_None (sorted_nodes s) start)) by lia.
    reflexivity.
  - simpl. destruct (sorted_nodes s !! start) as [node|] eqn:E.
    + apply IH; [apply release_outputs_inv, Hinv|lia].
    + exists s. auto.
Qed.

Lemma sorted_at_permutation (ns : list NodeProto) idxs s :
  sorted_at ns idxs s -> NoDup idxs ->
  length (sorted_nodes s) = length ns ->
  sorted_nodes s ≡ₚ ns.
Proof.
  intros Hat Hnd Hlen.
  assert (Hperm : idxs ≡ₚ seq 0 (length ns)).
  { apply submseteq_length_Permutation.
    - apply NoDup_submseteq; [exact Hnd|]. intros i Hi.
      apply list_elem_of_In, in_seq.
      apply list_elem_of_lookup in Hi as [j Hj].
      destruct (Forall2_lookup_l _ _ _ j i Hat Hj) as (x & _ & Hx).
      apply lookup_lt_Some in Hx. lia.
    - rewrite List.length_seq, (Forall2_length _ _ _ Hat), Hlen. lia. }
  destruct (Permutation_Forall2 Hperm Hat) as (l & Hl & Hseq).
  assert (Heq : l = ns).
  { apply list_eq. intros j.
    destruct (ns !! j) as [x|] eqn:Ex.
    - pose proof (lookup_lt_Some _ _ _ Ex) as Hj.
      destruct (Forall2_lookup_l _ _ _ j j Hseq) as (y & Hy & Hx).
      { apply lookup_seq. split; [reflexivity|exact Hj]. }
      rewrite Hy. congruence.
    - apply lookup_ge_None. apply lookup_ge_None in Ex.
      rewrite <- (Forall2_length _ _ _ Hseq), List.length_seq. exact Ex. }
  rewrite <- Heq. exact Hl.
Qed.

(** X23. [graph_topological_sort] returns on every graph, cyclic or not:
    the loop [while start < end] makes no more turns than there are nodes.
    It either fails its assertion or leaves the graph with the same nodes
    in another order, no node lost and no node twice, and with the inputs,
    outputs and initializers it had. *)
Theorem graph_topological_sort_permutes (g : GraphProto) :
  graph_topological_sort g = Raise AssertionError \/
  exists ns',
    graph_topological_sort g = Ok (set_node ns' g) /\ ns' ≡ₚ g_node g.
Proof.
  unfold graph_topological_sort.
  set (ns := g_node g). set (n := length ns).
  assert (H0 : sort_inv ns 0 (mkSort (replicate n 0%Z) ∅ [])).
  { split; [simpl; apply length_replicate|].
    exists []. split; [constructor|]. split; [constructor|].
    split; [intros i Hi; apply elem_of_nil in Hi; destruct Hi|].
    intros i c Hi. lia. }
  pose proof (sort_init_inv ns ns 0 _ [] eq_refl eq_refl H0) as H1.
  apply (sort_inputs_inv ns
           (sort_names (List.map t_name (g_initializer g) ++
                        List.map vi_name (g_input g))) None) in H1.
  destruct (sort_drain_total ns (S n) 0 _ H1) as (s2 & -> & H2);
    [unfold n; lia|].
  simpl.
  destruct (bool_decide_reflect (length (sorted_nodes s2) = n)) as [Hn|Hn];
    [right|left; reflexivity].
  exists (sorted_nodes s2). split; [reflexivity|].
  destruct H2 as (_ & idxs & Hat & Hnd & _).
  apply (sorted_at_permutation ns idxs s2 Hat Hnd Hn).
Qed.

(** ** Adding an initializer *)

(** X24. An initializer that [add_initializer] has added is found by name:
    when the call returns, in a model whose list of graphs holds the
    primary graph, [get_initializer] of the name of the tensor answers a
    tensor of that name, the first one in the discovered graphs. *)
Theorem add_initializer_then_found (st st' : OnnxModel) (tensor : TensorProto)
    (graph_name : option string) :
  In (oid (model_graph st)) (graphs_of st) ->
  add_initializer tensor graph_name st = Ok (tt, st') ->
  exists found,
    get_initializer (t_name tensor) st' = Ok (Some found, cached st') /\
    In found (initializers_of st') /\
    t_name found = t_name tensor.
Proof.
  intros Hprimary Hadd.
  assert (Hin : In tensor (initializers_of st')).
  { unfold add_initializer, bind, get in Hadd. unfold initializers_of.
    apply in_flat_map.
    destruct (named_elsewhere graph_name st) as [s|].
    - rewrite get_graph_by_name_eq in Hadd.
      destruct (List.find _ (graphs_of st)) as [u|] eqn:Efind;
        [|discriminate].
      simpl in Hadd. injection Hadd as <-.
      apply find_some in Efind as [Hu Hname].
      rewrite <- deref_cached in Hname.
      destruct (deref (cached st) u) as [g|] eqn:Eg; [|discriminate].
      exists u. split; [exact Hu|].
      rewrite deref_store_update by (intros; reflexivity).
      rewrite Eg. simpl. apply in_or_app. right. left. reflexivity.
    - injection Hadd as <-. exists (oid (model_graph st)). split.
      + unfold graphs_of in *. simpl.
        destruct (all_graphs st); [exact Hprimary|].
        destruct (discover_head
                    (set_initializer (g_initializer (model_graph st) ++ [tensor])
                                     (model_graph st))) as [rest ->].
        left. reflexivity.
      + change (oid (model_graph st)) with
          (oid (model_graph
                  (set_model_graph
                     (set_initializer
                        (g_initializer (model_graph st) ++ [tensor])
                        (model_graph st)) st))).
        rewrite deref_primary. simpl. apply in_or_app. right. left.
        reflexivity. }
  rewrite get_initializer_find.
  destruct (find_present
              (fun t => bool_decide (t_name t = t_name tensor))
              _ tensor Hin) as [found Hfound].
  { apply bool_decide_eq_true. reflexivity. }
  rewrite Hfound. exists found. split; [reflexivity|].
  apply find_some in Hfound as [Hf Hname].
  apply bool_decide_eq_true in Hname. auto.
Qed.

Lemma add_initializer_then_found_witness :
  let w := mkTensor "w" 1%Z [] [1%Q] in
  let st' := store_update 1
               (fun g => set_initializer (g_initializer g ++ [w]) g)
               (cached branching_model) in
  exists found,
    get_initializer "w" st' = Ok (Some found, cached st') /\
    In found (initializers_of st') /\
    t_name found = "w"%string.
Proof.
  intros w st'.
  apply (add_initializer_then_found branching_model st' w
           (Some "then_branch"%string)).
  - vm_compute. left. reflexivity.
  - vm_compute. reflexivity.
Defined.

(** *** The order of the sorted nodes *)

Lemma release_eq ns input_name s :
  release ns input_name s =
  fold_left (release_one ns) (default [] (deps_to_nodes s !! input_name)) s.
Proof. reflexivity. Qed.

Lemma sort_inputs_eq ns input_names : forall prev s,
  sort_inputs ns input_names prev s =
  fold_left (fun s x => release ns x s) (skip_repeats prev input_names) s.
Proof.
  induction input_names as [|x l IH]; intros prev s; [reflexivity|].
  simpl. destruct (bool_decide (prev = Some x)); [apply IH|].
  simpl. apply IH.
Qed.

Lemma occurs_app i l1 l2 : occurs i (l1 ++ l2) = occurs i l1 + occurs i l2.
Proof. unfold occurs. rewrite List.filter_app, length_app. reflexivity. Qed.

Lemma occurs_one i j : occurs i [j] = if Nat.eqb i j then 1 else 0.
Proof. unfold occurs. simpl. destruct (Nat.eqb i j); reflexivity. Qed.

Lemma unreleased_nil node : unreleased [] node = length (input node).
Proof.
  unfold unreleased. f_equal.
  induction (input node) as [|y l IH]; [reflexivity|].
  cbn [List.filter]. unfold str_in at 1.
  rewrite bool_decide_eq_false_2 by apply not_elem_of_nil.
  cbn [negb]. rewrite IH. reflexivity.
Qed.

Lemma unreleased_cons x R node :
  x ∉ R -> unreleased (x :: R) node + reads x node = unreleased R node.
Proof.
  intros Hx. unfold unreleased, reads, str_in.
  induction (input node) as [|y l IH]; [reflexivity|]. simpl.
  destruct (bool_decide_reflect (y = x)) as [->|Hne].
  - rewrite (bool_decide_eq_true_2 (x ∈ x :: R)) by left.
    rewrite (bool_decide_eq_false_2 (x ∈ R)) by exact Hx. simpl. lia.
  - destruct (bool_decide_reflect (y ∈ R)) as [Hy|Hy].
    + rewrite (bool_decide_eq_true_2 (y ∈ x :: R)) by (right; exact Hy).
      simpl. exact IH.
    + rewrite (bool_decide_eq_false_2 (y ∈ x :: R)).
      * simpl. lia.
      * intros H. apply elem_of_cons in H as [H|H]; contradiction.
Qed.

Lemma unreleased_zero R node y :
  unreleased R node = 0 -> y ∈ input node -> y ∈ R.
Proof.
  unfold unreleased, str_in. intros H Hy.
  induction (input node) as [|z l IH]; [apply elem_of_nil in Hy; destruct Hy|].
  simpl in H. destruct (bool_decide_reflect (z ∈ R)) as [Hz|Hz];
    simpl in H; [|discriminate].
  apply elem_of_cons in Hy as [->|Hy]; [exact Hz|apply IH; assumption].
Qed.

Lemma count_inputs_length node :
  EmptyString ∉ input node ->
  count_inputs node = Z.of_nat (length (input node)).
Proof.
  unfold count_inputs. intros H. f_equal.
  induction (input node) as [|y l IH]; [reflexivity|].
  apply not_elem_of_cons in H as [Hy Hl]. simpl.
  rewrite bool_decide_eq_false_2 by congruence. simpl. rewrite IH by exact Hl.
  reflexivity.
Qed.

Lemma available_mono ns ext idxs new a a' y :
  available ns ext idxs a y -> a <= a' ->
  available ns ext (idxs ++ new) a' y.
Proof.
  intros [H|(p & j & m & Hp & Hj & Hm & Hy)] Ha; [left; exact H|].
  right. exists p, j, m. split; [lia|]. split; [|auto].
  apply lookup_app_l_Some. exact Hj.
Qed.

Lemma register_lookup i (d : gmap string (list nat)) x y :
  default [] (register i d y !! x)
  = default [] (d !! x) ++ (if bool_decide (y = x) then [i] else []).
Proof.
  unfold register.
  destruct (bool_decide_reflect (y = x)) as [->|Hne].
  - destruct (d !! x) as [l|] eqn:E; rewrite lookup_insert_eq; reflexivity.
  - rewrite app_nil_r.
    destruct (d !! y) as [l|]; rewrite lookup_insert_ne by exact Hne;
      reflexivity.
Qed.

Lemma register_fold_occurs i j x inputs : forall d : gmap string (list nat),
  occurs j (default [] (fold_left (register i) inputs d !! x))
  = occurs j (default [] (d !! x)) +
    (if Nat.eqb j i
     then length (List.filter (fun y => bool_decide (y = x)) inputs)
     else 0).
Proof.
  induction inputs as [|y inputs IH]; intros d; simpl.
  - destruct (Nat.eqb j i); lia.
  - rewrite IH, register_lookup, occurs_app.
    destruct (bool_decide (y = x)); simpl.
    + rewrite occurs_one. destruct (Nat.eqb j i); simpl; lia.
    + change (occurs j []) with 0. destruct (Nat.eqb j i); lia.
Qed.

Lemma sort_init_order ns ext (Hne : no_empty_input ns) :
  forall rest k s done idxs,
    ns = done ++ rest -> length done = k ->
    length (deps_count s) = length ns ->
    sorted_at ns idxs s -> NoDup idxs ->
    (forall i, i ∈ idxs -> i < k) ->
    (forall i node, i < k -> ns !! i = Some node ->
                    (i ∈ idxs <-> input node = [])) ->
    (forall i node c, i < k -> ns !! i = Some node ->
                      deps_count s !! i = Some c ->
                      c = Z.of_nat (length (input node))) ->
    (forall x i node, ns !! i = Some node ->
       occurs i (default [] (deps_to_nodes s !! x))
       = if i <? k then reads x node else 0) ->
    exists idxs', order_inv ns ext idxs' [] [] (sort_init k rest s).
Proof.
  induction rest as [|node rest IH];
    intros k s done idxs Hns Hk Hlen Hat Hnd Hbound Hempty Hcount Hdeps.
  - assert (Hl : length ns = k) by (rewrite Hns, app_nil_r; exact Hk).
    exists idxs. simpl. split; try assumption.
    + intros x i nd Hi. rewrite (Hdeps x i nd Hi).
      apply lookup_lt_Some in Hi.
      destruct (Nat.ltb_spec i k); [reflexivity|lia].
    + intros i nd c Hi Hc. rewrite unreleased_nil. change (occurs i []) with 0.
      rewrite (Hcount i nd c); [lia| |exact Hi|exact Hc].
      apply lookup_lt_Some in Hi. lia.
    + intros i c Hi Hc.
      destruct (lookup_lt_is_Some_2 ns i Hi) as [nd Hnd'].
      rewrite (Hcount i nd c) by (lia || assumption).
      rewrite (Hempty i nd) by (lia || assumption).
      destruct (input nd); simpl; split; intros; (lia || congruence).
    + intros a i nd y Ha Hi Hy.
      assert (Hin : i ∈ idxs) by (eapply list_elem_of_lookup_2; exact Ha).
      pose proof (Hbound i Hin) as Hik.
      apply (Hempty i nd Hik Hi) in Hin. rewrite Hin in Hy.
      apply elem_of_nil in Hy. destruct Hy.
  - simpl.
    assert (Hnode : ns !! k = Some node).
    { rewrite Hns, <- Hk. rewrite lookup_app_r by lia.
      rewrite Nat.sub_diag. reflexivity. }
    assert (Hlt : k < length ns) by (eapply lookup_lt_Some; exact Hnode).
    assert (Hcnt : count_inputs node = Z.of_nat (length (input node))).
    { apply count_inputs_length, Hne.
      apply list_elem_of_In. eapply list_elem_of_lookup_2. exact Hnode. }
    assert (Hfresh : k ∉ idxs) by (intros H; apply Hbound in H; lia).
    assert (Hnext : ns = (done ++ [node]) ++ rest)
      by (rewrite <- app_assoc; exact Hns).
    assert (Hk' : length (done ++ [node]) = S k)
      by (rewrite length_app; simpl; lia).
    assert (Hcount' : forall i nd c, i < S k -> ns !! i = Some nd ->
              <[k := count_inputs node]> (deps_count s) !! i = Some c ->
              c = Z.of_nat (length (input nd))).
    { intros i nd c Hi Hnd' Hc. destruct (decide (i = k)) as [->|Hik].
      - rewrite list_lookup_insert_eq in Hc by lia.
        injection Hc as <-. congruence.
      - rewrite list_lookup_insert_ne in Hc by congruence.
        apply (Hcount i nd c); [lia|assumption..]. }
    destruct (Z.eqb_spec (count_inputs node) 0) as [Hz|Hz].
    + assert (Hnil : input node = [])
        by (destruct (input node); [reflexivity|simpl in Hcnt; lia]).
      apply (IH (S k) _ (done ++ [node]) (idxs ++ [k]) Hnext Hk'); simpl.
      * rewrite length_insert. exact Hlen.
      * apply Forall2_app; [exact Hat|]. constructor; [exact Hnode|constructor].
      * apply NoDup_app. split; [exact Hnd|]. split; [|apply NoDup_singleton].
        intros i Hi Hik. apply list_elem_of_singleton in Hik as ->.
        contradiction.
      * intros i Hi. apply elem_of_app in Hi as [Hi|Hi].
        -- apply Hbound in Hi. lia.
        -- apply list_elem_of_singleton in Hi as ->. lia.
      * intros i nd Hi Hnd'. rewrite elem_of_app, list_elem_of_singleton.
        destruct (decide (i = k)) as [->|Hik].
        -- assert (nd = node) as -> by congruence. tauto.
        -- rewrite <- (Hempty i nd) by (lia || assumption). tauto.
      * exact Hcount'.
      * intros x i nd Hnd'. rewrite (Hdeps x i nd Hnd').
        destruct (Nat.ltb_spec i k), (Nat.ltb_spec i (S k));
          try reflexivity; try lia.
        assert (i = k) as -> by lia. assert (nd = node) as -> by congruence.
        unfold reads. rewrite Hnil. reflexivity.
    + assert (Hcons : input node <> [])
        by (intros H; rewrite H in Hcnt; simpl in Hcnt; lia).
      apply (IH (S k) _ (done ++ [node]) idxs Hnext Hk'); simpl.
      * rewrite length_insert. exact Hlen.
      * exact Hat.
      * exact Hnd.
      * intros i Hi. apply Hbound in Hi. lia.
      * intros i nd Hi Hnd'.
        destruct (decide (i = k)) as [->|Hik].
        -- assert (nd = node) as -> by congruence. tauto.
        -- apply Hempty; [lia|assumption].
      * exact Hcount'.
      * intros x i nd Hnd'.
        rewrite register_fold_occurs, (Hdeps x i nd Hnd').
        destruct (Nat.eqb_spec i k) as [->|Hik].
        -- assert (nd = node) as -> by congruence.
           destruct (Nat.ltb_spec k k), (Nat.ltb_spec k (S k)); try lia.
           reflexivity.
        -- destruct (Nat.ltb_spec i k), (Nat.ltb_spec i (S k)); lia.
Qed.

Lemma release_one_order ns ext x R idxs done s i :
  x ∉ R ->
  order_inv ns ext idxs R done s ->
  (forall node, ns !! i = Some node ->
                occurs i (done ++ [i]) <= reads x node) ->
  (forall y, y ∈ x :: R -> available ns ext idxs (length idxs) y) ->
  exists new,
    order_inv ns ext (idxs ++ new) R (done ++ [i]) (release_one ns s i) /\
    deps_to_nodes (release_one ns s i) = deps_to_nodes s.
Proof.
  intros Hx [Hlen Hat Hnd Hdeps Hcount Hzero Horder] Hocc Havail.
  assert (Hother : forall j, j <> i -> occurs j (done ++ [i]) = occurs j done).
  { intros j Hj. rewrite occurs_app, occurs_one.
    destruct (Nat.eqb_spec j i); [contradiction|lia]. }
  assert (Hself : occurs i (done ++ [i]) = S (occurs i done)).
  { rewrite occurs_app, occurs_one, Nat.eqb_refl. lia. }
  unfold release_one. cbv zeta.
  destruct (deps_count s !! i) as [c0|] eqn:Ec0.
  - assert (Hi : i < length ns)
      by (rewrite <- Hlen; eapply lookup_lt_Some; exact Ec0).
    destruct (lookup_lt_is_Some_2 ns i Hi) as [node Hnode].
    pose proof (Hcount i node c0 Hnode Ec0) as Hc0.
    specialize (Hocc node Hnode). rewrite Hself in Hocc.
    simpl default. destruct (Z.eqb_spec (c0 - 1) 0) as [Hz|Hz].
    + exists [i]. split; [|reflexivity].
      assert (Hfresh : i ∉ idxs).
      { intros H. apply (Hzero i c0 Hi Ec0) in H. lia. }
      assert (Hall : forall y, y ∈ input node -> y ∈ x :: R).
      { intros y Hy. apply (unreleased_zero (x :: R) node y); [|exact Hy].
        pose proof (unreleased_cons x R node Hx). lia. }
      split; simpl.
      * rewrite length_insert. exact Hlen.
      * rewrite Hnode. simpl. apply Forall2_app; [exact Hat|].
        constructor; [exact Hnode|constructor].
      * apply NoDup_app. split; [exact Hnd|]. split; [|apply NoDup_singleton].
        intros j Hj Hji. apply list_elem_of_singleton in Hji as ->.
        contradiction.
      * exact Hdeps.
      * intros j nd c Hj Hc. destruct (decide (j = i)) as [->|Hne].
        -- rewrite list_lookup_insert_eq in Hc by lia. injection Hc as <-.
           assert (nd = node) as -> by congruence. rewrite Hself. lia.
        -- rewrite list_lookup_insert_ne in Hc by congruence.
           rewrite (Hother j Hne). apply Hcount; assumption.
      * intros j c Hj Hc. rewrite elem_of_app, list_elem_of_singleton.
        destruct (decide (j = i)) as [->|Hne].
        -- rewrite list_lookup_insert_eq in Hc by lia.
           injection Hc as <-. split; [auto|lia].
        -- rewrite list_lookup_insert_ne in Hc by congruence.
           rewrite (Hzero j c Hj Hc). tauto.
      * intros a j nd y Ha Hj Hy.
        destruct (proj1 (lookup_app_Some _ _ _ _) Ha) as [Ha'|[Hge Ha']].
        -- apply available_mono with (a := a); [|lia].
           apply (Horder a j nd y Ha' Hj Hy).
        -- destruct (a - length idxs) as [|k] eqn:Ek; [|destruct k; discriminate].
           injection Ha' as <-. assert (nd = node) as -> by congruence.
           apply available_mono with (a := length idxs); [|lia].
           apply Havail, Hall, Hy.
    + exists []. split; [|reflexivity]. rewrite app_nil_r.
      split; simpl; try assumption.
      * rewrite length_insert. exact Hlen.
      * intros j nd c Hj Hc. destruct (decide (j = i)) as [->|Hne].
        -- rewrite list_lookup_insert_eq in Hc by lia. injection Hc as <-.
           assert (nd = node) as -> by congruence. rewrite Hself. lia.
        -- rewrite list_lookup_insert_ne in Hc by congruence.
           rewrite (Hother j Hne). apply Hcount; assumption.
      * intros j c Hj Hc. destruct (decide (j = i)) as [->|Hne].
        -- rewrite list_lookup_insert_eq in Hc by lia.
           injection Hc as <-. rewrite <- (Hzero i c0 Hi Ec0). lia.
        -- rewrite list_lookup_insert_ne in Hc by congruence.
           apply Hzero; assumption.
  - assert (Hi : length (deps_count s) <= i)
      by (apply lookup_ge_None; exact Ec0).
    exists []. split; [|reflexivity]. rewrite app_nil_r.
    simpl default. change (0 - 1 =? 0)%Z with false. cbv iota.
    rewrite list_insert_ge by exact Hi.
    split; simpl; try assumption.
    intros j nd c Hj Hc. rewrite Hother; [apply Hcount; assumption|].
    apply lookup_lt_Some in Hj. lia.
Qed.

Lemma release_fold_order ns ext x R (Hx : x ∉ R) : forall todo done idxs s,
  order_inv ns ext idxs R done s ->
  done ++ todo = default [] (deps_to_nodes s !! x) ->
  (forall y, y ∈ x :: R -> available ns ext idxs (length idxs) y) ->
  exists new,
    order_inv ns ext (idxs ++ new) R (done ++ todo)
              (fold_left (release_one ns) todo s) /\
    deps_to_nodes (fold_left (release_one ns) todo s) = deps_to_nodes s.
Proof.
  induction todo as [|i todo IH]; intros done idxs s Hinv Hl Havail.
  - exists []. rewrite !app_nil_r. auto.
  - simpl.
    destruct (release_one_order ns ext x R idxs done s i Hx Hinv)
      as (new1 & Hinv1 & Hd1).
    { intros node Hnode. rewrite <- (oi_deps _ _ _ _ _ _ Hinv x i node Hnode).
      rewrite <- Hl, (cons_middle i done todo), app_assoc.
      rewrite (occurs_app i (done ++ [i]) todo). lia. }
    { exact Havail. }
    destruct (IH (done ++ [i]) (idxs ++ new1) _ Hinv1) as (new2 & Hinv2 & Hd2).
    { rewrite Hd1, <- app_assoc. exact Hl. }
    { intros y Hy. apply available_mono with (a := length idxs);
        [apply Havail, Hy|].
      rewrite length_app. lia. }
    exists (new1 ++ new2). rewrite app_assoc.
    rewrite (cons_middle i done todo), (app_assoc done).
    split; [exact Hinv2|]. rewrite Hd2. exact Hd1.
Qed.

Lemma release_order ns ext x R idxs s :
  x ∉ R ->
  order_inv ns ext idxs R [] s ->
  (forall y, y ∈ x :: R -> available ns ext idxs (length idxs) y) ->
  exists new, order_inv ns ext (idxs ++ new) (x :: R) [] (release ns x s).
Proof.
  intros Hx Hinv Havail. rewrite release_eq.
  destruct (release_fold_order ns ext x R Hx
              (default [] (deps_to_nodes s !! x)) [] idxs s Hinv eq_refl Havail)
    as (new & [Hlen Hat Hnd Hdeps Hcount Hzero Horder] & Hd).
  exists new. split; try assumption.
  intros i node c Hi Hc. change (occurs i []) with 0.
  rewrite (Hcount i node c Hi Hc). simpl app.
  rewrite <- Hd, (Hdeps x i node Hi).
  pose proof (unreleased_cons x R node Hx). lia.
Qed.

(** [input_names.sort()] puts equal names side by side, so that each name
    is released once. *)
Lemma string_leb_trans (a : string) : forall b c,
  String.leb a b = true -> String.leb b c = true -> String.leb a c = true.
Proof.
  unfold String.leb.
  induction a as [|x a IH]; intros [|y b] [|z c]; simpl; try congruence.
  unfold Ascii.compare.
  destruct (N.compare_spec (N_of_ascii x) (N_of_ascii y)) as [E1|E1|E1],
           (N.compare_spec (N_of_ascii y) (N_of_ascii z)) as [E2|E2|E2],
           (N.compare_spec (N_of_ascii x) (N_of_ascii z)) as [E3|E3|E3];
    try congruence; try lia.
  apply IH.
Qed.

Lemma insert_sorted_elem x l y :
  y ∈ insert_sorted x l <-> y = x \/ y ∈ l.
Proof.
  induction l as [|z l IH]; simpl.
  - rewrite list_elem_of_singleton. split; [auto|].
    intros [H|H]; [exact H|apply elem_of_nil in H; destruct H].
  - destruct (String.leb x z).
    + rewrite elem_of_cons. reflexivity.
    + rewrite !elem_of_cons, IH. tauto.
Qed.

Lemma insert_sorted_ascending x l :
  ascending l -> ascending (insert_sorted x l).
Proof.
  induction l as [|z l IH]; simpl; [auto|].
  intros [Hz Hl]. destruct (String.leb x z) eqn:E; simpl.
  - split; [|auto]. constructor; [exact E|].
    eapply Forall_impl; [exact Hz|]. intros y Hy.
    apply (string_leb_trans x z y E Hy).
  - split; [|apply IH, Hl]. apply Forall_forall. intros y Hy.
    apply insert_sorted_elem in Hy as [->|Hy].
    + destruct (String.leb_total x z) as [H|H]; congruence.
    + rewrite Forall_forall in Hz. apply Hz, Hy.
Qed.

Lemma sort_names_ascending l : ascending (sort_names l).
Proof.
  induction l as [|x l IH]; simpl; [exact I|].
  apply insert_sorted_ascending, IH.
Qed.

Lemma sort_names_elem l y : y ∈ sort_names l <-> y ∈ l.
Proof.
  induction l as [|x l IH]; simpl; [reflexivity|].
  rewrite insert_sorted_elem, elem_of_cons, IH. reflexivity.
Qed.

Lemma skip_repeats_elem l : forall prev y,
  y ∈ skip_repeats prev l -> y ∈ l.
Proof.
  induction l as [|x l IH]; intros prev y; simpl; [auto|].
  destruct (bool_decide (prev = Some x)).
  - intros H. right. apply (IH _ _ H).
  - intros H. apply elem_of_cons in H as [->|H]; [left|right].
    apply (IH _ _ H).
Qed.

Lemma skip_repeats_nodup l : forall prev,
  ascending l ->
  (forall p, prev = Some p -> Forall (fun y => String.leb p y = true) l) ->
  NoDup (skip_repeats prev l) /\
  forall p, prev = Some p -> p ∉ skip_repeats prev l.
Proof.
  induction l as [|x l IH]; intros prev Hasc Hprev; simpl.
  - split; [constructor|]. intros p _. apply not_elem_of_nil.
  - destruct Hasc as [Hx Hl].
    destruct (bool_decide_reflect (prev = Some x)) as [->|Hne].
    + apply IH; [exact Hl|]. intros p [= <-]. exact Hx.
    + destruct (IH (Some x) Hl) as [Hnd Hfresh].
      { intros p [= <-]. exact Hx. }
      split.
      * constructor; [apply Hfresh; reflexivity|exact Hnd].
      * intros p -> Hp. apply elem_of_cons in Hp as [->|Hp]; [congruence|].
        apply skip_repeats_elem in Hp.
        specialize (Hprev p eq_refl). apply Forall_cons in Hprev as [Hpx _].
        rewrite Forall_forall in Hx. specialize (Hx p Hp).
        apply Hne. f_equal. apply String.leb_antisym; assumption.
Qed.

Lemma release_all_order ns ext : forall L idxs R s,
  order_inv ns ext idxs R [] s ->
  NoDup L -> (forall y, y ∈ L -> y ∉ R) ->
  (forall y, y ∈ R \/ y ∈ L -> y ∈ ext) ->
  exists new,
    order_inv ns ext (idxs ++ new) (rev L ++ R) []
              (fold_left (fun s x => release ns x s) L s).
Proof.
  induction L as [|x L IH]; intros idxs R s Hinv Hnd Hfresh Hext.
  - exists []. rewrite app_nil_r. exact Hinv.
  - apply NoDup_cons in Hnd as [HxL Hnd]. simpl.
    destruct (release_order ns ext x R idxs s) as (new1 & Hinv1).
    { apply Hfresh. left. }
    { exact Hinv. }
    { intros y Hy. left. apply Hext.
      apply elem_of_cons in Hy as [->|Hy]; [right; left|left; exact Hy]. }
    destruct (IH (idxs ++ new1) (x :: R) _ Hinv1 Hnd) as (new2 & Hinv2).
    { intros y Hy Hin. apply elem_of_cons in Hin as [->|Hin];
        [contradiction|].
      apply (Hfresh y); [right; exact Hy|exact Hin]. }
    { intros y [Hy|Hy]; apply Hext.
      - apply elem_of_cons in Hy as [->|Hy]; [right; left|left; exact Hy].
      - right. right. exact Hy. }
    exists (new1 ++ new2). rewrite app_assoc, <- (app_assoc (rev L)).
    exact Hinv2.
Qed.

Lemma single_producer_index ns : forall j j' m m' x,
  single_producer ns ->
  ns !! j = Some m -> ns !! j' = Some m' ->
  x ∈ output m -> x ∈ output m' -> j = j'.
Proof.
  unfold single_producer.
  induction ns as [|n ns IH]; intros j j' m m' x Hnd Hj Hj' Hx Hx';
    [destruct j; discriminate|].
  simpl in Hnd. apply NoDup_app in Hnd as (_ & Hdisj & Hns).
  assert (Hin : forall k nd, ns !! k = Some nd -> x ∈ output nd ->
                             x ∈ flat_map output ns).
  { intros k nd Hk Hnd'. apply list_elem_of_In, in_flat_map. exists nd.
    split; apply list_elem_of_In; [|exact Hnd'].
    eapply list_elem_of_lookup_2. exact Hk. }
  destruct j as [|j], j' as [|j']; simpl in Hj, Hj'.
  - reflexivity.
  - injection Hj as <-. destruct (Hdisj x Hx (Hin j' m' Hj' Hx')).
  - injection Hj' as <-. destruct (Hdisj x Hx' (Hin j m Hj Hx)).
  - f_equal. apply (IH j j' m m' x Hns Hj Hj' Hx Hx').
Qed.

Lemma single_producer_outputs ns j m :
  single_producer ns -> ns !! j = Some m -> NoDup (output m).
Proof.
  unfold single_producer. revert j.
  induction ns as [|n ns IH]; intros j Hnd Hj; [destruct j; discriminate|].
  simpl in Hnd. apply NoDup_app in Hnd as (Hn & _ & Hns).
  destruct j as [|j]; simpl in Hj.
  - injection Hj as <-. exact Hn.
  - apply (IH j Hns Hj).
Qed.

Lemma available_stable ns E idxs new start y :
  start <= length idxs ->
  available ns E (idxs ++ new) start y <-> available ns E idxs start y.
Proof.
  intros Hstart. split.
  - intros [H|(p & j & m & Hp & Hj & Hm & Hy)]; [left; exact H|].
    right. exists p, j, m. split; [exact Hp|]. split; [|auto].
    rewrite lookup_app_l in Hj by lia. exact Hj.
  - intros H. apply available_mono with (a := start); [exact H|lia].
Qed.

Section Drain.
Variable ns : list NodeProto.
Variable ext E : list string.
Hypothesis ssa : single_producer ns.
Hypothesis E_ext : forall y, y ∈ E -> y ∈ ext.
Hypothesis E_fresh : forall y, y ∈ E -> y ∉ flat_map output ns.

Lemma release_outputs_order start j m : forall todo done idxs R s,
  output m = done ++ todo ->
  idxs !! start = Some j -> ns !! j = Some m ->
  order_inv ns ext idxs R [] s ->
  (forall y, y ∈ R <-> available ns E idxs start y \/ y ∈ done) ->
  exists new R',
    order_inv ns ext (idxs ++ new) R' []
              (fold_left (fun s o => release ns o s) todo s) /\
    forall y, y ∈ R' <-> available ns E (idxs ++ new) start y \/ y ∈ output m.
Proof.
  induction todo as [|x todo IH]; intros done idxs R s Hout Hj Hm Hinv Hchar.
  - exists [], R. rewrite app_nil_r. split; [exact Hinv|].
    rewrite Hout, app_nil_r. exact Hchar.
  - pose proof (lookup_lt_Some _ _ _ Hj) as Hstart.
    assert (Hxm : x ∈ output m).
    { rewrite Hout. apply elem_of_app. right. left. }
    assert (Hdone : forall y, y ∈ done -> y ∈ output m).
    { intros y Hy. rewrite Hout. apply elem_of_app. left. exact Hy. }
    assert (Hfresh : x ∉ R).
    { intros H. apply Hchar in H as [[H|(p & j' & m' & Hp & Hj' & Hm' & Hy)]|H].
      - apply (E_fresh x H). apply list_elem_of_In, in_flat_map. exists m.
        split; apply list_elem_of_In; [|exact Hxm].
        eapply list_elem_of_lookup_2. exact Hm.
      - assert (j' = j) as ->
          by (apply (single_producer_index ns j' j m' m x ssa Hm' Hm Hy Hxm)).
        pose proof (NoDup_lookup idxs p start j
                      (oi_nodup _ _ _ _ _ _ Hinv) Hj' Hj). lia.
      - pose proof (single_producer_outputs ns j m ssa Hm) as Hnd.
        rewrite Hout in Hnd. apply NoDup_app in Hnd as (_ & Hdisj & _).
        apply (Hdisj x H). left. }
    assert (Hprod : forall y, y ∈ output m ->
                              available ns ext idxs (length idxs) y).
    { intros y Hy. right. exists start, j, m. auto. }
    destruct (release_order ns ext x R idxs s Hfresh Hinv)
      as (new1 & Hinv1).
    { intros y Hy. apply elem_of_cons in Hy as [->|Hy]; [apply Hprod, Hxm|].
      apply Hchar in Hy as [[H|(p & j' & m' & Hp & Hj' & Hm' & Hy)]|H].
      - left. apply E_ext, H.
      - right. exists p, j', m'. split; [lia|auto].
      - apply Hprod, Hdone, H. }
    destruct (IH (done ++ [x]) (idxs ++ new1) (x :: R) (release ns x s))
      as (new2 & R' & Hinv2 & Hchar2).
    { rewrite <- app_assoc. exact Hout. }
    { apply lookup_app_l_Some. exact Hj. }
    { exact Hm. }
    { exact Hinv1. }
    { intros y. rewrite elem_of_cons, Hchar, elem_of_app,
        list_elem_of_singleton.
      rewrite (available_stable ns E idxs new1 start y) by lia. tauto. }
    exists (new1 ++ new2), R'. rewrite app_assoc. auto.
Qed.

Lemma sort_drain_order fuel : forall start idxs R s s',
  order_inv ns ext idxs R [] s ->
  start <= length idxs ->
  (forall y, y ∈ R <-> available ns E idxs start y) ->
  sort_drain fuel ns start s = Ok s' ->
  exists idxs' R',
    order_inv ns ext idxs' R' [] s' /\
    forall y, y ∈ R' <-> available ns E idxs' (length idxs') y.
Proof.
  assert (Hexit : forall start idxs R s,
            order_inv ns ext idxs R [] s -> start <= length idxs ->
            (forall y, y ∈ R <-> available ns E idxs start y) ->
            sorted_nodes s !! start = None ->
            exists idxs' R',
              order_inv ns ext idxs' R' [] s /\
              forall y, y ∈ R' <-> available ns E idxs' (length idxs') y).
  { intros start idxs R s Hinv Hstart Hchar Hnone.
    exists idxs, R. split; [exact Hinv|].
    apply lookup_ge_None in Hnone.
    rewrite <- (Forall2_length _ _ _ (oi_sorted _ _ _ _ _ _ Hinv)) in Hnone.
    assert (start = length idxs) as <- by lia. exact Hchar. }
  induction fuel as [|fuel IH]; intros start idxs R s s' Hinv Hstart Hchar Hrun.
  - simpl in Hrun. destruct (sorted_nodes s !! start) eqn:E0; [discriminate|].
    injection Hrun as <-. apply (Hexit start idxs R s); assumption.
  - simpl in Hrun. destruct (sorted_nodes s !! start) as [node|] eqn:E0.
    + destruct (Forall2_lookup_r _ _ _ start node
                  (oi_sorted _ _ _ _ _ _ Hinv) E0) as (j & Hj & Hm).
      destruct (release_outputs_order start j node (output node) [] idxs R s
                  eq_refl Hj Hm Hinv) as (new & R' & Hinv' & Hchar').
      { intros y. rewrite Hchar. split; [auto|].
        intros [H|H]; [exact H|apply elem_of_nil in H; destruct H]. }
      apply (IH (S start) (idxs ++ new) R' _ s' Hinv'); [| |exact Hrun].
      * apply lookup_lt_Some in Hj. rewrite length_app. lia.
      * intros y. rewrite Hchar'. split.
        -- intros [[H|(p & j' & m' & Hp & Hj' & Hm' & Hy)]|H].
           ++ left. exact H.
           ++ right. exists p, j', m'. split; [lia|auto].
           ++ right. exists start, j, node. split; [lia|].
              split; [apply lookup_app_l_Some; exact Hj|auto].
        -- intros [H|(p & j' & m' & Hp & Hj' & Hm' & Hy)]; [left; left; exact H|].
           destruct (decide (p = start)) as [->|Hne].
           ++ right.
              rewrite (lookup_app_l_Some _ _ _ _ Hj) in Hj'.
              injection Hj' as <-. assert (m' = node) as -> by congruence.
              exact Hy.
           ++ left. right. exists p, j', m'. split; [lia|auto].
    + injection Hrun as <-. apply (Hexit start idxs R s); assumption.
Qed.
End Drain.

Lemma order_inv_sort_inv ns ext idxs R pending s :
  order_inv ns ext idxs R pending s -> sort_inv ns (length ns) s.
Proof.
  intros [Hlen Hat Hnd Hdeps Hcount Hzero Horder].
  split; [exact Hlen|]. exists idxs. split; [exact Hat|].
  split; [exact Hnd|]. split; [|exact Hzero].
  intros i Hi. apply list_elem_of_lookup in Hi as [a Ha].
  destruct (Forall2_lookup_l _ _ _ a i Hat Ha) as (x & _ & Hx).
  apply lookup_lt_Some in Hx. exact Hx.
Qed.

(** The three loops of the sort, on a graph that meets the conditions. *)
Lemma sort_trace (g : GraphProto) :
  no_empty_input (g_node g) ->
  single_producer (g_node g) ->
  outputs_fresh g ->
  exists s2 idxs R,
    sort_drain (S (length (g_node g))) (g_node g) 0
      (sort_inputs (g_node g) (sort_names (graph_names g)) None
         (sort_init 0 (g_node g)
            (mkSort (replicate (length (g_node g)) 0%Z) ∅ []))) = Ok s2 /\
    order_inv (g_node g) (graph_names g) idxs R [] s2 /\
    forall y,
      y ∈ R <->
      available (g_node g) (skip_repeats None (sort_names (graph_names g)))
                idxs (length idxs) y.
Proof.
  intros Hne Hssa Hfresh.
  set (ns := g_node g) in *. set (n := length ns) in *.
  destruct (sort_init_order ns (graph_names g) Hne ns 0
              (mkSort (replicate n 0%Z) ∅ []) [] [] eq_refl eq_refl)
    as (idxs0 & Hinv0).
  { simpl. apply length_replicate. }
  { constructor. }
  { constructor. }
  { intros i Hi. apply elem_of_nil in Hi. destruct Hi. }
  { intros i node Hi. lia. }
  { intros i node c Hi. lia. }
  { intros x i node _. simpl. rewrite lookup_empty. reflexivity. }
  rewrite sort_inputs_eq.
  set (E := skip_repeats None (sort_names (graph_names g))) in *.
  assert (HE : forall y, y ∈ E -> y ∈ graph_names g).
  { intros y Hy. apply skip_repeats_elem in Hy.
    apply (proj1 (sort_names_elem _ _)) in Hy. exact Hy. }
  destruct (release_all_order ns (graph_names g) E idxs0 [] _ Hinv0)
    as (new1 & Hinv1).
  { apply (skip_repeats_nodup _ None (sort_names_ascending _)). discriminate. }
  { intros y _. apply not_elem_of_nil. }
  { intros y [Hy|Hy]; [apply elem_of_nil in Hy; destruct Hy|apply HE, Hy]. }
  destruct (sort_drain_total ns (S n) 0 _
              (order_inv_sort_inv _ _ _ _ _ _ Hinv1)) as (s2 & Hdrain & _);
    [unfold n; lia|].
  destruct (sort_drain_order ns (graph_names g) E Hssa HE
              (fun y Hy Hout => Hfresh y Hout (HE y Hy))
              (S n) 0 (idxs0 ++ new1) (rev E ++ []) _ s2 Hinv1)
    as (idxs & R & Hinv & Hchar); [lia| |exact Hdrain|].
  { intros y. rewrite app_nil_r. split.
    - intros H. left. apply list_elem_of_In in H. apply in_rev in H.
      apply list_elem_of_In. exact H.
    - intros [H|(p & _ & _ & Hp & _)]; [|lia].
      apply list_elem_of_In, in_rev. rewrite rev_involutive.
      apply list_elem_of_In. exact H. }
  exists s2, idxs, R. auto.
Qed.

(** X25. When no node has an empty input name, every name is an output of
    one node only, and no output of a node bears the name of an
    initializer or of an input of the graph, the order that
    [graph_topological_sort] leaves, when it returns, is topological: every
    node comes after the nodes that produce its inputs. *)
Theorem graph_topological_sort_orders (g g' : GraphProto) :
  no_empty_input (g_node g) ->
  single_producer (g_node g) ->
  outputs_fresh g ->
  graph_topological_sort g = Ok g' ->
  producers_first (g_node g').
Proof.
  intros Hne Hssa Hfresh Hrun.
  destruct (sort_trace g Hne Hssa Hfresh) as (s2 & idxs & R & Hdrain & Hinv & _).
  unfold graph_topological_sort in Hrun. fold (graph_names g) in Hrun.
  rewrite Hdrain in Hrun. simpl in Hrun.
  destruct (bool_decide (length (sorted_nodes s2) = length (g_node g)));
    [|discriminate].
  simpl in Hrun. injection Hrun as <-. simpl.
  intros i j consumer producer x Hc Hp Hx Hout.
  destruct (Forall2_lookup_r _ _ _ i consumer
              (oi_sorted _ _ _ _ _ _ Hinv) Hc) as (ci & Hci & Hcn).
  destruct (Forall2_lookup_r _ _ _ j producer
              (oi_sorted _ _ _ _ _ _ Hinv) Hp) as (pj & Hpj & Hpn).
  destruct (oi_order _ _ _ _ _ _ Hinv i ci consumer x Hci Hcn Hx)
    as [Hext|(p & j' & m' & Hlt & Hj' & Hm' & Hy)].
  - exfalso. apply (Hfresh x); [|exact Hext].
    apply list_elem_of_In, in_flat_map. exists producer.
    split; apply list_elem_of_In; [|exact Hout].
    eapply list_elem_of_lookup_2. exact Hpn.
  - assert (j' = pj) as ->
      by (apply (single_producer_index (g_node g) j' pj m' producer x
                   Hssa Hm' Hpn Hy Hout)).
    pose proof (NoDup_lookup idxs p j pj (oi_nodup _ _ _ _ _ _ Hinv) Hj' Hpj).
    lia.
Qed.

Lemma graph_topological_sort_orders_witness :
  producers_first (g_node ordered_graph).
Proof.
  apply (graph_topological_sort_orders shuffled_graph ordered_graph).
  - assert (H : Forall (fun node => EmptyString ∉ input node)
                       (g_node shuffled_graph))
      by (apply (bool_decide_unpack _); vm_compute; exact I).
    intros node Hin. rewrite Forall_forall in H.
    apply H, list_elem_of_In, Hin.
  - unfold single_producer. apply (bool_decide_unpack _). vm_compute. exact I.
  - assert (H : Forall (fun x => x ∉ graph_names shuffled_graph)
                       (flat_map output (g_node shuffled_graph)))
      by (apply (bool_decide_unpack _); vm_compute; exact I).
    intros x Hx. rewrite Forall_forall in H. apply H, Hx.
  - vm_compute. reflexivity.
Defined.

Lemma unreleased_pos R node :
  0 < unreleased R node -> exists y, y ∈ input node /\ y ∉ R.
Proof.
  unfold unreleased, str_in.
  induction (input node) as [|z l IH]; simpl; [lia|].
  destruct (bool_decide_reflect (z ∈ R)) as [Hz|Hz]; simpl.
  - intros H. destruct (IH H) as (y & Hy & HyR). exists y.
    split; [right; exact Hy|exact HyR].
  - intros _. exists z. split; [left|exact Hz].
Qed.

Lemma skip_repeats_keeps l : forall prev y,
  y ∈ l -> y ∈ skip_repeats prev l \/ prev = Some y.
Proof.
  induction l as [|x l IH]; intros prev y Hy;
    [apply elem_of_nil in Hy; destruct Hy|].
  simpl. destruct (bool_decide_reflect (prev = Some x)) as [->|Hne].
  - apply elem_of_cons in Hy as [->|Hy]; [right; reflexivity|].
    apply IH, Hy.
  - left. apply elem_of_cons in Hy as [->|Hy]; [left|].
    destruct (IH (Some x) y Hy) as [H|[= ->]]; [right; exact H|left].
Qed.

(** X26. On a graph that meets the conditions of X25, all of whose inputs
    of nodes are names of the graph or outputs of nodes, and whose nodes
    form no cycle, [graph_topological_sort] passes its assertion: the sort
    returns the graph. *)
Theorem graph_topological_sort_succeeds (g : GraphProto)
    (rank : NodeProto -> nat) :
  no_empty_input (g_node g) ->
  single_producer (g_node g) ->
  outputs_fresh g ->
  inputs_resolve g ->
  ranked (g_node g) rank ->
  exists g', graph_topological_sort g = Ok g'.
Proof.
  intros Hne Hssa Hfresh Hres Hrank.
  destruct (sort_trace g Hne Hssa Hfresh)
    as (s2 & idxs & R & Hdrain & Hinv & Hchar).
  set (ns := g_node g) in *.
  assert (Hall : forall r i node,
            ns !! i = Some node -> rank node < r -> i ∈ idxs).
  { induction r as [|r IH]; intros i node Hi Hr; [lia|].
    destruct (decide (i ∈ idxs)) as [Hin|Hout]; [exact Hin|]. exfalso.
    pose proof (lookup_lt_Some _ _ _ Hi) as Hlt.
    destruct (lookup_lt_is_Some_2 (deps_count s2) i) as [c Hc].
    { rewrite (oi_length _ _ _ _ _ _ Hinv). exact Hlt. }
    pose proof (oi_count _ _ _ _ _ _ Hinv i node c Hi Hc) as Hcount.
    pose proof (oi_zero _ _ _ _ _ _ Hinv i c Hlt Hc) as Hzero.
    change (occurs i []) with 0 in Hcount.
    destruct (unreleased_pos R node) as (y & Hy & HyR).
    { destruct (unreleased R node); [|lia]. exfalso. apply Hout, Hzero. lia. }
    assert (Hnode : In node ns).
    { apply list_elem_of_In. eapply list_elem_of_lookup_2. exact Hi. }
    apply HyR, Hchar.
    destruct (Hres node y Hnode Hy) as [Hext|(m & Hm & Hym)].
    - left. apply (proj2 (sort_names_elem _ _)) in Hext.
      destruct (skip_repeats_keeps _ None y Hext) as [H|H];
        [exact H|discriminate].
    - right. apply list_elem_of_In, list_elem_of_lookup in Hm as [j Hj].
      assert (Hjin : j ∈ idxs).
      { apply (IH j m Hj).
        pose proof (Hrank node m y Hnode
                      (proj1 (list_elem_of_In _ _)
                             (list_elem_of_lookup_2 _ _ _ Hj)) Hy Hym).
        lia. }
      apply list_elem_of_lookup in Hjin as [p Hp].
      exists p, j, m. split; [eapply lookup_lt_Some; exact Hp|auto]. }
  assert (Hlen : length (sorted_nodes s2) = length ns).
  { pose proof (sort_inv_length ns s2 (order_inv_sort_inv _ _ _ _ _ _ Hinv))
      as Hle.
    assert (Hge : seq 0 (length ns) ⊆+ idxs).
    { apply NoDup_submseteq; [apply NoDup_seq|]. intros i Hi.
      apply list_elem_of_In, in_seq in Hi.
      destruct (lookup_lt_is_Some_2 ns i) as [node Hnode]; [lia|].
      apply (Hall (S (rank node)) i node Hnode). lia. }
    apply submseteq_length in Hge. rewrite List.length_seq in Hge.
    rewrite (Forall2_length _ _ _ (oi_sorted _ _ _ _ _ _ Hinv)) in Hge.
    lia. }
  exists (set_node (sorted_nodes s2) g).
  unfold graph_topological_sort. fold (graph_names g). fold ns.
  rewrite Hdrain. simpl.
  rewrite bool_decide_eq_true_2 by exact Hlen. reflexivity.
Qed.

Lemma graph_topological_sort_succeeds_witness :
  exists g', graph_topological_sort shuffled_graph = Ok g'.
Proof.
  apply (graph_topological_sort_succeeds shuffled_graph rank_shuffled).
  - assert (H : Forall (fun node => EmptyString ∉ input node)
                       (g_node shuffled_graph))
      by (apply (bool_decide_unpack _); vm_compute; exact I).
    intros node Hin. rewrite Forall_forall in H.
    apply H, list_elem_of_In, Hin.
  - unfold single_producer. apply (bool_decide_unpack _). vm_compute. exact I.
  - assert (H : Forall (fun x => x ∉ graph_names shuffled_graph)
                       (flat_map output (g_node shuffled_graph)))
      by (apply (bool_decide_unpack _); vm_compute; exact I).
    intros x Hx. rewrite Forall_forall in H. apply H, Hx.
  - assert (H : Forall (fun node =>
                  Forall (fun y => y ∈ graph_names shuffled_graph ++
                                       flat_map output (g_node shuffled_graph))
                         (input node)) (g_node shuffled_graph))
      by (apply (bool_decide_unpack _); vm_compute; exact I).
    intros node y Hnode Hy. rewrite Forall_forall in H.
    specialize (H node (proj2 (list_elem_of_In _ _) Hnode)).
    rewrite Forall_forall in H. specialize (H y Hy).
    apply elem_of_app in H as [H|H]; [left; exact H|right].
    apply list_elem_of_In, in_flat_map in H as (m & Hm & Hym).
    exists m. split; [exact Hm|apply list_elem_of_In, Hym].
  - assert (H : Forall (fun consumer =>
                  Forall (fun producer =>
                    Forall (fun y => y ∈ output producer ->
                                     rank_shuffled producer
                                     < rank_shuffled consumer)
                           (input consumer))
                    (g_node shuffled_graph)) (g_node shuffled_graph))
      by (apply (bool_decide_unpack _); vm_compute; exact I).
    intros consumer producer y Hc Hp Hy Hout. rewrite Forall_forall in H.
    specialize (H consumer (proj2 (list_elem_of_In _ _) Hc)).
    rewrite Forall_forall in H.
    specialize (H producer (proj2 (list_elem_of_In _ _) Hp)).
    rewrite Forall_forall in H. apply (H y Hy Hout).
Defined.

(** ** Naming and adding *)

Lemma discover_add_plain g n :
  plain n -> discover (set_node (g_node g ++ [n]) g) = discover g.
Proof.
  intros Hn.
  assert (Hc : children (set_node (g_node g ++ [n]) g) = children g).
  { unfold children. simpl. rewrite flat_map_app. simpl.
    rewrite Hn, !app_nil_r. reflexivity. }
  unfold discover. rewrite !subgraphs_eq, Hc. simpl. rewrite Hc. reflexivity.
Qed.

Lemma graph_node_add_plain st n u :
  plain n ->
  graph_node (set_model_graph
                (set_node (g_node (model_graph st) ++ [n]) (model_graph st)) st)
             u
  = if Nat.eqb (oid (model_graph st)) u
    then g_node (model_graph st) ++ [n]
    else graph_node st u.
Proof.
  intros Hn. unfold graph_node, deref, store.
  change (model_graph (set_model_graph ?g st)) with g.
  change (detached (set_model_graph ?g st)) with (detached st).
  assert (Hc : children (set_node (g_node (model_graph st) ++ [n])
                                  (model_graph st))
               = children (model_graph st)).
  { unfold children. simpl. rewrite flat_map_app. simpl.
    rewrite Hn, !app_nil_r. reflexivity. }
  cbn [flat_map].
  rewrite (subgraphs_eq (model_graph st)).
  rewrite (subgraphs_eq (set_node _ (model_graph st))).
  rewrite Hc. cbn [app List.find oid set_node].
  destruct (Nat.eqb (oid (model_graph st)) u); reflexivity.
Qed.

Lemma node_names_add_plain st n x :
  plain n ->
  In x (node_names
          (set_model_graph
             (set_node (g_node (model_graph st) ++ [n]) (model_graph st)) st)) ->
  In x (node_names st) \/ x = name n.
Proof.
  intros Hn. unfold node_names, nodes_of.
  assert (Hgs : graphs_of (set_model_graph
                   (set_node (g_node (model_graph st) ++ [n]) (model_graph st))
                   st) = graphs_of st).
  { unfold graphs_of. simpl. destruct (all_graphs st); [reflexivity|].
    apply discover_add_plain, Hn. }
  rewrite Hgs. intros H. apply in_map_iff in H as (m & <- & Hm).
  apply in_flat_map in Hm as (u & Hu & Hm).
  rewrite (graph_node_add_plain st n u Hn) in Hm.
  destruct (Nat.eqb_spec (oid (model_graph st)) u) as [<-|Hne].
  - apply in_app_or in Hm as [Hm|[<-|[]]]; [left|right; reflexivity].
    apply in_map, in_flat_map. exists (oid (model_graph st)).
    split; [exact Hu|]. unfold graph_node. rewrite deref_primary. exact Hm.
  - left. apply in_map, in_flat_map. exists u. auto.
Qed.

(** X27. A session that adds only nodes named by [create_node_name] stays
    tidy: in a model whose ledger is ahead of the graphs for every prefix
    (such as a model with an empty ledger), the name that
    [create_node_name] returns is the name of no node, and once a node with
    no nested graph has been added to the primary graph under that name,
    the ledger is ahead of the graphs again. *)
Theorem create_node_name_then_add_node (st st1 st2 : OnnxModel) (op : string)
    (name_prefix : option string) (new_name : string) (node : NodeProto) :
  tidy st ->
  create_node_name op name_prefix st = Ok (new_name, st1) ->
  name node = new_name -> plain node ->
  add_node node None st1 = Ok (tt, st2) ->
  ~ In new_name (node_names st) /\ tidy st2.
Proof.
  intros Htidy Hmint Hname Hplain Hadd.
  set (prefix := node_prefix op name_prefix) in *.
  assert (Hstep : exists suffix,
            new_name = prefix +:+ py_str suffix /\
            node_names st1 = node_names st /\
            _node_name_suffix st1 = <[prefix := suffix]> (_node_name_suffix st) /\
            forall k, In (prefix +:+ py_str k) (node_names st) ->
                      (k < suffix)%Z).
  { destruct (_node_name_suffix st !! prefix) as [last|] eqn:E.
    - rewrite (create_node_name_known _ _ _ _ E) in Hmint.
      injection Hmint as <- <-. exists (last + 1)%Z.
      split; [reflexivity|]. split; [reflexivity|]. split; [reflexivity|].
      intros k Hk. apply (Htidy prefix last E) in Hk. lia.
    - rewrite (create_node_name_unknown _ _ _ E) in Hmint.
      injection Hmint as <- <-. eexists.
      split; [reflexivity|]. split; [reflexivity|]. split; [reflexivity|].
      intros k Hk. apply (fold_next_suffix_above prefix _ 0%Z) in Hk.
      fold prefix. lia. }
  destruct Hstep as (suffix & -> & Hnames & Hledger & Habove).
  split.
  - intros H. apply Habove in H. lia.
  - rewrite add_node_primary in Hadd. injection Hadd as <-.
    intros q v Hq. simpl in Hq. rewrite Hledger in Hq.
    destruct (decide (q = prefix)) as [->|Hne].
    + rewrite lookup_insert_eq in Hq. injection Hq as <-.
      split; [apply node_prefix_ends|].
      intros k Hk. apply node_names_add_plain in Hk as [Hk|Hk];
        [|rewrite Hname in Hk|exact Hplain].
      * rewrite Hnames in Hk. apply Habove in Hk. lia.
      * apply append_inj_l, py_str_inj in Hk. lia.
    + rewrite lookup_insert_ne in Hq by congruence.
      destruct (Htidy q v Hq) as [Hends Hahead].
      split; [exact Hends|].
      intros k Hk. apply node_names_add_plain in Hk as [Hk|Hk];
        [|rewrite Hname in Hk|exact Hplain].
      * rewrite Hnames in Hk. apply Hahead, Hk.
      * exfalso. apply Hne.
        apply (prefix_split_unique q prefix (py_str k) (py_str suffix));
          try apply py_str_underscore_free; try assumption.
        apply node_prefix_ends.
Qed.

Lemma create_node_name_then_add_node_witness :
  ~ In "Add_2"%string (node_names fresh_session) /\
  tidy (set_model_graph
          (set_node (g_node add_graph ++ [mkNode "Add_2" "Add" ["d"; "a"] ["e"] []])
                    add_graph)
          (set_node_name_suffix {[ "Add_"%string := 2%Z ]}
                                (cached fresh_session))).
Proof.
  apply (create_node_name_then_add_node fresh_session
           (set_node_name_suffix {[ "Add_"%string := 2%Z ]}
                                 (cached fresh_session))
           _ "Add"%string None "Add_2"%string
           (mkNode "Add_2" "Add" ["d"; "a"] ["e"] [])).
  - intros prefix last H. unfold fresh_session in H. simpl in H.
    rewrite lookup_empty in H. discriminate.
  - vm_compute. reflexivity.
  - reflexivity.
  - reflexivity.
  - reflexivity.
Defined.

(** ** Pruning *)

Lemma collect_kept_frame fuel d outputs : forall acc st r st1,
  collect_kept fuel d outputs acc st = Ok (r, st1) ->
  model_graph st1 = model_graph st.
Proof.
  induction outputs as [|o outputs IH]; intros acc st r st1 H; simpl in H.
  - injection H as _ <-. reflexivity.
  - destruct (d !! o) as [last_node|]; [|apply (IH _ _ _ _ H)].
    destruct (node_in last_node acc); [apply (IH _ _ _ _ H)|].
    unfold bind in H. rewrite get_parent_subgraph_nodes_eq in H.
    destruct (get_parent_subgraph_nodes_in _ _ _ _) as [ps| |];
      try discriminate.
    simpl in H. apply IH in H. exact H.
Qed.

Lemma filter_sublist_of {A} (p : A -> bool) (l : list A) :
  sublist (List.filter p l) l.
Proof.
  induction l as [|x l IH]; simpl; [constructor|].
  destruct (p x); [apply sublist_skip|apply sublist_cons]; exact IH.
Qed.

Lemma update_graph_shrinks st st' :
  update_graph st = Ok (tt, st') ->
  g_output (model_graph st') = g_output (model_graph st) /\
  sublist (g_input (model_graph st')) (g_input (model_graph st)) /\
  sublist (g_initializer (model_graph st')) (g_initializer (model_graph st)).
Proof.
  intros Hrun. unfold update_graph, bind, get in Hrun.
  destruct (remaining_inputs (g_node (model_graph st)) []) as [names|].
  - unfold modify in Hrun. cbv beta iota in Hrun.
    apply frame_remove_unused_constant in Hrun. unfold frame in Hrun.
    simpl in Hrun. injection Hrun as Hin Hout Hinit.
    split; [exact Hout|]. split.
    + rewrite Hin.
      rewrite (remove_each_filter
                 (fun input => str_in (vi_name input) names)).
      apply filter_sublist_of.
    + rewrite Hinit.
      rewrite (List.filter_ext
                 (fun initializer =>
                    negb (str_in (t_name initializer) names) &&
                    negb (existsb (fun output =>
                            bool_decide (vi_name output = t_name initializer))
                            (g_output (model_graph st))))
                 (fun w => negb (str_in (t_name w) names ||
                                 is_graph_output (model_graph st) w)))
        by (intros w; rewrite negb_orb; reflexivity).
      rewrite (remove_each_filter
                 (fun w => str_in (t_name w) names ||
                           is_graph_output (model_graph st) w)).
      apply filter_sublist_of.
  - injection Hrun as <-. split; [reflexivity|]. split; reflexivity.
Qed.

(** X28. On a graph without [Loop], [Scan] or [If] nodes, whenever
    [prune_graph] returns, the outputs of the graph are, in order, exactly
    those whose name is among the requested [outputs] (all of them when
    [outputs] is [None]); and the inputs and initializers that are left are
    sublists of the ones before: pruning adds none and reorders none. *)
Theorem prune_graph_keeps_outputs (fuel : nat)
    (outputs_arg : option (list string)) (st st' : OnnxModel) :
  prune_graph fuel outputs_arg st = Ok (tt, st') ->
  existsb is_control_flow (g_node (model_graph st)) = false ->
  g_output (model_graph st')
    = List.filter (fun o => str_in (vi_name o)
                     (default (List.map vi_name (g_output (model_graph st)))
                              outputs_arg))
                  (g_output (model_graph st)) /\
  (outputs_arg = None ->
   g_output (model_graph st') = g_output (model_graph st)) /\
  sublist (g_input (model_graph st')) (g_input (model_graph st)) /\
  sublist (g_initializer (model_graph st'))
          (g_initializer (model_graph st)).
Proof.
  intros Hrun Hcf. unfold prune_graph, bind, get in Hrun.
  rewrite Hcf in Hrun.
  unfold output_name_to_node at 1, bind in Hrun. rewrite nodes_eq in Hrun.
  unfold ret in Hrun.
  set (outputs := match outputs_arg with
                  | Some l => l
                  | None => List.map vi_name (g_output (model_graph st))
                  end) in Hrun.
  destruct (collect_kept fuel _ outputs [] (cached st))
    as [[all_nodes st1]| |] eqn:Hkept; try discriminate.
  apply collect_kept_frame in Hkept. simpl in Hkept.
  destruct (remove_nodes _ st1) as [[[] st2]| |] eqn:Hrem; try discriminate.
  apply frame_remove_nodes in Hrem. rewrite Hkept in Hrem.
  unfold frame in Hrem. injection Hrem as Hin Hout Hinit.
  unfold modify at 1 in Hrun. cbv beta iota in Hrun.
  unfold input_name_to_nodes at 1, bind in Hrun. rewrite nodes_eq in Hrun.
  unfold ret, modify in Hrun. cbv beta iota in Hrun.
  apply update_graph_shrinks in Hrun. simpl in Hrun.
  destruct Hrun as (Ho & Hi & Hw).
  rewrite (remove_each_filter (fun output => str_in (vi_name output) outputs))
    in Ho.
  rewrite Hout in Ho. rewrite Hinit in Hw.
  assert (Hfilter : g_output (model_graph st')
            = List.filter (fun o => str_in (vi_name o) outputs)
                          (g_output (model_graph st))) by exact Ho.
  split; [exact Hfilter|]. split; [|split; [|exact Hw]].
  - intros ->. rewrite Hfilter. subst outputs.
    apply forallb_filter_id. apply forallb_forall. intros o Hino.
    unfold str_in. apply bool_decide_eq_true. apply list_elem_of_In.
    apply in_map. exact Hino.
  - etransitivity; [exact Hi|].
    rewrite (remove_each_filter
               (fun input => py_dict_in (vi_name input) _)).
    rewrite Hin. apply filter_sublist_of.
Qed.

Lemma prune_graph_keeps_outputs_witness :
  g_output (model_graph spare_model_pruned) = [mkValueInfo "r" 1%Z] /\
  sublist (g_initializer (model_graph spare_model_pruned))
          (g_initializer (model_graph spare_model)).
Proof.
  assert (H : prune_graph 10 (Some ["r"%string]) spare_model
              = Ok (tt, spare_model_pruned)) by (vm_compute; reflexivity).
  assert (Hcf : existsb is_control_flow (g_node (model_graph spare_model))
                = false) by reflexivity.
  destruct (prune_graph_keeps_outputs 10 (Some ["r"%string]) spare_model
              spare_model_pruned H Hcf) as (Hout & _ & _ & Hinit).
  split; [exact Hout|exact Hinit].
Defined.
